(** * String Analyzer: a shallow embedding of [server.js]

    The development follows the layout of the source file:
    - code units, [toLowerCase], the whitespace and word classes of the
      regular expressions;
    - JavaScript numbers as far as the program uses them (integer valued
      doubles, the infinities and NaN), with [parseInt(_, 10)];
    - a backtracking matcher for the regular expressions of the source, with
      [String.prototype.match] and [String.prototype.split] on top of it;
    - the helpers [isPalindrome], [charFrequencyMap], [analyzeString];
    - the natural-language interpreter [parseNaturalLanguageQuery];
    - the request handlers over an explicit record store.
    The properties come after the definitions: the numbers, the matcher
    against a declarative reading of the regular expressions, and then the
    analyzer, the interpreter, the list handlers and the store.

    A JavaScript string is a sequence of UTF-16 code units.  The model covers
    the strings whose code units are below 256 (Latin-1): a string is a
    [list ascii], one [ascii] per code unit.  On that range iterating a string
    by code point and by code unit coincide, and [toLowerCase] maps a code
    unit to a code unit.  Beyond that range the two helpers that depend on it
    have a general definition in [Wide], over lists of 16 bit code units:
    [charFrequencyMap] with the string iterator, and [isPalindrome] over any
    lower-casing.

    The hash function and the clock are parameters.  The handlers take
    [decodeURIComponent] as a parameter; [URI.decodeURIComponent] is the
    function of the language as far as Latin-1 goes.  Reading and writing the
    data file is taken to succeed.  In [Query.t] an entry of [req.query] is a
    string or absent; [RawQuery.t] has the arrays and objects of repeated or
    bracketed keys as well, and [Raw.get_strings] the handler on them. *)

From Stdlib Require Import ZArith NArith Lia Bool Ascii String.
From stdpp Require Import gmap strings list.

(** ** Code units and character classes *)

Abbreviation jsstring := (list ascii).

(** String literals of the source are written [str "..."]. *)
Definition str (s : string) : jsstring := list_ascii_of_string s.

Definition code (c : ascii) : N := N_of_ascii c.

Definition in_range (lo hi : N) (c : ascii) : bool :=
  ((lo <=? code c) && (code c <=? hi))%N.

(** [\d] *)
Definition is_digit (c : ascii) : bool := in_range 48 57 c.

(** [[a-z0-9]] *)
Definition is_lower_alnum (c : ascii) : bool :=
  in_range 97 122 c || is_digit c.

(** [\w], the class behind [\b]: [[A-Za-z0-9_]] *)
Definition is_word_char (c : ascii) : bool :=
  in_range 97 122 c || in_range 65 90 c || is_digit c || (code c =? 95)%N.

(** [\s], which is also the set removed by [trim] and skipped by [parseInt]:
    TAB, LF, VT, FF, CR, SPACE and NBSP are its members below 256. *)
Definition is_space (c : ascii) : bool :=
  in_range 9 13 c || (code c =? 32)%N || (code c =? 160)%N.

(** [toLowerCase] on one code unit of Latin-1: A-Z, and the Latin-1 capitals
    U+00C0..U+00DE without the multiplication sign U+00D7, move up by 32.
    (Beyond Latin-1 lower-casing is not a map on code units.) *)
Definition lower_char (c : ascii) : ascii :=
  if in_range 65 90 c || (in_range 192 222 c && negb (code c =? 215)%N)
  then ascii_of_N (code c + 32)
  else c.

Definition toLowerCase (s : jsstring) : jsstring := map lower_char s.

(** [s.startsWith(needle)] and [s.includes(needle)] *)
Fixpoint starts_with (needle s : jsstring) : bool :=
  match needle, s with
  | [], _ => true
  | a :: needle', c :: s' => Ascii.eqb a c && starts_with needle' s'
  | _ :: _, [] => false
  end.

Fixpoint includes (s needle : jsstring) : bool :=
  starts_with needle s ||
  match s with
  | [] => false
  | _ :: s' => includes s' needle
  end.

(** The longest prefix in a class, and what follows it. *)
Fixpoint take_while (p : ascii -> bool) (s : jsstring) : jsstring :=
  match s with
  | c :: s' => if p c then c :: take_while p s' else []
  | [] => []
  end.

Fixpoint drop_while (p : ascii -> bool) (s : jsstring) : jsstring :=
  match s with
  | c :: s' => if p c then drop_while p s' else s
  | [] => []
  end.

(** [trim]: drop the whitespace at both ends. *)
Definition trim_start (s : jsstring) : jsstring := drop_while is_space s.

Definition trim_end (s : jsstring) : jsstring := rev (trim_start (rev s)).

Definition trim (s : jsstring) : jsstring := trim_end (trim_start s).

(** ** Numbers

    A JavaScript number is a double.  The program only ever builds numbers
    from [parseInt(_, 10)], from string lengths, and by adding or subtracting
    1, so every number it holds is NaN, an infinity, or an integer valued
    double; [Int z] stands for the double whose value is [z] (the two zeros
    are identified: no operation of the program tells them apart). *)

Inductive Number : Type :=
| NaN
| Infinity (negative : bool)
| Int (z : Z).

Module Double.
Local Open Scope Z_scope.

(** Exponent of the unit in the last place of a 53 bit significand that
    holds the natural number [a]. *)
Definition ulp_exp (a : Z) : Z := Z.max 0 (Z.log2 a - 52).

(** [a / 2^e] rounded to the nearest integer, ties to even. *)
Definition round_half_even (a e : Z) : Z :=
  let q := a / 2 ^ e in
  let r := a mod 2 ^ e in
  if 2 * r <? 2 ^ e then q
  else if 2 ^ e <? 2 * r then q + 1
  else if Z.even q then q else q + 1.

(** The natural number [a] rounded to double precision. *)
Definition round_nat (a : Z) : Z :=
  let e := ulp_exp a in round_half_even a e * 2 ^ e.

(** The number value of the integer [z]: round to nearest, ties to even,
    and an infinity from [2^1024] on. *)
Definition of_Z (z : Z) : Number :=
  let m := round_nat (Z.abs z) in
  if 2 ^ 1024 <=? m then Infinity (z <? 0)
  else Int (Z.sgn z * m).

Definition MAX_SAFE_INTEGER : Z := 2 ^ 53 - 1.

Definition neg (x : Number) : Number :=
  match x with
  | NaN => NaN
  | Infinity s => Infinity (negb s)
  | Int z => Int (- z)
  end.

(** [x + y]: the exact sum, rounded. *)
Definition add (x y : Number) : Number :=
  match x, y with
  | NaN, _ | _, NaN => NaN
  | Infinity s, Infinity s' => if Bool.eqb s s' then Infinity s else NaN
  | Infinity s, Int _ | Int _, Infinity s => Infinity s
  | Int a, Int b => of_Z (a + b)
  end.

Definition sub (x y : Number) : Number := add x (neg y).

(** [x < y] *)
Definition lt (x y : Number) : bool :=
  match x, y with
  | NaN, _ | _, NaN => false
  | Infinity s, Infinity s' => s && negb s'
  | Infinity s, Int _ => s
  | Int _, Infinity s => negb s
  | Int a, Int b => a <? b
  end.

(** [x > y] *)
Definition gt (x y : Number) : bool := lt y x.

(** [x === y] on numbers *)
Definition eq (x y : Number) : bool :=
  match x, y with
  | Infinity s, Infinity s' => Bool.eqb s s'
  | Int a, Int b => a =? b
  | _, _ => false
  end.

Definition isNaN (x : Number) : bool :=
  match x with NaN => true | _ => false end.

Definition of_nat (n : nat) : Number := of_Z (Z.of_nat n).
End Double.

(** *** [parseInt(s, 10)]

    Skip leading whitespace, take an optional sign, then the longest run of
    decimal digits; no digit gives NaN, anything after the digits is
    ignored. *)

Definition digit_value (c : ascii) : Z := (Z.of_N (code c) - 48)%Z.

Definition digits_value (ds : jsstring) : Z :=
  foldl (fun acc c => (acc * 10 + digit_value c)%Z) 0%Z ds.

Definition parseInt10 (s : jsstring) : Number :=
  let s1 := trim_start s in
  let '(negative, s2) :=
    match s1 with
    | c :: s' =>
        if Ascii.eqb c "-" then (true, s')
        else if Ascii.eqb c "+" then (false, s')
        else (false, s1)
    | [] => (false, s1)
    end in
  match take_while is_digit s2 with
  | [] => NaN
  | ds => Double.of_Z (if negative then - digits_value ds else digits_value ds)%Z
  end.

(** ** Regular expressions

    The source uses regular expressions built from literal text, character
    classes, [c+] on a class, [\b], alternation, an optional group and
    capture groups.  [rmatch] is the backtracking matcher of the language
    in continuation passing style: alternatives are tried left to right,
    quantifiers are greedy, and a failing continuation makes the matcher
    back up to the latest choice. *)

Inductive regex : Type :=
| Lit (l : jsstring)               (* literal text *)
| Class (p : ascii -> bool)        (* one character of a class *)
| PlusClass (p : ascii -> bool)    (* [c+], greedy *)
| WordBoundary                     (* [\b] *)
| Seq (r1 r2 : regex)
| Alt (r1 r2 : regex)              (* [r1|r2] *)
| Opt (r : regex)                  (* [r?], greedy *)
| Group (n : nat) (r : regex).     (* capture group number [n] *)

(** The state of a match attempt: the input already passed (latest code unit
    first), the input ahead, and the captures made so far. *)
Record mstate : Type := MState {
  seen : jsstring;
  rest : jsstring;
  caps : gmap nat jsstring
}.

(** The text between two states of one attempt. *)
Definition consumed (from to : mstate) : jsstring :=
  rev (take (length (seen to) - length (seen from)) (seen to)).

Definition set_cap (n : nat) (v : jsstring) (st : mstate) : mstate :=
  MState (seen st) (rest st) (<[n := v]> (caps st)).

Definition head_is_word (s : jsstring) : bool :=
  match s with
  | c :: _ => is_word_char c
  | [] => false
  end.

(** [\b] holds where exactly one of the two neighbours is a word character. *)
Definition at_word_boundary (st : mstate) : bool :=
  xorb (head_is_word (seen st)) (head_is_word (rest st)).

Fixpoint lit_match (l sn rs : jsstring) : option (jsstring * jsstring) :=
  match l with
  | [] => Some (sn, rs)
  | a :: l' =>
      match rs with
      | c :: rs' => if Ascii.eqb a c then lit_match l' (c :: sn) rs' else None
      | [] => None
      end
  end.

(** [c*] after a first character: take as many as possible, and give one
    back at a time while the continuation fails. *)
Fixpoint star_class (p : ascii -> bool) (k : mstate -> option mstate)
    (sn rs : jsstring) (cp : gmap nat jsstring) : option mstate :=
  match rs with
  | c :: rs' =>
      if p c then
        match star_class p k (c :: sn) rs' cp with
        | Some r => Some r
        | None => k (MState sn rs cp)
        end
      else k (MState sn rs cp)
  | [] => k (MState sn rs cp)
  end.

Fixpoint rmatch (r : regex) (st : mstate) (k : mstate -> option mstate)
    : option mstate :=
  match r with
  | Lit l =>
      match lit_match l (seen st) (rest st) with
      | Some (sn, rs) => k (MState sn rs (caps st))
      | None => None
      end
  | Class p =>
      match rest st with
      | c :: rs => if p c then k (MState (c :: seen st) rs (caps st)) else None
      | [] => None
      end
  | PlusClass p =>
      match rest st with
      | c :: rs => if p c then star_class p k (c :: seen st) rs (caps st) else None
      | [] => None
      end
  | WordBoundary => if at_word_boundary st then k st else None
  | Seq r1 r2 => rmatch r1 st (fun st1 => rmatch r2 st1 k)
  | Alt r1 r2 =>
      match rmatch r1 st k with
      | Some res => Some res
      | None => rmatch r2 st k
      end
  | Opt r1 =>
      match rmatch r1 st k with
      | Some res => Some res
      | None => k st
      end
  | Group n r1 => rmatch r1 st (fun st1 => k (set_cap n (consumed st st1) st1))
  end.

(** The result of [String.prototype.match] for a regular expression without
    the [g] flag: the index of the leftmost match and the groups, group 0
    being the whole match. *)
Record match_result : Type := MatchResult {
  index : nat;
  groups : gmap nat jsstring
}.

Definition group (m : match_result) (n : nat) : jsstring :=
  default [] (groups m !! n).

(** Try every start position from left to right, the end of the input
    included. *)
Fixpoint search (r : regex) (sn rs : jsstring) : option match_result :=
  let start := MState sn rs ∅ in
  match rmatch r start Some with
  | Some st => Some (MatchResult (length sn) (<[0 := consumed start st]> (caps st)))
  | None =>
      match rs with
      | [] => None
      | c :: rs' => search r (c :: sn) rs'
      end
  end.

Definition re_match (r : regex) (s : jsstring) : option match_result :=
  search r [] s.

(** [RegExp.prototype.test], as used by [if (txt.match(...))]. *)
Definition re_test (r : regex) (s : jsstring) : bool :=
  match re_match r s with Some _ => true | None => false end.

(** The regular expressions of the source. *)

(** [/\bsingle word\b/] *)
Definition re_single_word : regex :=
  Seq WordBoundary (Seq (Lit (str "single word")) WordBoundary).

(** [/\b1 word\b/] *)
Definition re_1_word : regex :=
  Seq WordBoundary (Seq (Lit (str "1 word")) WordBoundary).

(** [/\bword_count=1\b/] *)
Definition re_word_count_1 : regex :=
  Seq WordBoundary (Seq (Lit (str "word_count=1")) WordBoundary).

(** [/longer than (\d+)/] *)
Definition re_longer : regex :=
  Seq (Lit (str "longer than ")) (Group 1 (PlusClass is_digit)).

(** [/shorter than (\d+)/] *)
Definition re_shorter : regex :=
  Seq (Lit (str "shorter than ")) (Group 1 (PlusClass is_digit)).

(** [/\b(length|long) (\d+)\b/] *)
Definition re_length : regex :=
  Seq WordBoundary
   (Seq (Group 1 (Alt (Lit (str "length")) (Lit (str "long"))))
   (Seq (Lit (str " "))
   (Seq (Group 2 (PlusClass is_digit)) WordBoundary))).

(** [/(contain|containing|contains)\s+(the\s+letter\s+)?([a-z0-9])/] *)
Definition re_contains : regex :=
  Seq (Group 1 (Alt (Lit (str "contain"))
               (Alt (Lit (str "containing")) (Lit (str "contains")))))
   (Seq (PlusClass is_space)
   (Seq (Opt (Group 2 (Seq (Lit (str "the"))
                      (Seq (PlusClass is_space)
                      (Seq (Lit (str "letter")) (PlusClass is_space))))))
        (Group 3 (Class is_lower_alnum)))).

(** [/\s+/] *)
Definition re_spaces : regex := PlusClass is_space.

(** *** [String.prototype.split] with a regular expression

    The loop of the language definition: [p] is where the current piece
    starts and [q] where the separator is tried next; [piece] holds the code
    units from [p] to [q], latest first.  A separator that matches at [q] and
    ends at [e] closes the piece and moves both to [e], unless [e = p]
    (an empty match where the piece starts), which only advances [q].  The
    fuel bounds the iterations; [2 * length s + 1] are always enough. *)
Fixpoint split_loop (fuel : nat) (r : regex) (piece sn rs : jsstring)
    : list jsstring :=
  match fuel with
  | O => [rev piece]
  | S fuel' =>
      match rs with
      | [] => [rev piece]
      | c :: rs' =>
          match rmatch r (MState sn rs ∅) Some with
          | None => split_loop fuel' r (c :: piece) (c :: sn) rs'
          | Some st =>
              if (length (seen st) =? length sn)%nat && (length piece =? 0)%nat
              then split_loop fuel' r (c :: piece) (c :: sn) rs'
              else rev piece :: split_loop fuel' r [] (seen st) (rest st)
          end
      end
  end.

Definition split (s : jsstring) (r : regex) : list jsstring :=
  match s with
  | [] =>
      match rmatch r (MState [] [] ∅) Some with
      | Some _ => []
      | None => [[]]
      end
  | _ => split_loop (2 * length s + 1) r [] [] s
  end.

(** ** Data model *)

(** [props], the object returned by [analyzeString]. *)
Module Properties.
Record t : Type := Make {
  length : nat;
  is_palindrome : bool;
  unique_characters : nat;
  word_count : nat;
  sha256_hash : jsstring;
  character_frequency_map : gmap ascii nat
}.
End Properties.

(** The objects [filters] and [parsed]: a key that was never assigned is
    [None] ([undefined] when read). *)
Module Filters.
Record t : Type := Make {
  is_palindrome : option bool;
  min_length : option Number;
  max_length : option Number;
  word_count : option Number;
  contains_character : option jsstring
}.

(** [{}] *)
Definition empty : t := Make None None None None None.

Definition set_is_palindrome (v : bool) (f : t) : t :=
  Make (Some v) (min_length f) (max_length f) (word_count f) (contains_character f).
Definition set_min_length (v : Number) (f : t) : t :=
  Make (is_palindrome f) (Some v) (max_length f) (word_count f) (contains_character f).
Definition set_max_length (v : Number) (f : t) : t :=
  Make (is_palindrome f) (min_length f) (Some v) (word_count f) (contains_character f).
Definition set_word_count (v : Number) (f : t) : t :=
  Make (is_palindrome f) (min_length f) (max_length f) (Some v) (contains_character f).
Definition set_contains_character (v : jsstring) (f : t) : t :=
  Make (is_palindrome f) (min_length f) (max_length f) (word_count f) (Some v).

Definition has {A} (o : option A) : nat :=
  match o with Some _ => 1 | None => 0 end.

(** [Object.keys(f).length] *)
Definition key_count (f : t) : nat :=
  has (is_palindrome f) + has (min_length f) + has (max_length f)
  + has (word_count f) + has (contains_character f).
End Filters.

(** An entry of [db.strings]. *)
Record StringRecord : Type := MkRecord {
  id : jsstring;
  value : jsstring;
  properties : Properties.t;
  created_at : jsstring
}.

(** A thrown [Error]: its message and, when the program sets one, its
    [code]. *)
Record Error : Type := MkError {
  message : string;
  err_code : option Z
}.

(** What a handler sends: [res.status(s).json(b)]. *)
Inductive body : Type :=
| ErrorBody (error : string)
| RecordBody (record : StringRecord)
| ListBody (data : list StringRecord) (count : nat) (filters_applied : Filters.t)
| InterpretedBody (data : list StringRecord) (count : nat)
    (original : jsstring) (parsed_filters : Filters.t).

Record response : Type := Response {
  status : Z;
  json : body
}.

(** ** Helpers *)

Definition isPalindrome (value : jsstring) : bool :=
  let cleaned := toLowerCase value in
  let rev := rev cleaned in
  bool_decide (cleaned = rev).

(** On a Latin-1 string every element of [for (const ch of value)] is one
    code unit, and a key of the map is written as that code unit;
    [Wide.charFrequencyMap] is the loop on any string. *)
Definition charFrequencyMap (value : jsstring) : gmap ascii nat :=
  foldl (fun map ch => <[ch := default 0 (map !! ch) + 1]> map) ∅ value.

(** The [word_count] expression of [analyzeString]. *)
Definition count_words (value : jsstring) : nat :=
  if bool_decide (trim value = []) then 0
  else length (split (trim value) re_spaces).

Section Analyzer.

(** [crypto.createHash('sha256').update(value).digest('hex')] is taken as
    a function of the string; nothing is assumed about it. *)
Variable sha256 : jsstring -> jsstring.

Definition analyzeString (value : jsstring) : Properties.t :=
  let len := length value in
  let is_pal := isPalindrome value in
  let freq := charFrequencyMap value in
  let unique_characters := size freq in
  let word_count := count_words value in
  let hash := sha256 value in
  Properties.Make len is_pal unique_characters word_count hash freq.

End Analyzer.

(** ** The filter callback shared by both list handlers *)

Definition undefined_or {A} (o : option A) (violated : A -> bool) : bool :=
  match o with
  | Some v => violated v
  | None => false
  end.

Definition keeps (f : Filters.t) (rec : StringRecord) : bool :=
  let p := properties rec in
  if undefined_or (Filters.is_palindrome f)
       (fun v => negb (Bool.eqb (Properties.is_palindrome p) v)) then false
  else if undefined_or (Filters.min_length f)
       (fun v => Double.lt (Double.of_nat (Properties.length p)) v) then false
  else if undefined_or (Filters.max_length f)
       (fun v => Double.gt (Double.of_nat (Properties.length p)) v) then false
  else if undefined_or (Filters.word_count f)
       (fun v => negb (Double.eq (Double.of_nat (Properties.word_count p)) v)) then false
  else if undefined_or (Filters.contains_character f)
       (fun v => negb (includes (value rec) v)) then false
  else true.

(** ** The natural-language interpreter *)

Definition step_palindrome (txt : jsstring) (parsed : Filters.t) : Filters.t :=
  if includes txt (str "palindrom") || includes txt (str "palindromic")
  then Filters.set_is_palindrome true parsed else parsed.

Definition step_word_count (txt : jsstring) (parsed : Filters.t) : Filters.t :=
  if re_test re_single_word txt || re_test re_1_word txt
     || re_test re_word_count_1 txt
  then Filters.set_word_count (Int 1) parsed else parsed.

Definition step_longer (txt : jsstring) (parsed : Filters.t) : Filters.t :=
  match re_match re_longer txt with
  | Some longerMatch =>
      Filters.set_min_length
        (Double.add (parseInt10 (group longerMatch 1)) (Int 1)) parsed
  | None => parsed
  end.

Definition step_shorter (txt : jsstring) (parsed : Filters.t) : Filters.t :=
  match re_match re_shorter txt with
  | Some shorterMatch =>
      Filters.set_max_length
        (Double.sub (parseInt10 (group shorterMatch 1)) (Int 1)) parsed
  | None => parsed
  end.

Definition step_length (txt : jsstring) (parsed : Filters.t) : Filters.t :=
  match re_match re_length txt with
  | Some lenMatch =>
      Filters.set_max_length (parseInt10 (group lenMatch 2))
        (Filters.set_min_length (parseInt10 (group lenMatch 2)) parsed)
  | None => parsed
  end.

Definition step_contains (txt : jsstring) (parsed : Filters.t) : Filters.t :=
  match re_match re_contains txt with
  | Some containsMatch =>
      Filters.set_contains_character (group containsMatch 3) parsed
  | None => parsed
  end.

Definition step_first_vowel (txt : jsstring) (parsed : Filters.t) : Filters.t :=
  if includes txt (str "first vowel")
  then Filters.set_contains_character (str "a") parsed else parsed.

(** The object [parsed] after the seven assignments. *)
Definition compose (txt : jsstring) : Filters.t :=
  step_first_vowel txt
    (step_contains txt
      (step_length txt
        (step_shorter txt
          (step_longer txt
            (step_word_count txt
              (step_palindrome txt Filters.empty)))))).

Definition conflicting (parsed : Filters.t) : bool :=
  match Filters.min_length parsed, Filters.max_length parsed with
  | Some lo, Some hi => Double.gt lo hi
  | _, _ => false
  end.

Definition parseNaturalLanguageQuery (q : jsstring) : Error + Filters.t :=
  match q with
  | [] => inl (MkError "empty query" None)
  | _ =>
      let txt := toLowerCase q in
      let parsed := compose txt in
      if (Filters.key_count parsed =? 0)%nat
      then inl (MkError "Unable to parse natural language query" None)
      else if conflicting parsed
      then inl (MkError "Query parsed but resulted in conflicting filters" (Some 422%Z))
      else inr parsed
  end.

(** The query string of [GET /strings]: the five keys the handler reads,
    each given at most once and without brackets, so that it is absent or a
    string ([RawQuery.t] has the other values). *)
Module Query.
Record t : Type := Make {
  is_palindrome : option jsstring;
  min_length : option jsstring;
  max_length : option jsstring;
  word_count : option jsstring;
  contains_character : option jsstring
}.
End Query.

(** A check that may answer the request early. *)
Definition and_then {A B} (c : response + A) (f : A -> response + B)
    : response + B :=
  match c with
  | inl early => inl early
  | inr a => f a
  end.

Notation "'check' x <- c 'in' f" := (and_then c (fun x => f))
  (at level 10, x name, c at level 100, f at level 200).

(** ** The handlers

    The record store is the list [db.strings]; a handler takes the list
    [readDB] returns and, when it writes, gives back the list it hands to
    [writeDB].  File access is taken to succeed. *)

Section Handlers.

Variable sha256 : jsstring -> jsstring.

(** [decodeURIComponent]; [None] when it throws a [URIError]. *)
Variable decodeURIComponent : jsstring -> option jsstring.

(** The clock: [new Date().toISOString()]. *)
Variable now : jsstring.

Definition find_by_id (ident : jsstring) (strings : list StringRecord)
    : option StringRecord :=
  List.find (fun s => bool_decide (id s = ident)) strings.

(** [POST /strings], past [requireValueField]: [value] is a string. *)
Definition post_strings (v : jsstring) (strings : list StringRecord)
    : response * list StringRecord :=
  let props := analyzeString sha256 v in
  let ident := Properties.sha256_hash props in
  match find_by_id ident strings with
  | Some _ =>
      (Response 409 (ErrorBody "String already exists in the system"), strings)
  | None =>
      let record := MkRecord ident v props now in
      (Response 201 (RecordBody record), strings ++ [record])
  end.

(** [GET /strings/:value] *)
Definition get_string (param : jsstring) (strings : list StringRecord)
    : response :=
  match decodeURIComponent param with
  | None => Response 500 (ErrorBody "Internal server error")
  | Some rawValue =>
      match find_by_id (sha256 rawValue) strings with
      | None => Response 404 (ErrorBody "String does not exist in the system")
      | Some rec => Response 200 (RecordBody rec)
      end
  end.

(** [GET /strings/filter-by-natural-language]; [q] is [req.query.query]. *)
Definition filter_by_natural_language (q : option jsstring)
    (strings : list StringRecord) : response :=
  match q with
  | None | Some [] => Response 400 (ErrorBody "query parameter is required")
  | Some q =>
      let parsed :=
        match decodeURIComponent q with
        | None => inl (MkError "URI malformed" None)
        | Some phrase => parseNaturalLanguageQuery phrase
        end in
      match parsed with
      | inl err =>
          if bool_decide (err_code err = Some 422%Z)
          then Response 422 (ErrorBody (message err))
          else Response 400 (ErrorBody "Unable to parse natural language query")
      | inr f =>
          let results := List.filter (keeps f) strings in
          Response 200 (InterpretedBody results (length results) q f)
      end
  end.

(** [GET /strings]; the five entries of [req.query], each absent or a
    string. *)
Definition parse_is_palindrome (v : option jsstring) (filters : Filters.t)
    : response + Filters.t :=
  match v with
  | None => inr filters
  | Some v =>
      let lower := toLowerCase v in
      if negb (bool_decide (lower = str "true") || bool_decide (lower = str "false"))
      then inl (Response 400 (ErrorBody "is_palindrome must be true or false"))
      else inr (Filters.set_is_palindrome (bool_decide (lower = str "true")) filters)
  end.

Definition parse_integer (v : option jsstring) (complaint : string)
    (set : Number -> Filters.t -> Filters.t) (filters : Filters.t)
    : response + Filters.t :=
  match v with
  | None => inr filters
  | Some v =>
      let i := parseInt10 v in
      if Double.isNaN i then inl (Response 400 (ErrorBody complaint))
      else inr (set i filters)
  end.

Definition parse_contains_character (v : option jsstring) (filters : Filters.t)
    : response + Filters.t :=
  match v with
  | None => inr filters
  | Some cc =>
      if negb (length cc =? 1)%nat
      then inl (Response 400
                  (ErrorBody "contains_character must be a single character string"))
      else inr (Filters.set_contains_character cc filters)
  end.

(** The checks in the order of the source; the first that fails answers. *)
Definition parse_query (query : Query.t) : response + Filters.t :=
  check filters <-
    parse_is_palindrome (Query.is_palindrome query) Filters.empty in
  check filters <-
    parse_integer (Query.min_length query)
      "min_length must be integer" Filters.set_min_length filters in
  check filters <-
    parse_integer (Query.max_length query)
      "max_length must be integer" Filters.set_max_length filters in
  check filters <-
    parse_integer (Query.word_count query)
      "word_count must be integer" Filters.set_word_count filters in
  parse_contains_character (Query.contains_character query) filters.

Definition get_strings (query : Query.t) (strings : list StringRecord)
    : response :=
  match parse_query query with
  | inl early => early
  | inr filters =>
      let results := List.filter (keeps filters) strings in
      Response 200 (ListBody results (length results) filters)
  end.

End Handlers.

(** ** The delete handler and the data file *)

(** [Array.prototype.findIndex]; [None] stands for -1. *)
Fixpoint findIndex {A} (p : A -> bool) (l : list A) : option nat :=
  match l with
  | [] => None
  | x :: l' => if p x then Some 0 else S <$> findIndex p l'
  end.

(** What a handler sends when the answer may have no body:
    [res.status(s).json(b)] or [res.status(s).send()]. *)
Inductive reply : Type :=
| Json (r : response)
| NoContent (status : Z).

(** The data file: absent ([readFile] fails with ENOENT) or holding the
    JSON text of [{ strings: [...] }], which [JSON.parse] gives back as it
    was written.  Other read failures are not modelled. *)
Inductive data_file : Type :=
| NoFile
| DataFile (strings : list StringRecord).

(** [readDB]: a missing file is created with an empty list. *)
Definition readDB (file : data_file) : list StringRecord * data_file :=
  match file with
  | DataFile strings => (strings, file)
  | NoFile => ([], DataFile [])
  end.

Definition writeDB (strings : list StringRecord) (file : data_file) : data_file :=
  DataFile strings.

(** The requests of the record store, past the routing and past
    [requireValueField]. *)
Inductive request : Type :=
| POST_strings (value : jsstring)
| GET_string (param : jsstring)
| DELETE_string (param : jsstring)
| GET_strings (query : Query.t)
| GET_natural_language (q : option jsstring).

Section Server.

Variable sha256 : jsstring -> jsstring.
Variable decodeURIComponent : jsstring -> option jsstring.

(** [DELETE /strings/:value] on the list [readDB] returned; the list given
    back is the one handed to [writeDB] when the record was found. *)
Definition delete_string (param : jsstring) (strings : list StringRecord)
    : reply * list StringRecord :=
  match decodeURIComponent param with
  | None => (Json (Response 500 (ErrorBody "Internal server error")), strings)
  | Some rawValue =>
      let ident := sha256 rawValue in
      match findIndex (fun s => bool_decide (id s = ident)) strings with
      | None =>
          (Json (Response 404 (ErrorBody "String does not exist in the system")),
           strings)
      | Some idx => (NoContent 204, delete idx strings)
      end
  end.

(** One request against the data file, with the reads and writes of the
    source: every handler reads first (after decoding its parameter, where
    it has one), and only a successful create or delete writes. *)
Definition serve (now : jsstring) (req : request) (file : data_file)
    : reply * data_file :=
  match req with
  | POST_strings v =>
      let '(strings, file) := readDB file in
      let '(res, strings') := post_strings sha256 now v strings in
      (Json res, if (status res =? 201)%Z then writeDB strings' file else file)
  | GET_string param =>
      match decodeURIComponent param with
      | None => (Json (get_string sha256 decodeURIComponent param []), file)
      | Some _ =>
          let '(strings, file) := readDB file in
          (Json (get_string sha256 decodeURIComponent param strings), file)
      end
  | DELETE_string param =>
      match decodeURIComponent param with
      | None => (fst (delete_string param []), file)
      | Some _ =>
          let '(strings, file) := readDB file in
          match delete_string param strings with
          | (NoContent s, strings') => (NoContent s, writeDB strings' file)
          | (res, _) => (res, file)
          end
      end
  | GET_strings query =>
      match parse_query query with
      | inl early => (Json early, file)
      | inr _ =>
          let '(strings, file) := readDB file in
          (Json (get_strings query strings), file)
      end
  | GET_natural_language q =>
      match filter_by_natural_language decodeURIComponent q [] with
      | Response 200 _ =>
          let '(strings, file) := readDB file in
          (Json (filter_by_natural_language decodeURIComponent q strings), file)
      | early => (Json early, file)
      end
  end.

(** Requests served one after the other, each with its clock value. *)
Fixpoint serve_all (reqs : list (jsstring * request)) (file : data_file)
    : list reply * data_file :=
  match reqs with
  | [] => ([], file)
  | (now, req) :: reqs' =>
      let '(res, file) := serve now req file in
      let '(ress, file) := serve_all reqs' file in
      (res :: ress, file)
  end.

End Server.

(** ** Strings beyond Latin-1: the keys of [charFrequencyMap]

    [for (const ch of value)] iterates the string by code point: a high
    surrogate followed by a low surrogate is one element, a string of two code
    units; every other code unit, a lone surrogate included, is an element of
    its own.  Here a string is the list of its code units, each a number
    below [2^16]; a Latin-1 string is the special case of code units below
    256, where every element is one code unit. *)
Module Wide.

(** U+D800..U+DBFF *)
Definition is_high_surrogate (u : N) : bool :=
  (55296 <=? u)%N && (u <=? 56319)%N.

(** U+DC00..U+DFFF *)
Definition is_low_surrogate (u : N) : bool :=
  (56320 <=? u)%N && (u <=? 57343)%N.

(** The elements the string iterator yields. *)
Fixpoint code_points (value : list N) : list (list N) :=
  match value with
  | [] => []
  | u :: rest =>
      match rest with
      | l :: rest' =>
          if is_high_surrogate u && is_low_surrogate l
          then [u; l] :: code_points rest'
          else [u] :: code_points rest
      | [] => [[u]]
      end
  end.

Definition charFrequencyMap (value : list N) : gmap (list N) nat :=
  foldl (fun map ch => <[ch := default 0 (map !! ch) + 1]> map) ∅
    (code_points value).

(** [Object.keys(freq).length] *)
Definition unique_characters (value : list N) : nat :=
  size (charFrequencyMap value).

(** A Latin-1 string as the list of its code units. *)
Definition units (s : jsstring) : list N := code <$> s.

(** [isPalindrome] on any string: [split('')] cuts the string into its code
    units.  Beyond Latin-1 [toLowerCase] follows the case mappings of
    Unicode, which can change the length of a string; it is a parameter
    here. *)
Definition isPalindrome (toLowerCase : list N -> list N) (value : list N)
    : bool :=
  let cleaned := toLowerCase value in
  let rev := rev cleaned in
  bool_decide (cleaned = rev).

End Wide.

(** ** Query entries that are not strings

    The query parser of the framework hands the handler a string for a key
    that is given once, and an array or an object for a key that is repeated
    or written with brackets.  Of such a value the handler of [GET /strings]
    uses three things: its [typeof] is not 'string'; it has no method
    [toLowerCase], so that the call throws; and [parseInt] converts it to a
    string first, which gives a string or throws.  A throw ends in the catch
    block of the handler. *)
Inductive query_value : Type :=
| QString (s : jsstring)
| QOther (to_string : option jsstring).

Module RawQuery.
Record t : Type := Make {
  is_palindrome : option query_value;
  min_length : option query_value;
  max_length : option query_value;
  word_count : option query_value;
  contains_character : option query_value
}.

(** A query all of whose entries are strings. *)
Definition of_strings (query : Query.t) : t :=
  Make (QString <$> Query.is_palindrome query)
       (QString <$> Query.min_length query)
       (QString <$> Query.max_length query)
       (QString <$> Query.word_count query)
       (QString <$> Query.contains_character query).
End RawQuery.

(** [GET /strings] on such a query: the checks of the handler, with the
    paths that only a value other than a string can take. *)
Module Raw.

Definition internal_error : response :=
  Response 500 (ErrorBody "Internal server error").

(** [String(v)], as [parseInt] applies it. *)
Definition to_string (v : query_value) : option jsstring :=
  match v with
  | QString s => Some s
  | QOther converted => converted
  end.

Definition parse_is_palindrome (v : option query_value) (filters : Filters.t)
    : response + Filters.t :=
  match v with
  | None => inr filters
  | Some (QString s) => parse_is_palindrome (Some s) filters
  | Some (QOther _) => inl internal_error
  end.

Definition parse_integer (v : option query_value) (complaint : string)
    (set : Number -> Filters.t -> Filters.t) (filters : Filters.t)
    : response + Filters.t :=
  match v with
  | None => inr filters
  | Some v =>
      match to_string v with
      | Some s => parse_integer (Some s) complaint set filters
      | None => inl internal_error
      end
  end.

Definition parse_contains_character (v : option query_value)
    (filters : Filters.t) : response + Filters.t :=
  match v with
  | None => inr filters
  | Some (QString cc) => parse_contains_character (Some cc) filters
  | Some (QOther _) =>
      inl (Response 400
             (ErrorBody "contains_character must be a single character string"))
  end.

Definition parse_query (query : RawQuery.t) : response + Filters.t :=
  check filters <-
    parse_is_palindrome (RawQuery.is_palindrome query) Filters.empty in
  check filters <-
    parse_integer (RawQuery.min_length query)
      "min_length must be integer" Filters.set_min_length filters in
  check filters <-
    parse_integer (RawQuery.max_length query)
      "max_length must be integer" Filters.set_max_length filters in
  check filters <-
    parse_integer (RawQuery.word_count query)
      "word_count must be integer" Filters.set_word_count filters in
  parse_contains_character (RawQuery.contains_character query) filters.

Definition get_strings (query : RawQuery.t) (strings : list StringRecord)
    : response :=
  match parse_query query with
  | inl early => early
  | inr filters =>
      let results := List.filter (keeps filters) strings in
      Response 200 (ListBody results (length results) filters)
  end.

End Raw.

(** ** [decodeURIComponent] on the raw value

    The handlers of [/strings/:value] call [decodeURIComponent] on
    [req.params.value], which the router has percent-decoded already: the
    parameter is the raw value the client named, and the handler decodes it
    once more.  On a string of Latin-1 code units the function reads from left
    to right: a code unit other than "%" stands for itself; "%" must be
    followed by two hexadecimal digits, or a URIError is thrown; an escape
    below [%80] stands for the code unit of that number; an escape from [%80]
    on starts a UTF-8 sequence, whose decoding (an error, or a character that
    may lie beyond Latin-1) is left to a parameter. *)
Module URI.

Definition hex_value (c : ascii) : option N :=
  if is_digit c then Some (code c - 48)%N
  else if in_range 97 102 c then Some (code c - 87)%N
  else if in_range 65 70 c then Some (code c - 55)%N
  else None.

Inductive decoding : Type :=
| Decoded (s : jsstring)
| URIError
| Utf8Sequence.

Definition decoded_cons (c : ascii) (r : decoding) : decoding :=
  match r with
  | Decoded s => Decoded (c :: s)
  | _ => r
  end.

Fixpoint decode (s : jsstring) : decoding :=
  match s with
  | [] => Decoded []
  | c :: s' =>
      if Ascii.eqb c "%" then
        match s' with
        | h1 :: h2 :: s'' =>
            match hex_value h1, hex_value h2 with
            | Some a, Some b =>
                if (16 * a + b <? 128)%N
                then decoded_cons (ascii_of_N (16 * a + b)) (decode s'')
                else Utf8Sequence
            | _, _ => URIError
            end
        | _ => URIError
        end
      else decoded_cons c (decode s')
  end.

(** [decodeURIComponent]; [utf8] stands for what the function does with a
    string whose first escape from [%80] on is reached without an error. *)
Definition decodeURIComponent (utf8 : jsstring -> option jsstring)
    (s : jsstring) : option jsstring :=
  match decode s with
  | Decoded t => Some t
  | URIError => None
  | Utf8Sequence => utf8 s
  end.

End URI.

(** ** Specification-side definitions *)

(** What a regular expression may match, without the order in which the
    matcher tries the possibilities: [matches r st st'] holds when [r] can
    take the matcher from [st] to [st']. *)
Inductive matches : regex -> mstate -> mstate -> Prop :=
| M_Lit l sn rs cp :
    matches (Lit l) (MState sn (l ++ rs) cp) (MState (rev l ++ sn) rs cp)
| M_Class p c sn rs cp :
    p c = true ->
    matches (Class p) (MState sn (c :: rs) cp) (MState (c :: sn) rs cp)
| M_Plus p cs sn rs cp :
    cs <> [] -> Forall (fun c => p c = true) cs ->
    matches (PlusClass p) (MState sn (cs ++ rs) cp) (MState (rev cs ++ sn) rs cp)
| M_Boundary st :
    at_word_boundary st = true -> matches WordBoundary st st
| M_Seq r1 r2 st st1 st2 :
    matches r1 st st1 -> matches r2 st1 st2 -> matches (Seq r1 r2) st st2
| M_AltL r1 r2 st st' : matches r1 st st' -> matches (Alt r1 r2) st st'
| M_AltR r1 r2 st st' : matches r2 st st' -> matches (Alt r1 r2) st st'
| M_OptSome r st st' : matches r st st' -> matches (Opt r) st st'
| M_OptNone r st : matches (Opt r) st st
| M_Group n r st st1 :
    matches r st st1 ->
    matches (Group n r) st (set_cap n (consumed st st1) st1).

Definition ends_in_space (s : jsstring) : bool :=
  match last s with
  | Some c => is_space c
  | None => false
  end.

Definition all_digits (ds : jsstring) : Prop :=
  ds <> [] /\ Forall (fun c => is_digit c = true) ds.

Definition head_is_digit (s : jsstring) : bool :=
  match s with
  | c :: _ => is_digit c
  | [] => false
  end.

(** The number of maximal runs of non-whitespace code units: a run starts
    at every code unit that is not whitespace and stands first or after a
    whitespace. *)
Fixpoint runs_from (after_space : bool) (s : jsstring) : nat :=
  match s with
  | [] => 0
  | c :: s' =>
      (if after_space && negb (is_space c) then 1 else 0)
      + runs_from (is_space c) s'
  end.

Definition non_whitespace_runs (s : jsstring) : nat := runs_from true s.

(** Words written one after the other with [gap] between them. *)
Fixpoint join_words (gap : jsstring) (words : list jsstring) : jsstring :=
  match words with
  | [] => []
  | w :: ws =>
      match ws with
      | [] => w
      | _ :: _ => w ++ gap ++ join_words gap ws
      end
  end.

Definition is_word (w : jsstring) : Prop :=
  w <> [] /\ Forall (fun c => is_space c = false) w.

(** The two ways the interpreter fails, as the catch block of the
    natural-language handler tells them apart: an error carrying the code
    422 is the conflict, any other error is the parse failure. *)
Inductive failure : Type := Unparseable | ConflictingFilters.

Definition classify (e : Error) : failure :=
  if bool_decide (err_code e = Some 422%Z) then ConflictingFilters
  else Unparseable.

Definition fails_with (kind : failure) (r : Error + Filters.t) : Prop :=
  exists e, r = inl e /\ classify e = kind.

(** [needle] stands somewhere in [txt]. *)
Definition contains_text (txt needle : jsstring) : Prop :=
  exists pre post, txt = pre ++ needle ++ post.

(** The regular expression [r] has a match somewhere in [txt]. *)
Definition occurs (r : regex) (txt : jsstring) : Prop :=
  exists pre post st',
    txt = pre ++ post /\ matches r (MState (rev pre) post ∅) st'.

(** "length N" or "long N" standing anywhere in [txt], as the
    specification words the fifth pattern: the word, a space, a run of
    digits, whatever stands around them. *)
Definition length_phrase (txt : jsstring) : Prop :=
  exists pre w ds post,
    (w = str "length" \/ w = str "long") /\
    txt = pre ++ w ++ str " " ++ ds ++ post /\ all_digits ds.

(** The seven recognized patterns on the lower-cased phrase, for a given
    reading [length_pattern] of the fifth:
    1. the token "palindrom";
    2. "single word" or "1 word" at word boundaries;
    3. "longer than N";
    4. "shorter than N";
    5. "length N" or "long N", as [length_pattern] reads it;
    6. "contain", "containing" or "contains", whitespace, optionally "the
       letter", then one alphanumeric character;
    7. "first vowel". *)
Definition seven_patterns (length_pattern : jsstring -> Prop)
    (txt : jsstring) : Prop :=
  contains_text txt (str "palindrom") \/
  (occurs re_single_word txt \/ occurs re_1_word txt) \/
  occurs re_longer txt \/
  occurs re_shorter txt \/
  length_pattern txt \/
  occurs re_contains txt \/
  contains_text txt (str "first vowel").

(** The seven patterns in the words of the specification: the fifth stands
    anywhere in the phrase. *)
Definition some_pattern_matches (txt : jsstring) : Prop :=
  seven_patterns length_phrase txt.

(** How the lower-cased phrase writes a number for the interpreter.  A
    position of the phrase is given by the text [before] it and the text
    [after] it; [ds] is the run of digits that writes the number. *)

(** At this position stands [lit], then the whole run of digits [ds]. *)
Definition number_after (lit : jsstring) (before after ds : jsstring) : Prop :=
  exists post,
    after = lit ++ ds ++ post /\ all_digits ds /\ head_is_digit post = false.

(** "longer than N" and "shorter than N" *)
Definition longer_written : jsstring -> jsstring -> jsstring -> Prop :=
  number_after (str "longer than ").

Definition shorter_written : jsstring -> jsstring -> jsstring -> Prop :=
  number_after (str "shorter than ").

(** "length N" or "long N": the word starts at a word boundary, and the
    run of digits ends at one. *)
Definition length_written (before after ds : jsstring) : Prop :=
  head_is_word (rev before) = false /\
  exists w post,
    (w = str "length" \/ w = str "long") /\
    after = w ++ str " " ++ ds ++ post /\
    all_digits ds /\ head_is_word post = false.

(** The fifth pattern standing in [txt] as whole words. *)
Definition length_phrase_as_words (txt : jsstring) : Prop :=
  exists before after ds, txt = before ++ after /\ length_written before after ds.

(** [ds] is the first number that [txt] writes in the way [written]: it is
    written at some position, and nothing is written that way at an earlier
    one. *)
Definition first_written
    (written : jsstring -> jsstring -> jsstring -> Prop)
    (txt ds : jsstring) : Prop :=
  exists before after,
    txt = before ++ after /\ written before after ds /\
    forall a b ds', before = a ++ b -> b <> [] -> ~ written a (b ++ after) ds'.

(** How often the code unit [c] stands in [v]. *)
Definition occurrences (c : ascii) (v : jsstring) : nat :=
  length (List.filter (Ascii.eqb c) v).

(** The sum of the counts of a frequency map. *)
Definition total_count (m : gmap ascii nat) : nat :=
  map_fold (fun _ n acc => n + acc) 0 m.

(** One step of the loop of [charFrequencyMap]. *)
Definition count_step (map : gmap ascii nat) (ch : ascii) : gmap ascii nat :=
  <[ch := default 0 (map !! ch) + 1]> map.

(** The same notions for keys of any kind: how often [x] stands in [l], the
    tally of a list, and the sum of the counts of a map. *)
Definition count_of `{EqDecision A} (x : A) (l : list A) : nat :=
  length (List.filter (fun y => bool_decide (x = y)) l).

Definition tally `{Countable K} (l : list K) : gmap K nat :=
  foldl (fun map ch => <[ch := default 0 (map !! ch) + 1]> map) ∅ l.

Definition sum_of_counts `{Countable K} (m : gmap K nat) : nat :=
  map_fold (fun _ n acc => n + acc) 0 m.

(** The number of surrogate pairs the string iterator keeps together. *)
Definition surrogate_pairs (value : list N) : nat :=
  length (List.filter (fun cp => length cp =? 2) (Wide.code_points value)).

(** [lower] is a lower-casing that acts on the strings of Latin-1 code units
    as the table [lower_char] does, code unit by code unit; the [toLowerCase]
    of the language is one. *)
Definition lowers_latin1 (lower : list N -> list N) : Prop :=
  forall s : jsstring, lower (Wide.units s) = Wide.units (toLowerCase s).

(** The tokens the structured list handler lets through. *)

(** "true" or "false" in any letter case. *)
Definition boolean_token (v : jsstring) : Prop :=
  toLowerCase v = str "true" \/ toLowerCase v = str "false".

(** Optional whitespace, an optional sign, and at least one digit; anything
    may follow. *)
Definition starts_with_integer (v : jsstring) : Prop :=
  exists sp sign ds rest,
    v = sp ++ sign ++ ds ++ rest /\
    Forall (fun c => is_space c = true) sp /\
    (sign = [] \/ sign = str "-" \/ sign = str "+") /\
    all_digits ds.

(** Exactly one code unit. *)
Definition character_token (v : jsstring) : Prop := length v = 1.

(** Every key of the query that is present holds a token that passes. *)
Definition present {A} (o : option A) (P : A -> Prop) : Prop :=
  forall v, o = Some v -> P v.

Definition valid_query (query : Query.t) : Prop :=
  present (Query.is_palindrome query) boolean_token /\
  present (Query.min_length query) starts_with_integer /\
  present (Query.max_length query) starts_with_integer /\
  present (Query.word_count query) starts_with_integer /\
  present (Query.contains_character query) character_token.

(** The same for entries of any kind: [is_palindrome] and
    [contains_character] must be strings, a numeric key must convert to a
    string that starts with an integer. *)
Definition a_string (P : jsstring -> Prop) (v : query_value) : Prop :=
  exists s, v = QString s /\ P s.

Definition converts_to (P : jsstring -> Prop) (v : query_value) : Prop :=
  exists s, Raw.to_string v = Some s /\ P s.

Definition valid_raw_query (query : RawQuery.t) : Prop :=
  present (RawQuery.is_palindrome query) (a_string boolean_token) /\
  present (RawQuery.min_length query) (converts_to starts_with_integer) /\
  present (RawQuery.max_length query) (converts_to starts_with_integer) /\
  present (RawQuery.word_count query) (converts_to starts_with_integer) /\
  present (RawQuery.contains_character query) (a_string character_token).

(** An entry on which the handler throws: an [is_palindrome] that is no
    string, or a numeric key that cannot be converted to a string. *)
Definition throwing_entry (query : RawQuery.t) : Prop :=
  (exists converted, RawQuery.is_palindrome query = Some (QOther converted)) \/
  RawQuery.min_length query = Some (QOther None) \/
  RawQuery.max_length query = Some (QOther None) \/
  RawQuery.word_count query = Some (QOther None).

(** [w] stands in [txt] as a whole word: no word character stands right
    before it or right after it. *)
Definition stands_as_word (txt w : jsstring) : Prop :=
  exists before after,
    txt = before ++ w ++ after /\
    head_is_word (rev before) = false /\ head_is_word after = false.

(** The list a handler reads from the data file. *)
Definition stored (file : data_file) : list StringRecord := fst (readDB file).

(** A store as [POST /strings] builds it: every record carries the hash and
    the analysis of its value, and no two records share an id. *)
Definition well_formed (sha256 : jsstring -> jsstring)
    (strings : list StringRecord) : Prop :=
  Forall (fun rec => id rec = sha256 (value rec) /\
                     properties rec = analyzeString sha256 (value rec)) strings /\
  NoDup (id <$> strings).

(** * Properties *)

(** ** Numbers: the safe integers are exact *)

Module DoubleFacts.
Import Double.
Local Open Scope Z_scope.

Lemma round_nat_small (a : Z) : 0 <= a <= 2 ^ 53 -> round_nat a = a.
Proof.
  intros Ha. unfold round_nat, ulp_exp.
  destruct (Z.eq_dec a (2 ^ 53)) as [->|Hne]; [reflexivity|].
  assert (Hlog : Z.log2 a - 52 <= 0).
  { destruct (Z.eq_dec a 0) as [->|Hz]; [cbn; lia|].
    assert (Z.log2 a < 53) by (apply Z.log2_lt_pow2; lia). lia. }
  rewrite Z.max_l by lia.
  unfold round_half_even. rewrite Z.pow_0_r, Z.div_1_r, Z.mod_1_r.
  change (2 * 0 <? 1) with true. cbv iota. lia.
Qed.

Lemma of_Z_small (z : Z) : - 2 ^ 53 <= z <= 2 ^ 53 -> of_Z z = Int z.
Proof.
  intros Hz. unfold of_Z.
  rewrite round_nat_small by lia.
  destruct (Z.leb_spec (2 ^ 1024) (Z.abs z)) as [Hbig|_].
  - exfalso. assert (2 ^ 53 < 2 ^ 1024) by reflexivity. lia.
  - f_equal. rewrite Z.mul_comm. apply Z.abs_sgn.
Qed.

Lemma of_Z_safe (z : Z) : 0 <= z <= MAX_SAFE_INTEGER -> of_Z z = Int z.
Proof. unfold MAX_SAFE_INTEGER. intros Hz. apply of_Z_small. lia. Qed.

(** [n + 1] is exact up to [MAX_SAFE_INTEGER]. *)
Lemma add_one_safe (z : Z) :
  0 <= z <= MAX_SAFE_INTEGER -> add (Int z) (Int 1) = Int (z + 1).
Proof. unfold MAX_SAFE_INTEGER. intros Hz. cbn. apply of_Z_small. lia. Qed.

Lemma sub_one_safe (z : Z) :
  0 <= z <= MAX_SAFE_INTEGER -> sub (Int z) (Int 1) = Int (z - 1).
Proof. unfold MAX_SAFE_INTEGER. intros Hz. cbn. apply of_Z_small. lia. Qed.

Lemma round_half_even_lower (a e : Z) : a / 2 ^ e <= round_half_even a e.
Proof.
  unfold round_half_even.
  repeat match goal with |- context [if ?b then _ else _] => destruct b end; lia.
Qed.

(** Rounding never takes a number from [2^53] on below [2^52]. *)
Lemma round_nat_large (a : Z) : 2 ^ 53 <= a -> 2 ^ 52 <= round_nat a.
Proof.
  intros Ha. assert (0 < a) as Hpos by (assert (0 < 2 ^ 53) by reflexivity; lia).
  assert (53 <= Z.log2 a) as Hlog by (apply Z.log2_le_pow2; lia).
  pose proof (Z.log2_spec a Hpos) as [Hlo _].
  unfold round_nat, ulp_exp. rewrite Z.max_r by lia.
  set (e := Z.log2 a - 52) in *.
  assert (0 < 2 ^ e) as He by (apply Z.pow_pos_nonneg; lia).
  assert (2 ^ 52 <= a / 2 ^ e) as Hq.
  { apply Z.div_le_lower_bound; [done|].
    rewrite <- Z.pow_add_r by lia. by replace (e + 52) with (Z.log2 a) by lia. }
  pose proof (round_half_even_lower a e). nia.
Qed.

(** The number of a length or count [n]: [n] itself up to [2^53], and
    otherwise at least [2^52]. *)
Lemma of_nat_cases (n : nat) :
  of_nat n = Int (Z.of_nat n) \/
  of_nat n = Infinity false \/
  exists z, of_nat n = Int z /\ 2 ^ 52 <= z.
Proof.
  unfold of_nat. destruct (Z.le_gt_cases (Z.of_nat n) (2 ^ 53)) as [Hs|Hl].
  - left. apply of_Z_small. lia.
  - right. unfold of_Z.
    assert (0 < Z.of_nat n) as Hpos by (assert (0 < 2 ^ 53) by reflexivity; lia).
    rewrite Z.abs_eq by lia.
    destruct (_ <=? _).
    + left. f_equal. by apply Z.ltb_ge; lia.
    + right. eexists. split; [done|].
      rewrite Z.sgn_pos by done. pose proof (round_nat_large (Z.of_nat n)). lia.
Qed.
End DoubleFacts.

(** ** The matcher *)

Module RegexFacts.

Lemma lit_match_app (l sn rs : jsstring) :
  lit_match l sn (l ++ rs) = Some (rev l ++ sn, rs).
Proof.
  revert sn. induction l as [|a l IH]; intros sn; [done|].
  cbn. rewrite Ascii.eqb_refl, IH. by rewrite <- app_assoc.
Qed.

Lemma lit_match_inv (l sn rs sn' rs' : jsstring) :
  lit_match l sn rs = Some (sn', rs') ->
  rs = l ++ rs' /\ sn' = rev l ++ sn.
Proof.
  revert sn rs. induction l as [|a l IH]; intros sn rs H; cbn in H.
  - by inversion H.
  - destruct rs as [|c rs]; [done|].
    destruct (Ascii.eqb_spec a c) as [->|]; [|done].
    apply IH in H as [-> ->]. split; [done|].
    cbn. by rewrite <- app_assoc.
Qed.

(** Greedy repetition under a continuation that cannot fail takes the
    whole run. *)
Lemma star_class_greedy p (k : mstate -> option mstate) sn rs cp :
  (forall st, is_Some (k st)) ->
  star_class p k sn rs cp
  = k (MState (rev (take_while p rs) ++ sn) (drop_while p rs) cp).
Proof.
  intros Hk. revert sn. induction rs as [|c rs IH]; intros sn; cbn; [done|].
  destruct (p c); [|done].
  rewrite IH. cbn. rewrite <- app_assoc. cbn.
  by destruct (Hk (MState (rev (take_while p rs) ++ c :: sn) (drop_while p rs) cp))
    as [res ->].
Qed.

Lemma star_class_sound p k sn rs cp res :
  star_class p k sn rs cp = Some res ->
  exists cs rs', rs = cs ++ rs' /\ Forall (fun c => p c = true) cs /\
    k (MState (rev cs ++ sn) rs' cp) = Some res.
Proof.
  revert sn. induction rs as [|c rs IH]; intros sn H; cbn in H.
  - by exists [], [].
  - destruct (p c) eqn:Hp; [|by exists [], (c :: rs)].
    destruct (star_class p k (c :: sn) rs cp) eqn:Hs.
    + inversion H; subst. apply IH in Hs as (cs & rs' & -> & Hall & Hk).
      exists (c :: cs), rs'. split; [done|]. split; [by constructor|].
      cbn. by rewrite <- app_assoc.
    + by exists [], (c :: rs).
Qed.

(** Whatever the matcher finds is a match. *)
Lemma rmatch_sound r st k res :
  rmatch r st k = Some res ->
  exists st', matches r st st' /\ k st' = Some res.
Proof.
  revert st k. induction r as [l|p|p| |r1 IH1 r2 IH2|r1 IH1 r2 IH2|r1 IH1|n r1 IH1];
    intros [sn rs cp] k H; cbn in H.
  - destruct (lit_match l sn rs) as [[sn' rs']|] eqn:Hl; [|done].
    apply lit_match_inv in Hl as [-> ->]. eexists. split; [constructor|done].
  - destruct rs as [|c rs]; [done|]. destruct (p c) eqn:Hp; [|done].
    eexists. split; [by constructor|done].
  - destruct rs as [|c rs]; [done|]. destruct (p c) eqn:Hp; [|done].
    apply star_class_sound in H as (cs & rs' & -> & Hall & Hk).
    exists (MState (rev (c :: cs) ++ sn) rs' cp). split.
    + apply (M_Plus p (c :: cs)); [done|by constructor].
    + cbn. by rewrite <- app_assoc.
  - destruct (at_word_boundary _) eqn:Hb; [|done].
    eexists. split; [by constructor|done].
  - apply IH1 in H as (st1 & H1 & H). apply IH2 in H as (st2 & H2 & H).
    exists st2. split; [by econstructor|done].
  - destruct (rmatch r1 _ k) eqn:H1.
    + inversion H; subst. apply IH1 in H1 as (st' & ? & ?).
      exists st'. split; [by apply M_AltL|done].
    + apply IH2 in H as (st' & ? & ?). exists st'. split; [by apply M_AltR|done].
  - destruct (rmatch r1 _ k) eqn:H1.
    + inversion H; subst. apply IH1 in H1 as (st' & ? & ?).
      exists st'. split; [by apply M_OptSome|done].
    + eexists. split; [apply M_OptNone|done].
  - apply IH1 in H as (st1 & H1 & H). eexists. split; [by constructor|done].
Qed.

(** A match only moves code units from the input ahead to the input
    passed. *)
Lemma matches_extends r st st' :
  matches r st st' ->
  exists cs, rest st = cs ++ rest st' /\ seen st' = rev cs ++ seen st.
Proof.
  induction 1 as [l sn rs cp|p c sn rs cp _|p cs sn rs cp _ _|st _
                 |r1 r2 st st1 st2 _ IH1 _ IH2|r1 r2 st st' _ IH|r1 r2 st st' _ IH
                 |r st st' _ IH|r st|n r st st1 _ IH].
  - by exists l.
  - by exists [c].
  - by exists cs.
  - by exists [].
  - destruct IH1 as (cs1 & E1 & E1'), IH2 as (cs2 & E2 & E2').
    exists (cs1 ++ cs2). rewrite E1, E2, E2', E1', rev_app_distr.
    by rewrite !app_assoc.
  - done.
  - done.
  - done.
  - by exists [].
  - done.
Qed.

Lemma consumed_extends st st' cs :
  seen st' = rev cs ++ seen st -> consumed st st' = cs.
Proof.
  intros E. unfold consumed. rewrite E, length_app, length_rev.
  replace (length cs + length (seen st) - length (seen st)) with (length (rev cs))
    by (rewrite length_rev; lia).
  by rewrite take_app_length, rev_involutive.
Qed.

(** The matcher finds a match wherever there is one that the continuation
    accepts. *)
Lemma star_class_complete p k sn (cs rs : jsstring) cp :
  Forall (fun c => p c = true) cs ->
  is_Some (k (MState (rev cs ++ sn) rs cp)) ->
  is_Some (star_class p k sn (cs ++ rs) cp).
Proof.
  intros Hall. revert sn. induction Hall as [|c cs Hc _ IH]; intros sn Hk.
  - destruct rs as [|c rs]; [done|]. cbn. destruct (p c); [|done].
    by destruct (star_class p k (c :: sn) rs cp).
  - cbn. rewrite Hc. cbn in Hk. rewrite <- app_assoc in Hk.
    by destruct (IH (c :: sn) Hk) as [res ->].
Qed.

Lemma rmatch_complete r st st' :
  matches r st st' ->
  forall k, is_Some (k st') -> is_Some (rmatch r st k).
Proof.
  induction 1 as [l sn rs cp|p c sn rs cp Hp|p cs sn rs cp Hne Hall|st Hb
                 |r1 r2 st st1 st2 _ IH1 _ IH2|r1 r2 st st' _ IH|r1 r2 st st' _ IH
                 |r st st' _ IH|r st|n r st st1 _ IH]; intros k Hk; cbn.
  - by rewrite lit_match_app.
  - by rewrite Hp.
  - destruct Hall as [|c cs Hc Hall]; [done|]. cbn. rewrite Hc.
    apply star_class_complete; [done|]. cbn in Hk. by rewrite <- app_assoc in Hk.
  - by rewrite Hb.
  - apply IH1. by apply IH2.
  - by destruct (IH k Hk) as [res ->].
  - destruct (rmatch r1 st k); [done|]. by apply IH.
  - by destruct (IH k Hk) as [res ->].
  - by destruct (rmatch r st k).
  - by apply IH.
Qed.

(** [search] returns the match at the leftmost start position at which
    the matcher succeeds. *)
Lemma search_sound r sn rs m :
  search r sn rs = Some m ->
  exists pre post st',
    rs = pre ++ post /\ index m = length sn + length pre /\
    rmatch r (MState (rev pre ++ sn) post ∅) Some = Some st' /\
    groups m = <[0 := consumed (MState (rev pre ++ sn) post ∅) st']> (caps st') /\
    forall a b, pre = a ++ b -> b <> [] ->
      rmatch r (MState (rev a ++ sn) (b ++ post) ∅) Some = None.
Proof.
  revert sn. induction rs as [|c rs IH]; intros sn H; cbn in H.
  - destruct (rmatch r _ Some) as [st'|] eqn:Hm; [|done].
    inversion H; subst. exists [], [], st'. cbn.
    split_and!; [done|lia|done|done|]. intros a b Hab Hb. by destruct a, b.
  - destruct (rmatch r _ Some) as [st'|] eqn:Hm.
    + inversion H; subst. exists [], (c :: rs), st'. cbn.
      split_and!; [done|lia|done|done|]. intros a b Hab Hb. by destruct a, b.
    + apply IH in H as (pre & post & st' & -> & Hi & Hm' & Hg & Hleft).
      exists (c :: pre), post, st'. cbn. rewrite <- app_assoc. cbn in *.
      split_and!; [done|lia|done|done|].
      intros a b Hab Hb. destruct a as [|c' a]; cbn in Hab.
      * subst b. exact Hm.
      * inversion Hab; subst. cbn. rewrite <- app_assoc. by apply Hleft.
Qed.

Lemma search_first r sn pre post st :
  (forall a b, pre = a ++ b -> b <> [] ->
     rmatch r (MState (rev a ++ sn) (b ++ post) ∅) Some = None) ->
  rmatch r (MState (rev pre ++ sn) post ∅) Some = Some st ->
  search r sn (pre ++ post)
  = Some (MatchResult (length sn + length pre)
            (<[0 := consumed (MState (rev pre ++ sn) post ∅) st]> (caps st))).
Proof.
  revert sn. induction pre as [|c pre IH]; intros sn Hleft Hm.
  - cbn in *. rewrite Nat.add_0_r. destruct post as [|c post]; cbn; by rewrite Hm.
  - pose proof (Hleft [] (c :: pre) eq_refl ltac:(done)) as Hhere.
    cbn in Hhere. cbn [app search]. rewrite Hhere.
    cbn [rev] in Hm. rewrite <- app_assoc in Hm. cbn [app] in Hm.
    rewrite (IH (c :: sn)).
    + cbn [rev length]. rewrite <- app_assoc. cbn [app]. do 2 f_equal. lia.
    + intros a b -> Hb. specialize (Hleft (c :: a) b eq_refl Hb).
      cbn [rev] in Hleft. by rewrite <- app_assoc in Hleft.
    + done.
Qed.

Lemma re_match_sound r s m :
  re_match r s = Some m ->
  exists pre post st',
    s = pre ++ post /\ index m = length pre /\
    rmatch r (MState (rev pre) post ∅) Some = Some st' /\
    groups m = <[0 := consumed (MState (rev pre) post ∅) st']> (caps st') /\
    forall a b, pre = a ++ b -> b <> [] ->
      rmatch r (MState (rev a) (b ++ post) ∅) Some = None.
Proof.
  intros H. apply search_sound in H as (pre & post & st' & ? & ? & Hm & Hg & Hl).
  rewrite app_nil_r in Hm, Hg. exists pre, post, st'.
  split_and!; try done. intros a b Hab Hb. specialize (Hl a b Hab Hb).
  by rewrite app_nil_r in Hl.
Qed.

Lemma re_match_first r pre post st :
  (forall a b, pre = a ++ b -> b <> [] ->
     rmatch r (MState (rev a) (b ++ post) ∅) Some = None) ->
  rmatch r (MState (rev pre) post ∅) Some = Some st ->
  re_match r (pre ++ post)
  = Some (MatchResult (length pre)
            (<[0 := consumed (MState (rev pre) post ∅) st]> (caps st))).
Proof.
  intros Hleft Hm. unfold re_match.
  rewrite (search_first r [] pre post st).
  - by rewrite !app_nil_r.
  - intros a b Hab Hb. rewrite app_nil_r. by apply Hleft.
  - by rewrite app_nil_r.
Qed.

Lemma search_complete r sn pre post :
  is_Some (rmatch r (MState (rev pre ++ sn) post ∅) Some) ->
  is_Some (search r sn (pre ++ post)).
Proof.
  revert sn. induction pre as [|c pre IH]; intros sn Hm.
  - cbn in *. destruct Hm as [st Hm]. destruct post; cbn; by rewrite Hm.
  - cbn [app search].
    destruct (rmatch r (MState sn (c :: pre ++ post) ∅) Some); [by eexists|].
    apply IH. cbn [rev] in Hm. by rewrite <- app_assoc in Hm.
Qed.

(** [test] succeeds exactly when the expression has a match somewhere in
    the string. *)
Lemma re_test_spec r (s : jsstring) :
  re_test r s = true <->
  exists pre post st', s = pre ++ post /\ matches r (MState (rev pre) post ∅) st'.
Proof.
  unfold re_test. split.
  - destruct (re_match r s) as [m|] eqn:Hm; [|done]. intros _.
    apply re_match_sound in Hm as (pre & post & st' & -> & _ & Hm & _).
    apply rmatch_sound in Hm as (st'' & Hm & _). by exists pre, post, st''.
  - intros (pre & post & st' & -> & Hm).
    assert (is_Some (re_match r (pre ++ post))) as [m ->]; [|done].
    apply search_complete. rewrite app_nil_r.
    by apply (rmatch_complete r _ st').
Qed.

(** Inversion of [matches], one lemma per construct, in terms of the
    projections of the two states. *)
Lemma matches_lit_inv l st st' :
  matches (Lit l) st st' ->
  rest st = l ++ rest st' /\ seen st' = rev l ++ seen st /\ caps st' = caps st.
Proof. by inversion 1. Qed.


Lemma matches_plus_inv p st st' :
  matches (PlusClass p) st st' ->
  exists cs, cs <> [] /\ Forall (fun c => p c = true) cs /\
    rest st = cs ++ rest st' /\ seen st' = rev cs ++ seen st /\
    caps st' = caps st.
Proof. inversion 1; subst. by eexists. Qed.

Lemma matches_boundary_inv st st' :
  matches WordBoundary st st' -> st' = st /\ at_word_boundary st = true.
Proof. by inversion 1. Qed.

Lemma matches_seq_inv r1 r2 st st2 :
  matches (Seq r1 r2) st st2 ->
  exists st1, matches r1 st st1 /\ matches r2 st1 st2.
Proof. inversion 1; subst. by eexists. Qed.

Lemma matches_alt_inv r1 r2 st st' :
  matches (Alt r1 r2) st st' -> matches r1 st st' \/ matches r2 st st'.
Proof. inversion 1; subst; [by left|by right]. Qed.

Lemma matches_group_inv n r st st' :
  matches (Group n r) st st' ->
  exists st1 cs, matches r st st1 /\ rest st = cs ++ rest st1 /\
    seen st1 = rev cs ++ seen st /\
    seen st' = seen st1 /\ rest st' = rest st1 /\
    caps st' = <[n := cs]> (caps st1).
Proof.
  inversion 1 as [| | | | | | | | |n' r' st0 st1 Hm]; subst.
  destruct (matches_extends _ _ _ Hm) as (cs & Hr & Hs).
  exists st1, cs. rewrite (consumed_extends _ _ _ Hs). by repeat split.
Qed.

(** The code unit passed last by a non-empty run is in the class. *)
Lemma rev_run_head p (cs sn : jsstring) :
  cs <> [] -> Forall (fun c => p c = true) cs ->
  exists c t, rev cs ++ sn = c :: t /\ p c = true.
Proof.
  intros Hne Hall. destruct (rev cs) as [|c t] eqn:Hr.
  - apply (f_equal (@rev ascii)) in Hr. rewrite rev_involutive in Hr. done.
  - exists c, (t ++ sn). split; [done|].
    rewrite Forall_forall in Hall. apply Hall.
    apply list_elem_of_In, in_rev. rewrite Hr. by left.
Qed.

End RegexFacts.

(** ** The analyzer on a known input *)

(** C5: [analyzeString "racecar"] has length 7, is a palindrome, has 4
    unique characters, 1 word, and the frequency map r:2, a:2, c:2, e:1. *)
Theorem analyze_racecar (sha256 : jsstring -> jsstring) :
  let props := analyzeString sha256 (str "racecar") in
  Properties.length props = 7 /\
  Properties.is_palindrome props = true /\
  Properties.unique_characters props = 4 /\
  Properties.word_count props = 1 /\
  Properties.character_frequency_map props
  = {[ "r"%char := 2; "a"%char := 2; "c"%char := 2; "e"%char := 1 ]}.
Proof. repeat split; vm_compute; reflexivity. Qed.

(** ** The interpreter *)

Module InterpreterFacts.

Lemma starts_with_app (a b s : jsstring) :
  starts_with (a ++ b) s = true -> starts_with a s = true.
Proof.
  revert s. induction a as [|x a IH]; intros s H; [by destruct s|].
  destruct s as [|c s]; [done|]. cbn in *.
  apply andb_true_iff in H as [-> H]. by apply IH.
Qed.

Lemma includes_app (s a b : jsstring) :
  includes s (a ++ b) = true -> includes s a = true.
Proof.
  induction s as [|c s IH]; cbn; intros H.
  - rewrite orb_false_r in *. by apply starts_with_app in H.
  - apply orb_true_iff in H as [H|H]; apply orb_true_iff.
    + left. by apply starts_with_app in H.
    + right. by apply IH.
Qed.

(** The second operand of the palindrome test adds nothing. *)
Lemma includes_palindromic (txt : jsstring) :
  includes txt (str "palindromic") = true ->
  includes txt (str "palindrom") = true.
Proof. apply (includes_app txt (str "palindrom") (str "ic")). Qed.

(** [includes] is the substring test. *)
Lemma starts_with_spec (needle s : jsstring) :
  starts_with needle s = true <-> exists post, s = needle ++ post.
Proof.
  revert s. induction needle as [|a needle IH]; intros s.
  - split; [by exists s|by destruct s].
  - destruct s as [|c s]; cbn.
    + split; [done|by intros (post & ?)].
    + rewrite andb_true_iff, IH. split.
      * intros [Ha (post & ->)]. apply Ascii.eqb_eq in Ha as ->. by exists post.
      * intros (post & [= -> ->]). split; [apply Ascii.eqb_refl|by exists post].
Qed.

Lemma includes_spec (s needle : jsstring) :
  includes s needle = true <-> exists pre post, s = pre ++ needle ++ post.
Proof.
  induction s as [|c s IH]; cbn [includes]; rewrite orb_true_iff, starts_with_spec.
  - split.
    + intros [(post & ->)|]; [|done]. by exists [], post.
    + intros (pre & post & E). left. destruct pre; [by exists post|done].
  - rewrite IH. split.
    + intros [(post & ->)|(pre & post & ->)]; [by exists [], post|].
      by exists (c :: pre), post.
    + intros (pre & post & E). destruct pre as [|c' pre].
      * left. by exists post.
      * right. inversion E; subst. by exists pre, post.
Qed.

(** No key is set exactly when none of the eight tests of the source
    fires: the seven patterns and the token [word_count=1]. *)
Lemma compose_empty_tests (txt : jsstring) :
  Filters.key_count (compose txt) = 0 <->
  includes txt (str "palindrom") = false /\
  re_test re_single_word txt = false /\
  re_test re_1_word txt = false /\
  re_test re_word_count_1 txt = false /\
  re_test re_longer txt = false /\
  re_test re_shorter txt = false /\
  re_test re_length txt = false /\
  re_test re_contains txt = false /\
  includes txt (str "first vowel") = false.
Proof.
  pose proof (includes_palindromic txt) as Hpal.
  unfold compose, step_first_vowel, step_contains, step_length, step_shorter,
    step_longer, step_word_count, step_palindrome, re_test.
  destruct (includes txt (str "palindrom")),
           (includes txt (str "palindromic"));
    try (by discriminate Hpal); clear Hpal;
    destruct (re_match re_single_word txt), (re_match re_1_word txt),
             (re_match re_word_count_1 txt), (re_match re_longer txt),
             (re_match re_shorter txt), (re_match re_length txt),
             (re_match re_contains txt), (includes txt (str "first vowel"));
    cbn; intuition congruence.
Qed.

Lemma re_test_occurs (r : regex) (txt : jsstring) :
  re_test r txt = false <-> ~ occurs r txt.
Proof.
  unfold occurs. rewrite <- RegexFacts.re_test_spec. by destruct (re_test r txt).
Qed.

Lemma includes_contains_text (txt needle : jsstring) :
  includes txt needle = false <-> ~ contains_text txt needle.
Proof.
  unfold contains_text. rewrite <- includes_spec. by destruct (includes txt needle).
Qed.

Lemma compose_empty_iff (txt : jsstring) :
  Filters.key_count (compose txt) = 0 <->
  ~ seven_patterns (occurs re_length) txt /\ ~ occurs re_word_count_1 txt.
Proof.
  rewrite compose_empty_tests, !re_test_occurs, !includes_contains_text.
  unfold seven_patterns. tauto.
Qed.

Lemma parse_nonempty (c : ascii) (q : jsstring) :
  parseNaturalLanguageQuery (c :: q)
  = let parsed := compose (toLowerCase (c :: q)) in
    if (Filters.key_count parsed =? 0)%nat
    then inl (MkError "Unable to parse natural language query" None)
    else if conflicting parsed
    then inl (MkError "Query parsed but resulted in conflicting filters"
                (Some 422%Z))
    else inr parsed.
Proof. reflexivity. Qed.

(** A successful interpretation returns the composed object. *)
Lemma parse_ok (q : jsstring) (f : Filters.t) :
  parseNaturalLanguageQuery q = inr f ->
  f = compose (toLowerCase q) /\ conflicting f = false
  /\ Filters.key_count f <> 0.
Proof.
  destruct q as [|c q]; [done|]. rewrite parse_nonempty. cbv zeta.
  destruct (Nat.eqb_spec (Filters.key_count (compose (toLowerCase (c :: q)))) 0);
    [done|].
  destruct (conflicting _) eqn:Hc; [done|].
  intros [= <-]. done.
Qed.

(** The interpreter fails with the parse failure exactly when it has set no
    key. *)
Lemma unparseable_iff_no_key (q : jsstring) :
  fails_with Unparseable (parseNaturalLanguageQuery q) <->
  Filters.key_count (compose (toLowerCase q)) = 0.
Proof.
  destruct q as [|c q].
  - split; [intros _; by vm_compute|]. intros _. by eexists.
  - rewrite parse_nonempty. cbv zeta.
    destruct (Nat.eqb_spec (Filters.key_count (compose (toLowerCase (c :: q)))) 0)
      as [E|E].
    + split; [done|]. intros _. by eexists.
    + split; [|done]. intros (e & He & Hk).
      destruct (conflicting _); [|done].
      by inversion He; subst.
Qed.

End InterpreterFacts.

(** C8: a phrase that contains "first vowel", in any letter case, is
    interpreted with [contains_character = "a"], whatever the contain
    pattern captured; the README example has the contain pattern match
    as well and yields [is_palindrome = true] and [contains_character = "a"]. *)
Theorem first_vowel_sets_a :
  (forall (q : jsstring) (f : Filters.t),
     contains_text (toLowerCase q) (str "first vowel") ->
     parseNaturalLanguageQuery q = inr f ->
     Filters.contains_character f = Some (str "a")) /\
  occurs re_contains
    (toLowerCase (str "palindromic strings that contain the first vowel")) /\
  parseNaturalLanguageQuery (str "palindromic strings that contain the first vowel")
  = inr (Filters.Make (Some true) None None None (Some (str "a"))).
Proof.
  split; [|split; [|by vm_compute]].
  - intros q f Hv Hf. apply InterpreterFacts.parse_ok in Hf as (-> & _ & _).
    apply InterpreterFacts.includes_spec in Hv.
    unfold compose, step_first_vowel. by rewrite Hv.
  - apply RegexFacts.re_test_spec. by vm_compute.
Qed.

Lemma first_vowel_sets_a_witness :
  contains_text
    (toLowerCase (str "palindromic strings that contain the first vowel"))
    (str "first vowel") /\
  Filters.contains_character
    (Filters.Make (Some true) None None None (Some (str "a")))
  = Some (str "a").
Proof.
  assert (contains_text
            (toLowerCase (str "palindromic strings that contain the first vowel"))
            (str "first vowel")) as Hv.
  { exists (str "palindromic strings that contain the "), []. reflexivity. }
  split; [exact Hv|].
  apply (proj1 first_vowel_sets_a
           (str "palindromic strings that contain the first vowel") _ Hv).
  vm_compute. reflexivity.
Defined.

(** ** The list handlers *)

Module FilterFacts.
Import Double.
Local Open Scope Z_scope.

(** Bounds the wrong way round keep no record: a length is below the
    lower bound or above the upper one. *)
Lemma crossed_bounds_keep_nothing (lo hi : Z) (f : Filters.t)
    (rec : StringRecord) :
  hi < lo <= 2 ^ 52 ->
  Filters.is_palindrome f = None ->
  Filters.min_length f = Some (Int lo) ->
  Filters.max_length f = Some (Int hi) ->
  keeps f rec = false.
Proof.
  intros Hb Hp Hlo Hhi. unfold keeps. rewrite Hp, Hlo, Hhi. cbn.
  destruct (DoubleFacts.of_nat_cases (Properties.length (properties rec)))
    as [->|[->|(z & -> & Hz)]]; cbn.
  - destruct (Z.ltb_spec (Z.of_nat (Properties.length (properties rec))) lo);
      [done|].
    by destruct (Z.ltb_spec hi (Z.of_nat (Properties.length (properties rec))));
      [|lia].
  - done.
  - destruct (Z.ltb_spec z lo); [done|].
    by destruct (Z.ltb_spec hi z); [|lia].
Qed.

Lemma filter_nothing (f : Filters.t) (strings : list StringRecord) :
  (forall rec, keeps f rec = false) -> List.filter (keeps f) strings = [].
Proof.
  intros H. induction strings as [|rec strings IH]; [done|].
  cbn. by rewrite H.
Qed.
End FilterFacts.

(** The interpreter does reject composed bounds that cross, and the
    natural-language handler reports them with status 422. *)
Lemma interpreter_rejects_crossed_bounds
    (decodeURIComponent : jsstring -> option jsstring)
    (q phrase : jsstring) (strings : list StringRecord) :
  q <> [] ->
  decodeURIComponent q = Some phrase ->
  conflicting (compose (toLowerCase phrase)) = true ->
  fails_with ConflictingFilters (parseNaturalLanguageQuery phrase) /\
  filter_by_natural_language decodeURIComponent (Some q) strings
  = Response 422 (ErrorBody "Query parsed but resulted in conflicting filters").
Proof.
  intros Hq Hd Hc.
  assert (parseNaturalLanguageQuery phrase
          = inl (MkError "Query parsed but resulted in conflicting filters"
                   (Some 422%Z))) as Hp.
  { destruct phrase as [|c phrase]; [done|].
    rewrite InterpreterFacts.parse_nonempty. cbv zeta. rewrite Hc.
    destruct (Nat.eqb_spec (Filters.key_count (compose (toLowerCase (c :: phrase)))) 0)
      as [E|E]; [|done].
    exfalso. unfold conflicting in Hc. unfold Filters.key_count in E.
    destruct (Filters.min_length (compose _)); [|done]. cbn in E. lia. }
  split; [by eexists|].
  unfold filter_by_natural_language. destruct q as [|c q]; [done|].
  by rewrite Hd, Hp.
Qed.

(** C1, the structured path at [min_length=10&max_length=5]: the handler
    answers 200 with the crossed bounds as the filters applied and no
    record, where the interpreter would have reported the conflict. *)
Theorem structured_list_applies_crossed_bounds (strings : list StringRecord) :
  get_strings (Query.Make None (Some (str "10")) (Some (str "5")) None None)
    strings
  = Response 200
      (ListBody [] 0 (Filters.Make None (Some (Int 10)) (Some (Int 5)) None None)).
Proof.
  unfold get_strings.
  change (parse_query _)
    with (inr (B := Filters.t) (A := response)
            (Filters.Make None (Some (Int 10)) (Some (Int 5)) None None)).
  cbv beta iota zeta. rewrite FilterFacts.filter_nothing; [done|].
  intros rec. by apply (FilterFacts.crossed_bounds_keep_nothing 10 5).
Qed.

(** C6, the structured path at [min_length=12abc]: [parseInt] reads the
    leading digits, so the token passes the integer check and the handler
    filters with [min_length = 12]. *)
Theorem structured_list_accepts_12abc (strings : list StringRecord) :
  let filters := Filters.Make None (Some (Int 12)) None None None in
  get_strings (Query.Make None (Some (str "12abc")) None None None) strings
  = Response 200
      (ListBody (List.filter (keeps filters) strings)
         (length (List.filter (keeps filters) strings)) filters).
Proof. reflexivity. Qed.

(** ** The record store *)

Module StoreFacts.

Lemma find_by_id_new (ident : jsstring) (strings : list StringRecord)
    (rec : StringRecord) :
  find_by_id ident strings = None -> id rec = ident ->
  find_by_id ident (strings ++ [rec]) = Some rec.
Proof.
  intros Hnone Hid. unfold find_by_id in *.
  induction strings as [|s strings IH]; cbn in *.
  - by rewrite bool_decide_eq_true_2.
  - destruct (bool_decide (id s = ident)); [done|]. by apply IH.
Qed.

(** After [POST /strings] with [v], whatever it answered, the store holds
    a record whose id is the hash of [v]. *)
Lemma post_strings_stores sha256 now (v : jsstring)
    (strings strings' : list StringRecord) (resp : response) :
  post_strings sha256 now v strings = (resp, strings') ->
  is_Some (find_by_id (sha256 v) strings').
Proof.
  unfold post_strings. cbn.
  destruct (find_by_id (sha256 v) strings) as [old|] eqn:Hfind;
    intros [= <- <-].
  - by rewrite Hfind.
  - by rewrite (find_by_id_new _ _ _ Hfind).
Qed.

End StoreFacts.

Module DecodeFacts.
Import URI.

(** A string without "%" decodes to itself. *)
Lemma decode_plain (s : jsstring) : "%"%char ∉ s -> decode s = Decoded s.
Proof.
  induction s as [|c s IH]; [done|].
  intros [Hc Hs]%not_elem_of_cons. cbn.
  destruct (Ascii.eqb_spec c "%") as [->|_]; [done|].
  by rewrite IH.
Qed.

Lemma decodeURIComponent_plain utf8 (s : jsstring) :
  "%"%char ∉ s -> decodeURIComponent utf8 s = Some s.
Proof. intros H. unfold decodeURIComponent. by rewrite decode_plain. Qed.

End DecodeFacts.

(** C7: [GET /strings/:value] decodes the raw value once more before it
    hashes it.  For a value without "%" the second decoding changes nothing:
    when [POST /strings] creates a record for it (status 201), the lookup by
    the same raw value answers 200 with that very record, whose properties are
    the analysis of the value.  A second [POST /strings] with the same value
    answers 409 and leaves the store as it is, whatever the value.  But after
    a create of "100%" the lookup of "100%" answers 500, though the record is
    stored; and the lookup of "%41" is answered as the lookup of "A". *)
Theorem lookup_decodes_the_value_again
    (sha256 : jsstring -> jsstring) (utf8 : jsstring -> option jsstring) :
  let lookup := get_string sha256 (URI.decodeURIComponent utf8) in
  (forall (now v : jsstring) (strings strings' : list StringRecord)
          (created : response),
     "%"%char ∉ v ->
     post_strings sha256 now v strings = (created, strings') ->
     status created = 201%Z ->
     exists rec,
       json created = RecordBody rec /\
       value rec = v /\
       properties rec = analyzeString sha256 v /\
       lookup v strings' = Response 200 (RecordBody rec)) /\
  (forall (now later v : jsstring) (strings : list StringRecord),
     let strings' := snd (post_strings sha256 now v strings) in
     post_strings sha256 later v strings'
     = (Response 409 (ErrorBody "String already exists in the system"), strings')) /\
  (forall (now : jsstring) (strings : list StringRecord),
     let strings' := snd (post_strings sha256 now (str "100%") strings) in
     is_Some (find_by_id (sha256 (str "100%")) strings') /\
     lookup (str "100%") strings'
     = Response 500 (ErrorBody "Internal server error")) /\
  (forall strings : list StringRecord,
     lookup (str "%41") strings = lookup (str "A") strings).
Proof.
  cbv zeta. split_and!.
  - intros now v strings strings' created Hv Hpost Hstatus.
    unfold post_strings in Hpost. cbn in Hpost.
    destruct (find_by_id (sha256 v) strings) as [old|] eqn:Hfind;
      inversion Hpost; subst; [done|].
    eexists. split; [done|]. split; [done|]. split; [done|].
    unfold get_string. rewrite (DecodeFacts.decodeURIComponent_plain utf8 v Hv).
    by rewrite (StoreFacts.find_by_id_new _ _ _ Hfind).
  - intros now later v strings.
    destruct (post_strings sha256 now v strings) as [created strings'] eqn:Hpost.
    pose proof (StoreFacts.post_strings_stores _ _ _ _ _ _ Hpost) as [stored Hs].
    unfold post_strings. cbn. unfold find_by_id in Hs. by rewrite Hs.
  - intros now strings.
    destruct (post_strings sha256 now (str "100%") strings)
      as [created strings'] eqn:Hpost.
    split; [by apply (StoreFacts.post_strings_stores _ _ _ _ _ _ Hpost)|done].
  - done.
Qed.

Lemma lookup_decodes_the_value_again_witness :
  let sha256 := fun s : jsstring => str "sha256:" ++ s in
  let rec :=
    MkRecord (sha256 (str "racecar")) (str "racecar")
      (analyzeString sha256 (str "racecar")) (str "2025-10-21T12:00:00.000Z") in
  exists rec',
    RecordBody rec = RecordBody rec' /\
    value rec' = str "racecar" /\
    properties rec' = analyzeString sha256 (str "racecar") /\
    get_string sha256 (URI.decodeURIComponent (fun _ => None)) (str "racecar") [rec]
    = Response 200 (RecordBody rec').
Proof.
  intros sha256 rec.
  apply (proj1 (lookup_decodes_the_value_again sha256 (fun _ => None))
           (str "2025-10-21T12:00:00.000Z") (str "racecar") [] [rec]
           (Response 201 (RecordBody rec))).
  - by apply (bool_decide_unpack _).
  - reflexivity.
  - reflexivity.
Defined.

(** ** Word count *)

Module SplitFacts.

Lemma take_drop_while p (s : jsstring) : s = take_while p s ++ drop_while p s.
Proof.
  induction s as [|c s IH]; [done|]. cbn. destruct (p c); [|done].
  cbn. by rewrite <- IH.
Qed.

Lemma take_while_all p (s : jsstring) : Forall (fun c => p c = true) (take_while p s).
Proof.
  induction s as [|c s IH]; cbn; [done|].
  destruct (p c) eqn:Hp; [by constructor|done].
Qed.

Lemma drop_while_head p (s t : jsstring) (d : ascii) :
  drop_while p s = d :: t -> p d = false.
Proof.
  induction s as [|c s IH]; cbn; [done|].
  destruct (p c) eqn:Hp; [done|]. by intros [= <- <-].
Qed.

Lemma drop_while_length p (s : jsstring) : length (drop_while p s) <= length s.
Proof.
  induction s as [|c s IH]; cbn; [done|]. destruct (p c); cbn; lia.
Qed.

(** [/\s+/] tried at one position: it needs a whitespace there and takes the
    whole run. *)
Lemma rmatch_spaces (sn rs : jsstring) (cp : gmap nat jsstring) :
  rmatch re_spaces (MState sn rs cp) Some
  = match rs with
    | c :: rs' =>
        if is_space c
        then Some (MState (rev (take_while is_space rs') ++ c :: sn)
                     (drop_while is_space rs') cp)
        else None
    | [] => None
    end.
Proof.
  destruct rs as [|c rs]; [done|]. cbn. destruct (is_space c); [|done].
  by rewrite RegexFacts.star_class_greedy.
Qed.

(** The fuel of [split] is enough for every regular expression: more fuel
    gives the same pieces. *)
Lemma rmatch_progress r (sn rs : jsstring) cp (st : mstate) :
  rmatch r (MState sn rs cp) Some = Some st ->
  exists cs, rs = cs ++ rest st /\ seen st = rev cs ++ sn.
Proof.
  intros H. apply RegexFacts.rmatch_sound in H as (st' & Hm & [= ->]).
  by apply RegexFacts.matches_extends in Hm.
Qed.

Lemma split_loop_fuel r (fuel : nat) (piece sn rs : jsstring) :
  2 * length rs + (if piece is [] then 0 else 1) < fuel ->
  split_loop (S fuel) r piece sn rs = split_loop fuel r piece sn rs.
Proof.
  revert piece sn rs. induction fuel as [|fuel IH]; intros piece sn rs Hf; [lia|].
  destruct rs as [|c rs]; [done|].
  change (split_loop (S (S fuel)) r piece sn (c :: rs))
    with (match rmatch r (MState sn (c :: rs) ∅) Some with
          | None => split_loop (S fuel) r (c :: piece) (c :: sn) rs
          | Some st =>
              if (length (seen st) =? length sn) && (length piece =? 0)
              then split_loop (S fuel) r (c :: piece) (c :: sn) rs
              else rev piece :: split_loop (S fuel) r [] (seen st) (rest st)
          end).
  change (split_loop (S fuel) r piece sn (c :: rs))
    with (match rmatch r (MState sn (c :: rs) ∅) Some with
          | None => split_loop fuel r (c :: piece) (c :: sn) rs
          | Some st =>
              if (length (seen st) =? length sn) && (length piece =? 0)
              then split_loop fuel r (c :: piece) (c :: sn) rs
              else rev piece :: split_loop fuel r [] (seen st) (rest st)
          end).
  cbn [length] in Hf.
  assert (split_loop (S fuel) r (c :: piece) (c :: sn) rs
          = split_loop fuel r (c :: piece) (c :: sn) rs) as Hnext
    by (apply IH; destruct piece; lia).
  destruct (rmatch r (MState sn (c :: rs) ∅) Some) as [st|] eqn:Hm; [|done].
  destruct ((length (seen st) =? length sn) && (length piece =? 0)) eqn:Hc;
    [done|].
  f_equal. apply IH.
  apply rmatch_progress in Hm as (cs & Hrs & Hsn).
  apply (f_equal (@length ascii)) in Hrs, Hsn.
  rewrite length_app in Hrs, Hsn. rewrite length_rev in Hsn. cbn [length] in Hrs.
  apply andb_false_iff in Hc as [Hc|Hc].
  - apply Nat.eqb_neq in Hc. lia.
  - apply Nat.eqb_neq in Hc. destruct piece; [done|]. lia.
Qed.

Lemma split_fuel_enough r (s : jsstring) (extra : nat) :
  split_loop (extra + (2 * length s + 1)) r [] [] s
  = split_loop (2 * length s + 1) r [] [] s.
Proof.
  induction extra as [|extra IH]; [done|].
  cbn [Nat.add]. rewrite split_loop_fuel; [done|lia].
Qed.

Lemma ends_in_space_tail (c : ascii) (s : jsstring) :
  ends_in_space (c :: s) = false -> ends_in_space s = false.
Proof.
  destruct s as [|d s]; [done|]. unfold ends_in_space.
  by rewrite last_cons_cons.
Qed.

Lemma ends_in_space_drop p (s : jsstring) :
  ends_in_space s = false -> ends_in_space (drop_while p s) = false.
Proof.
  induction s as [|c s IH]; cbn; [done|]. intros H.
  destruct (p c); [|done]. apply IH. by apply ends_in_space_tail in H.
Qed.

Lemma drop_spaces_nonempty (c : ascii) (s : jsstring) :
  is_space c = true -> ends_in_space (c :: s) = false ->
  drop_while is_space s <> [].
Proof.
  revert c. induction s as [|d s IH]; intros c Hc He.
  - unfold ends_in_space in He. cbn in He. congruence.
  - cbn. destruct (is_space d) eqn:Hd; [|done].
    apply (IH d Hd). by apply ends_in_space_tail in He.
Qed.

(** Whitespace that follows a whitespace starts no run. *)
Lemma runs_drop_spaces (s : jsstring) :
  runs_from true (drop_while is_space s) = runs_from true s.
Proof.
  induction s as [|c s IH]; [done|]. cbn.
  destruct (is_space c) eqn:Hc; [done|]. cbn. by rewrite Hc.
Qed.

Lemma runs_of_spaces (b : bool) (sp : jsstring) :
  Forall (fun c => is_space c = true) sp -> runs_from b sp = 0.
Proof.
  intros H. revert b. induction H as [|c sp Hc _ IH]; intros b; [done|].
  cbn. rewrite Hc, IH. by destruct b.
Qed.

Lemma runs_app_spaces (b : bool) (s sp : jsstring) :
  Forall (fun c => is_space c = true) sp ->
  runs_from b (s ++ sp) = runs_from b s.
Proof.
  intros H. revert b. induction s as [|c s IH]; intros b; cbn.
  - by apply runs_of_spaces.
  - by rewrite IH.
Qed.

(** The pieces [split] makes of the rest of a string that does not end in
    whitespace, from inside a word: the word at hand and one per run that
    starts later. *)
Lemma split_loop_spaces (fuel : nat) (piece sn rs : jsstring) :
  length rs < fuel -> ends_in_space rs = false ->
  length (split_loop fuel re_spaces piece sn rs) = 1 + runs_from false rs.
Proof.
  revert piece sn rs. induction fuel as [|fuel IH]; intros piece sn rs Hf He;
    [lia|].
  destruct rs as [|c rs]; [done|].
  cbn [split_loop]. rewrite rmatch_spaces.
  cbn [runs_from]. destruct (is_space c) eqn:Hc; cbn [andb negb Nat.add].
  - cbn [seen rest]. rewrite length_app. cbn [length].
    replace (length (rev (take_while is_space rs)) + S (length sn) =? length sn)
      with false by (symmetry; apply Nat.eqb_neq; lia).
    cbn [andb length]. rewrite IH.
    + pose proof (drop_spaces_nonempty c rs Hc He) as Hne.
      rewrite <- (runs_drop_spaces rs).
      destruct (drop_while is_space rs) as [|d t] eqn:Hd; [done|].
      apply drop_while_head in Hd. cbn. by rewrite Hd.
    + pose proof (drop_while_length is_space rs). cbn in Hf. lia.
    + apply ends_in_space_drop. by apply ends_in_space_tail in He.
  - rewrite IH; [done| cbn in Hf; lia |by apply ends_in_space_tail in He].
Qed.

(** What [trim_end] removes is whitespace, and what it leaves does not end
    in whitespace. *)
Lemma trim_end_split (s : jsstring) :
  exists sp, s = trim_end s ++ sp /\ Forall (fun c => is_space c = true) sp.
Proof.
  exists (rev (take_while is_space (rev s))). split.
  - unfold trim_end, trim_start. rewrite <- rev_app_distr.
    by rewrite <- take_drop_while, rev_involutive.
  - apply Forall_forall. intros c Hc. apply list_elem_of_In, in_rev in Hc.
    pose proof (take_while_all is_space (rev s)) as Hall.
    rewrite Forall_forall in Hall. by apply Hall, list_elem_of_In.
Qed.

Lemma trim_end_clean (s : jsstring) : ends_in_space (trim_end s) = false.
Proof.
  unfold trim_end, trim_start, ends_in_space.
  destruct (drop_while is_space (rev s)) as [|d t] eqn:Hd; [done|].
  cbn. rewrite last_snoc. by apply drop_while_head in Hd.
Qed.

Lemma trim_head (s t : jsstring) (d : ascii) :
  trim s = d :: t -> is_space d = false.
Proof.
  unfold trim. intros Ht.
  destruct (trim_end_split (trim_start s)) as (sp & Hs & _).
  rewrite Ht in Hs. by apply (drop_while_head is_space s (t ++ sp) d).
Qed.

Lemma runs_trim (s : jsstring) :
  non_whitespace_runs (trim s) = non_whitespace_runs s.
Proof.
  unfold non_whitespace_runs, trim.
  destruct (trim_end_split (trim_start s)) as (sp & Hs & Hsp).
  rewrite <- (runs_drop_spaces s). fold (trim_start s).
  rewrite Hs at 2. by rewrite runs_app_spaces.
Qed.

Lemma trim_of_spaces (s : jsstring) :
  Forall (fun c => is_space c = true) s -> trim s = [].
Proof.
  intros H. unfold trim.
  assert (trim_start s = []) as ->; [|done].
  unfold trim_start. induction H as [|c s Hc _ IH]; [done|]. cbn. by rewrite Hc.
Qed.

(** The count of runs is the count of words of a text written as words
    with whitespace between and around them. *)
Lemma runs_skip_word (w s : jsstring) :
  Forall (fun c => is_space c = false) w ->
  runs_from false (w ++ s) = runs_from false s.
Proof. induction 1 as [|c w Hc _ IH]; [done|]. cbn. by rewrite Hc. Qed.

Lemma runs_start_word (w s : jsstring) :
  is_word w -> runs_from true (w ++ s) = 1 + runs_from false s.
Proof.
  intros [Hne Hall]. destruct Hall as [|c w Hc Hall]; [done|].
  cbn. rewrite Hc. cbn. by rewrite runs_skip_word.
Qed.

Lemma runs_skip_gap (b : bool) (gap s : jsstring) :
  gap <> [] -> Forall (fun c => is_space c = true) gap ->
  runs_from b (gap ++ s) = runs_from true s.
Proof.
  intros Hne Hall. revert b. induction Hall as [|c gap Hc Hall IH]; [done|].
  intros b. cbn. rewrite Hc, andb_false_r. cbn.
  destruct gap as [|d gap]; [done|]. by apply IH.
Qed.

Lemma runs_skip_lead (lead s : jsstring) :
  Forall (fun c => is_space c = true) lead ->
  runs_from true (lead ++ s) = runs_from true s.
Proof. induction 1 as [|c lead Hc _ IH]; [done|]. cbn. by rewrite Hc. Qed.

Lemma runs_of_joined_words (lead gap trail : jsstring) (words : list jsstring) :
  Forall (fun c => is_space c = true) lead ->
  gap <> [] -> Forall (fun c => is_space c = true) gap ->
  Forall (fun c => is_space c = true) trail ->
  Forall is_word words ->
  non_whitespace_runs (lead ++ join_words gap words ++ trail) = length words.
Proof.
  intros Hlead Hne Hgap Htrail Hwords. unfold non_whitespace_runs.
  rewrite runs_skip_lead by done.
  induction Hwords as [|w ws Hw Hws IH].
  - by apply runs_of_spaces.
  - cbn [join_words]. destruct ws as [|w2 ws].
    + rewrite runs_start_word by done. by rewrite runs_of_spaces.
    + rewrite <- !app_assoc, runs_start_word by done.
      rewrite (runs_skip_gap false) by done. rewrite IH. done.
Qed.

Lemma count_words_runs (v : jsstring) :
  count_words v = non_whitespace_runs (trim v).
Proof.
  unfold count_words. case_bool_decide as Ht; [by rewrite Ht|].
  destruct (trim v) as [|d t] eqn:Hd; [done|].
  pose proof (trim_head _ _ _ Hd) as Hspace.
  pose proof (trim_end_clean (trim_start v)) as Hclean.
  fold (trim v) in Hclean. rewrite Hd in Hclean.
  unfold split. rewrite split_loop_spaces; [|cbn; lia|done].
  unfold non_whitespace_runs. cbn. by rewrite Hspace.
Qed.

End SplitFacts.

(** C9: the word count of [analyzeString] is the number of maximal runs of
    non-whitespace code units of the trimmed string, which is that of the
    string itself, and it is 0 for a string that is empty or all
    whitespace. *)
Theorem word_count_counts_runs (sha256 : jsstring -> jsstring) (v : jsstring) :
  Properties.word_count (analyzeString sha256 v) = non_whitespace_runs (trim v) /\
  non_whitespace_runs (trim v) = non_whitespace_runs v /\
  (Forall (fun c => is_space c = true) v ->
   Properties.word_count (analyzeString sha256 v) = 0).
Proof.
  cbn [analyzeString Properties.word_count].
  rewrite SplitFacts.count_words_runs.
  split; [done|]. split; [apply SplitFacts.runs_trim|].
  intros H. by rewrite (SplitFacts.trim_of_spaces v H).
Qed.

Lemma word_count_counts_runs_witness :
  Forall (fun c => is_space c = true) (str "   ") /\
  Properties.word_count (analyzeString (fun s => s) (str "   ")) = 0.
Proof.
  assert (Forall (fun c => is_space c = true) (str "   ")) as Hspaces
    by (repeat constructor).
  split; [exact Hspaces|].
  exact (proj2 (proj2 (word_count_counts_runs (fun s => s) (str "   "))) Hspaces).
Defined.

(** ** The patterns that read a number *)

Module NumberFacts.
Import Double.

Lemma digit_not_space (c : ascii) : is_digit c = true -> is_space c = false.
Proof.
  unfold is_digit, is_space, in_range.
  destruct (N.leb_spec 48 (code c)), (N.leb_spec (code c) 57); try done.
  intros _.
  destruct (N.leb_spec 9 (code c)), (N.leb_spec (code c) 13),
    (N.eqb_spec (code c) 32), (N.eqb_spec (code c) 160); cbn; try done; lia.
Qed.

Lemma digit_is_word (c : ascii) : is_digit c = true -> is_word_char c = true.
Proof.
  unfold is_word_char. intros ->. by rewrite orb_true_r.
Qed.

Lemma take_while_id p (s : jsstring) :
  Forall (fun c => p c = true) s -> take_while p s = s.
Proof. induction 1 as [|c s Hc _ IH]; [done|]. cbn. by rewrite Hc, IH. Qed.

Lemma digit_value_range (c : ascii) :
  is_digit c = true -> (0 <= digit_value c <= 9)%Z.
Proof.
  unfold is_digit, in_range, digit_value.
  destruct (N.leb_spec 48 (code c)), (N.leb_spec (code c) 57); try done. lia.
Qed.

Lemma digits_value_nonneg (ds : jsstring) :
  Forall (fun c => is_digit c = true) ds -> (0 <= digits_value ds)%Z.
Proof.
  intros H. unfold digits_value.
  assert (forall acc, (0 <= acc)%Z ->
          (0 <= foldl (fun acc c => acc * 10 + digit_value c) acc ds)%Z) as Hacc.
  { induction H as [|c ds Hc _ IH]; intros acc Hacc; cbn; [done|].
    apply IH. pose proof (digit_value_range c Hc). lia. }
  by apply Hacc.
Qed.

(** [parseInt] of a run of digits is the number the digits write, as a
    double. *)
Lemma parseInt10_digits (ds : jsstring) :
  all_digits ds -> parseInt10 ds = of_Z (digits_value ds).
Proof.
  intros [Hne Hall]. destruct ds as [|c ds]; [done|].
  pose proof (Forall_inv Hall) as Hc. cbn beta in Hc.
  unfold parseInt10, trim_start. cbn [drop_while].
  rewrite (digit_not_space c Hc).
  destruct (Ascii.eqb_spec c "-") as [->|_]; [by vm_compute in Hc|].
  destruct (Ascii.eqb_spec c "+") as [->|_]; [by vm_compute in Hc|].
  by rewrite (take_while_id _ _ Hall).
Qed.

Lemma parseInt10_safe (ds : jsstring) :
  all_digits ds -> (digits_value ds <= MAX_SAFE_INTEGER)%Z ->
  parseInt10 ds = Int (digits_value ds).
Proof.
  intros Hd Hs. rewrite parseInt10_digits by done.
  apply DoubleFacts.of_Z_safe. split; [|done].
  apply digits_value_nonneg, Hd.
Qed.

Lemma head_is_digit_drop (s : jsstring) :
  head_is_digit (drop_while is_digit s) = false.
Proof.
  destruct (drop_while is_digit s) as [|d t] eqn:Hd; [done|].
  by apply SplitFacts.drop_while_head in Hd.
Qed.

(** A run of digits that no digit follows is what [take_while] takes. *)
Lemma take_while_run (ds post : jsstring) :
  Forall (fun c => is_digit c = true) ds -> head_is_digit post = false ->
  take_while is_digit (ds ++ post) = ds.
Proof.
  intros Hall Hpost. induction Hall as [|c ds Hc _ IH]; cbn.
  - destruct post as [|d post]; [done|]. cbn in *. by rewrite Hpost.
  - by rewrite Hc, IH.
Qed.

Lemma run_unique (ds ds' post post' : jsstring) :
  Forall (fun c => is_digit c = true) ds -> head_is_digit post = false ->
  Forall (fun c => is_digit c = true) ds' -> head_is_digit post' = false ->
  ds ++ post = ds' ++ post' -> ds = ds'.
Proof.
  intros H1 H2 H3 H4 E.
  rewrite <- (take_while_run ds post H1 H2), <- (take_while_run ds' post' H3 H4).
  by rewrite E.
Qed.

(** [parseInt] stops at the first code unit that is not a digit and ignores
    the rest, so the integer check of the structured handler lets every
    token through that starts with digits. *)
Lemma parseInt10_leading_digits (ds rest : jsstring) :
  all_digits ds -> head_is_digit rest = false ->
  parseInt10 (ds ++ rest) = of_Z (digits_value ds).
Proof.
  intros [Hne Hall] Hrest. destruct ds as [|c ds]; [done|].
  pose proof (Forall_inv Hall) as Hc. cbn beta in Hc.
  unfold parseInt10, trim_start. cbn [app drop_while].
  rewrite (digit_not_space c Hc).
  destruct (Ascii.eqb_spec c "-") as [->|_]; [by vm_compute in Hc|].
  destruct (Ascii.eqb_spec c "+") as [->|_]; [by vm_compute in Hc|].
  change (c :: ds ++ rest) with ((c :: ds) ++ rest).
  by rewrite (take_while_run _ _ Hall Hrest).
Qed.

Lemma integer_check_passes_leading_digits (ds rest : jsstring)
    (complaint : string) (set : Number -> Filters.t -> Filters.t)
    (filters : Filters.t) :
  all_digits ds -> head_is_digit rest = false ->
  parse_integer (Some (ds ++ rest)) complaint set filters
  = inr (set (of_Z (digits_value ds)) filters).
Proof.
  intros Hd Hrest. unfold parse_integer.
  rewrite parseInt10_leading_digits by done.
  unfold of_Z. by destruct (_ <=? _)%Z.
Qed.

(** [/lit(\d+)/] tried at one position. *)
Lemma literal_number_at (lit sn rs : jsstring) (cp : gmap nat jsstring) :
  rmatch (Seq (Lit lit) (Group 1 (PlusClass is_digit))) (MState sn rs cp) Some
  = match lit_match lit sn rs with
    | Some (sn', d :: rs') =>
        if is_digit d
        then Some (MState (rev (take_while is_digit rs') ++ d :: sn')
                     (drop_while is_digit rs')
                     (<[1 := d :: take_while is_digit rs']> cp))
        else None
    | _ => None
    end.
Proof.
  cbn [rmatch seen rest caps].
  destruct (lit_match lit sn rs) as [[sn' [|d rs']]|]; [done| |done].
  cbn [rmatch seen rest caps]. destruct (is_digit d); [|done].
  rewrite RegexFacts.star_class_greedy by (intros ?; by eexists).
  unfold set_cap. cbn [seen rest caps]. do 3 f_equal.
  apply RegexFacts.consumed_extends. cbn [seen rev]. by rewrite <- app_assoc.
Qed.

Lemma literal_number_sound (lit before after : jsstring) (st : mstate) :
  rmatch (Seq (Lit lit) (Group 1 (PlusClass is_digit)))
    (MState (rev before) after ∅) Some = Some st ->
  number_after lit before after (default [] (caps st !! 1)).
Proof.
  rewrite literal_number_at.
  destruct (lit_match lit (rev before) after) as [[sn' [|d rs']]|] eqn:Hl;
    [done| |done].
  destruct (is_digit d) eqn:Hd; [|done]. intros [= <-].
  apply RegexFacts.lit_match_inv in Hl as [-> ->].
  cbn [caps]. rewrite lookup_insert_eq. cbn [default].
  exists (drop_while is_digit rs'). split_and!.
  - cbn. by rewrite <- SplitFacts.take_drop_while.
  - split; [done|]. constructor; [done|apply SplitFacts.take_while_all].
  - apply head_is_digit_drop.
Qed.

Lemma literal_number_complete (lit before after ds : jsstring) :
  number_after lit before after ds ->
  is_Some (rmatch (Seq (Lit lit) (Group 1 (PlusClass is_digit)))
             (MState (rev before) after ∅) Some).
Proof.
  intros (post & -> & [Hne Hall] & Hpost).
  rewrite literal_number_at, RegexFacts.lit_match_app.
  destruct Hall as [|d ds Hd Hall]; [done|]. cbn. by rewrite Hd.
Qed.

Lemma number_after_fun (lit before after ds ds' : jsstring) :
  number_after lit before after ds -> number_after lit before after ds' ->
  ds = ds'.
Proof.
  intros (post & -> & [_ Hall] & Hpost) (post' & E & [_ Hall'] & Hpost').
  apply app_inv_head in E. by apply (run_unique ds ds' post post').
Qed.

End NumberFacts.

(** ** The length and contain patterns *)

Module ShapeFacts.

(** [/\b(length|long) (\d+)\b/] tried at one position: what it matches is
    the word, a space and a whole run of digits between word boundaries. *)
Lemma length_sound (before after : jsstring) (st : mstate) :
  rmatch re_length (MState (rev before) after ∅) Some = Some st ->
  length_written before after (default [] (caps st !! 2)).
Proof.
  intros Hm. apply RegexFacts.rmatch_sound in Hm as (st' & Hm & [= ->]).
  unfold re_length in Hm.
  apply RegexFacts.matches_seq_inv in Hm as (s1 & Hb0 & Hm).
  apply RegexFacts.matches_boundary_inv in Hb0 as [-> Hb0].
  apply RegexFacts.matches_seq_inv in Hm as (s2 & Hw & Hm).
  apply RegexFacts.matches_seq_inv in Hm as (s3 & Hsp & Hm).
  apply RegexFacts.matches_seq_inv in Hm as (s4 & Hd & Hb).
  apply RegexFacts.matches_boundary_inv in Hb as [-> Hb].
  apply RegexFacts.matches_group_inv in Hw
    as (s2' & w & Hw & Hw1 & Hw2 & Hw3 & Hw4 & Hw5).
  apply RegexFacts.matches_lit_inv in Hsp as (Hsp1 & Hsp2 & Hsp3).
  apply RegexFacts.matches_group_inv in Hd
    as (s4' & ds & Hd & Hd1 & Hd2 & Hd3 & Hd4 & Hd5).
  apply RegexFacts.matches_plus_inv in Hd as (ds' & Hne & Hall & Hd6 & Hd7 & Hd8).
  assert (ds' = ds) as -> by (apply (app_inv_tail (rest s4')); congruence).
  cbn [seen rest caps] in *.
  assert (w = str "length" \/ w = str "long") as Hword.
  { apply RegexFacts.matches_alt_inv in Hw as [Hw|Hw];
      apply RegexFacts.matches_lit_inv in Hw as (Hw & _ & _); cbn [rest] in Hw;
      [left|right]; apply (app_inv_tail (rest s2')); congruence. }
  assert (head_is_word (rest s4') = false) as Hpost.
  { destruct (RegexFacts.rev_run_head is_digit ds (seen s3) Hne Hall)
      as (c & t & Hrev & Hc).
    unfold at_word_boundary in Hb. rewrite Hd3, Hd2, Hrev, Hd4 in Hb.
    cbn [head_is_word] in Hb. rewrite (NumberFacts.digit_is_word c Hc) in Hb.
    by destruct (head_is_word (rest s4')). }
  assert (head_is_word (rev before) = false) as Hpre.
  { unfold at_word_boundary in Hb0. cbn [seen rest] in Hb0. rewrite Hw1 in Hb0.
    destruct Hword as [-> | ->]; cbn in Hb0;
      by destruct (head_is_word (rev before)). }
  rewrite Hd5, lookup_insert_eq. cbn [default].
  split; [done|]. exists w, (rest s4'). split_and!; try done.
  by rewrite Hw1, <- Hw4, Hsp1, Hd1.
Qed.

Lemma length_complete (before after ds : jsstring) :
  length_written before after ds ->
  is_Some (rmatch re_length (MState (rev before) after ∅) Some).
Proof.
  intros (Hpre & w & post & Hw & -> & [Hne Hall] & Hpost).
  unfold re_length.
  destruct Hw as [-> | ->].
  all: eapply RegexFacts.rmatch_complete; [|done].
  all: eapply M_Seq;
    [apply M_Boundary; unfold at_word_boundary; cbn [seen rest]; by rewrite Hpre|].
  all: eapply M_Seq; [apply M_Group; first [apply M_AltL, M_Lit|apply M_AltR, M_Lit]|].
  all: eapply M_Seq; [apply M_Lit|].
  all: eapply M_Seq; [apply M_Group, M_Plus; done|].
  all: apply M_Boundary; unfold at_word_boundary; cbn [seen rest set_cap].
  all: match goal with
       | |- context [rev ?run ++ ?sn] =>
           destruct (RegexFacts.rev_run_head is_digit run sn Hne Hall)
             as (c & t & -> & Hc)
       end.
  all: cbn [head_is_word]; by rewrite (NumberFacts.digit_is_word c Hc), Hpost.
Qed.

Lemma word_not_digit (s : jsstring) :
  head_is_word s = false -> head_is_digit s = false.
Proof.
  destruct s as [|c s]; [done|]. cbn. intros Hw.
  destruct (is_digit c) eqn:Hd; [|done].
  by rewrite (NumberFacts.digit_is_word c Hd) in Hw.
Qed.

Lemma length_written_fun (before after ds ds' : jsstring) :
  length_written before after ds -> length_written before after ds' ->
  ds = ds'.
Proof.
  intros (_ & w & post & Hw & -> & [_ Hall] & Hpost)
         (_ & w' & post' & Hw' & E & [_ Hall'] & Hpost').
  apply word_not_digit in Hpost, Hpost'.
  destruct Hw as [-> | ->], Hw' as [-> | ->].
  - do 2 apply app_inv_head in E.
    by apply (NumberFacts.run_unique ds ds' post post').
  - by vm_compute in E.
  - by vm_compute in E.
  - do 2 apply app_inv_head in E.
    by apply (NumberFacts.run_unique ds ds' post post').
Qed.


End ShapeFacts.

(** ** Numbers written in the phrase and numbers read by the matcher *)

Module WrittenFacts.

(** A pattern whose group [g] holds digits, described position by position
    by [written]: [re_match] finds exactly the first number written. *)
Section FirstWritten.

Variable r : regex.
Variable g : nat.
Variable written : jsstring -> jsstring -> jsstring -> Prop.

Hypothesis group_not_whole : g <> 0.

Hypothesis at_sound : forall before after st,
  rmatch r (MState (rev before) after ∅) Some = Some st ->
  written before after (default [] (caps st !! g)).

Hypothesis at_complete : forall before after ds,
  written before after ds ->
  is_Some (rmatch r (MState (rev before) after ∅) Some).

Hypothesis written_fun : forall before after ds ds',
  written before after ds -> written before after ds' -> ds = ds'.

Lemma read_is_first_written (txt : jsstring) (m : match_result) :
  re_match r txt = Some m -> first_written written txt (group m g).
Proof.
  intros H. apply RegexFacts.re_match_sound in H
    as (pre & post & st & -> & _ & Hm & Hg & Hleft).
  exists pre, post. split; [done|]. split.
  - unfold group. rewrite Hg, lookup_insert_ne by done. by apply at_sound.
  - intros a b ds' Hab Hb Hw. apply at_complete in Hw as [st' Hst'].
    by rewrite (Hleft a b Hab Hb) in Hst'.
Qed.

Lemma first_written_is_read (txt ds : jsstring) :
  first_written written txt ds ->
  exists m, re_match r txt = Some m /\ group m g = ds.
Proof.
  intros (before & after & -> & Hw & Hfirst).
  destruct (at_complete _ _ _ Hw) as [st Hst].
  eexists. split.
  - apply (RegexFacts.re_match_first r before after st); [|done].
    intros a b Hab Hb.
    destruct (rmatch r (MState (rev a) (b ++ after) ∅) Some) as [st'|] eqn:Hst';
      [|done].
    apply at_sound in Hst'. by destruct (Hfirst a b _ Hab Hb Hst').
  - unfold group. cbn [groups]. rewrite lookup_insert_ne by done.
    apply at_sound in Hst. by apply (written_fun before after).
Qed.

End FirstWritten.

(** The three numeric patterns of the interpreter. *)
Lemma longer_first_written (txt ds : jsstring) :
  first_written longer_written txt ds <->
  exists m, re_match re_longer txt = Some m /\ group m 1 = ds.
Proof.
  split.
  - apply (first_written_is_read re_longer 1 longer_written); [done|..].
    + apply NumberFacts.literal_number_sound.
    + apply NumberFacts.literal_number_complete.
    + apply NumberFacts.number_after_fun.
  - intros (m & Hm & <-).
    apply (read_is_first_written re_longer 1 longer_written); [done|..|done].
    + apply NumberFacts.literal_number_sound.
    + apply NumberFacts.literal_number_complete.
Qed.

Lemma shorter_first_written (txt ds : jsstring) :
  first_written shorter_written txt ds <->
  exists m, re_match re_shorter txt = Some m /\ group m 1 = ds.
Proof.
  split.
  - apply (first_written_is_read re_shorter 1 shorter_written); [done|..].
    + apply NumberFacts.literal_number_sound.
    + apply NumberFacts.literal_number_complete.
    + apply NumberFacts.number_after_fun.
  - intros (m & Hm & <-).
    apply (read_is_first_written re_shorter 1 shorter_written); [done|..|done].
    + apply NumberFacts.literal_number_sound.
    + apply NumberFacts.literal_number_complete.
Qed.

Lemma length_first_written (txt ds : jsstring) :
  first_written length_written txt ds <->
  exists m, re_match re_length txt = Some m /\ group m 2 = ds.
Proof.
  split.
  - apply (first_written_is_read re_length 2 length_written); [done|..].
    + apply ShapeFacts.length_sound.
    + apply ShapeFacts.length_complete.
    + apply ShapeFacts.length_written_fun.
  - intros (m & Hm & <-).
    apply (read_is_first_written re_length 2 length_written); [done|..|done].
    + apply ShapeFacts.length_sound.
    + apply ShapeFacts.length_complete.
Qed.

Lemma length_not_written (txt : jsstring) :
  (forall ds, ~ first_written length_written txt ds) <->
  re_match re_length txt = None.
Proof.
  split.
  - intros Hnot. destruct (re_match re_length txt) as [m|] eqn:Hm; [|done].
    destruct (Hnot (group m 2)). apply length_first_written. by exists m.
  - intros Hnone ds Hw. apply length_first_written in Hw as (m & Hm & _).
    by rewrite Hnone in Hm.
Qed.

(** A number that is written is a run of digits. *)
Lemma first_written_digits written (txt ds : jsstring) :
  (forall before after ds, written before after ds -> all_digits ds) ->
  first_written written txt ds -> all_digits ds.
Proof. intros Hd (before & after & _ & Hw & _). by apply (Hd before after). Qed.

Lemma number_after_digits (lit before after ds : jsstring) :
  number_after lit before after ds -> all_digits ds.
Proof. by intros (post & _ & Hd & _). Qed.

Lemma length_written_digits (before after ds : jsstring) :
  length_written before after ds -> all_digits ds.
Proof. by intros (_ & w & post & _ & _ & Hd & _). Qed.

End WrittenFacts.

(** ** What the interpreter returns *)

Module ComposeFacts.
Import Double.

(** The bounds of the composed object: the length pattern is applied after
    the other two and has the last word. *)
Lemma compose_min_length (txt : jsstring) :
  Filters.min_length (compose txt)
  = match re_match re_length txt with
    | Some lenMatch => Some (parseInt10 (group lenMatch 2))
    | None =>
        match re_match re_longer txt with
        | Some longerMatch => Some (add (parseInt10 (group longerMatch 1)) (Int 1))
        | None => None
        end
    end.
Proof.
  unfold compose, step_first_vowel, step_contains, step_length, step_shorter,
    step_longer, step_word_count, step_palindrome.
  by destruct (includes txt (str "first vowel")), (re_match re_contains txt),
    (re_match re_length txt), (re_match re_shorter txt), (re_match re_longer txt),
    (re_test re_single_word txt || re_test re_1_word txt
     || re_test re_word_count_1 txt),
    (includes txt (str "palindrom") || includes txt (str "palindromic")).
Qed.

Lemma compose_max_length (txt : jsstring) :
  Filters.max_length (compose txt)
  = match re_match re_length txt with
    | Some lenMatch => Some (parseInt10 (group lenMatch 2))
    | None =>
        match re_match re_shorter txt with
        | Some shorterMatch => Some (sub (parseInt10 (group shorterMatch 1)) (Int 1))
        | None => None
        end
    end.
Proof.
  unfold compose, step_first_vowel, step_contains, step_length, step_shorter,
    step_longer, step_word_count, step_palindrome.
  by destruct (includes txt (str "first vowel")), (re_match re_contains txt),
    (re_match re_length txt), (re_match re_shorter txt), (re_match re_longer txt),
    (re_test re_single_word txt || re_test re_1_word txt
     || re_test re_word_count_1 txt),
    (includes txt (str "palindrom") || includes txt (str "palindromic")).
Qed.

Lemma compose_contains_character (txt : jsstring) :
  Filters.contains_character (compose txt)
  = if includes txt (str "first vowel") then Some (str "a")
    else match re_match re_contains txt with
         | Some containsMatch => Some (group containsMatch 3)
         | None => None
         end.
Proof.
  unfold compose, step_first_vowel, step_contains, step_length, step_shorter,
    step_longer, step_word_count, step_palindrome.
  by destruct (includes txt (str "first vowel")), (re_match re_contains txt),
    (re_match re_length txt), (re_match re_shorter txt), (re_match re_longer txt),
    (re_test re_single_word txt || re_test re_1_word txt
     || re_test re_word_count_1 txt),
    (includes txt (str "palindrom") || includes txt (str "palindromic")).
Qed.

Lemma gt_irrefl (x : Number) : gt x x = false.
Proof.
  unfold gt, lt. destruct x as [|s|z]; [done|by destruct s|apply Z.ltb_irrefl].
Qed.

(** When the length pattern matches, the interpretation succeeds with both
    bounds equal to the number it read. *)
Lemma length_match_succeeds (q : jsstring) (m : match_result) :
  re_match re_length (toLowerCase q) = Some m ->
  parseNaturalLanguageQuery q = inr (compose (toLowerCase q)) /\
  Filters.min_length (compose (toLowerCase q)) = Some (parseInt10 (group m 2)) /\
  Filters.max_length (compose (toLowerCase q)) = Some (parseInt10 (group m 2)).
Proof.
  intros Hm.
  pose proof (compose_min_length (toLowerCase q)) as Hmin.
  pose proof (compose_max_length (toLowerCase q)) as Hmax.
  rewrite Hm in Hmin, Hmax. split; [|done].
  destruct q as [|c q]; [by vm_compute in Hm|].
  rewrite InterpreterFacts.parse_nonempty. cbv zeta.
  destruct (Nat.eqb_spec (Filters.key_count (compose (toLowerCase (c :: q)))) 0)
    as [E|_].
  - unfold Filters.key_count in E. rewrite Hmin in E. cbn in E. lia.
  - unfold conflicting. by rewrite Hmin, Hmax, gt_irrefl.
Qed.

End ComposeFacts.

Module CaseFacts.


Lemma lower_char_idempotent (c : ascii) : lower_char (lower_char c) = lower_char c.
Proof. by destruct c as [[] [] [] [] [] [] [] []]. Qed.

Lemma toLowerCase_idempotent (s : jsstring) :
  toLowerCase (toLowerCase s) = toLowerCase s.
Proof.
  unfold toLowerCase. induction s as [|c s IH]; [done|].
  cbn. by rewrite lower_char_idempotent, IH.
Qed.

End CaseFacts.

Module PatternFacts.

(** The length pattern occurs exactly where "length N" or "long N" stands
    as whole words. *)
Lemma occurs_length (txt : jsstring) :
  occurs re_length txt <-> length_phrase_as_words txt.
Proof.
  split.
  - intros (pre & post & st' & -> & Hm).
    destruct (RegexFacts.rmatch_complete _ _ _ Hm Some) as [st Hst]; [done|].
    exists pre, post, (default [] (caps st !! 2)). split; [done|].
    by apply ShapeFacts.length_sound.
  - intros (before & after & ds & -> & Hw).
    destruct (ShapeFacts.length_complete _ _ _ Hw) as [st Hst].
    apply RegexFacts.rmatch_sound in Hst as (st' & Hm & _).
    by exists before, after, st'.
Qed.

(** Standing as whole words is standing somewhere. *)
Lemma length_phrase_weaken (txt : jsstring) :
  length_phrase_as_words txt -> length_phrase txt.
Proof.
  intros (before & after & ds & -> & _ & w & post & Hw & -> & Hd & _).
  by exists before, w, ds, post.
Qed.

Lemma length_phrase_includes (txt : jsstring) :
  length_phrase txt ->
  includes txt (str "length ") = true \/ includes txt (str "long ") = true.
Proof.
  intros (pre & w & ds & post & [-> | ->] & -> & _); [left|right];
    apply InterpreterFacts.includes_spec; exists pre, (ds ++ post);
    reflexivity.
Qed.

End PatternFacts.

(** C2, as amended: the interpreter fails with the parse failure exactly
    when none of the seven recognized patterns matches anywhere in the
    lower-cased phrase, "length N" and "long N" counting only where they
    stand as whole words (no letter, digit or underscore right before the
    word or right after the number), and the token [word_count=1] (at word
    boundaries) does not occur in it either. *)
Theorem unparseable_iff_no_test_fires (q : jsstring) :
  fails_with Unparseable (parseNaturalLanguageQuery q) <->
  ~ seven_patterns length_phrase_as_words (toLowerCase q) /\
  ~ occurs re_word_count_1 (toLowerCase q).
Proof.
  rewrite InterpreterFacts.unparseable_iff_no_key,
    InterpreterFacts.compose_empty_iff.
  unfold seven_patterns. rewrite PatternFacts.occurs_length. tauto.
Qed.

(** C2, as stated, fails in both directions.  None of the seven patterns
    matches the phrase [word_count=1], and the interpreter answers it with a
    word count; and the phrase [belong 5] holds "long 5", the fifth pattern
    as the specification words it, and the interpreter cannot parse it. *)
Lemma seven_patterns_do_not_decide_unparseable :
  ~ (fails_with Unparseable (parseNaturalLanguageQuery (str "word_count=1")) <->
     ~ some_pattern_matches (toLowerCase (str "word_count=1"))) /\
  ~ (fails_with Unparseable (parseNaturalLanguageQuery (str "belong 5")) <->
     ~ some_pattern_matches (toLowerCase (str "belong 5"))).
Proof.
  split.
  - intros [_ H]. destruct H as (e & He & _).
    + intros [Hm|[[Hm|Hm]|[Hm|[Hm|[Hm|[Hm|Hm]]]]]];
        first [apply RegexFacts.re_test_spec in Hm
              |apply InterpreterFacts.includes_spec in Hm
              |apply PatternFacts.length_phrase_includes in Hm as [Hm|Hm]];
        by vm_compute in Hm.
    + vm_compute in He. discriminate He.
  - intros [H _]. apply H.
    + by eexists.
    + do 4 right. left. exists (str "be"), (str "long"), (str "5"), [].
      split_and!; [by right|done|by split; [|repeat constructor]].
Qed.




(** C3, as amended: for every phrase and every number written in its
    lower-cased text by a run of digits [ds], the number [n] being at most
    [MAX_SAFE_INTEGER]: when [ds] is the first "longer than N" written, the
    "longer than" assignment sets [min_length] to [n + 1]; when it is the first
    "shorter than N", the "shorter than" assignment sets [max_length] to
    [n - 1]; when it is the first "length N" or "long N", the length
    assignment sets both to [n].  The first two are the bounds of the result
    when no length pattern is written; the length pattern always decides
    both bounds of the result. *)
Theorem number_patterns_set_bounds (q ds : jsstring) :
  let txt := toLowerCase q in
  let n := digits_value ds in
  (n <= Double.MAX_SAFE_INTEGER)%Z ->
  (first_written longer_written txt ds ->
     (forall parsed,
        Filters.min_length (step_longer txt parsed) = Some (Int (n + 1))) /\
     (forall f, parseNaturalLanguageQuery q = inr f ->
        (forall ds', ~ first_written length_written txt ds') ->
        Filters.min_length f = Some (Int (n + 1)))) /\
  (first_written shorter_written txt ds ->
     (forall parsed,
        Filters.max_length (step_shorter txt parsed) = Some (Int (n - 1))) /\
     (forall f, parseNaturalLanguageQuery q = inr f ->
        (forall ds', ~ first_written length_written txt ds') ->
        Filters.max_length f = Some (Int (n - 1)))) /\
  (first_written length_written txt ds ->
     (forall parsed,
        Filters.min_length (step_length txt parsed) = Some (Int n) /\
        Filters.max_length (step_length txt parsed) = Some (Int n)) /\
     exists f, parseNaturalLanguageQuery q = inr f /\
       Filters.min_length f = Some (Int n) /\
       Filters.max_length f = Some (Int n)).
Proof.
  intros txt n Hn. split; [|split].
  - intros Hw.
    pose proof (WrittenFacts.first_written_digits _ _ _
                  (WrittenFacts.number_after_digits _) Hw) as Hd.
    apply WrittenFacts.longer_first_written in Hw as (m & Hm & Hg).
    assert (Double.add (parseInt10 (group m 1)) (Int 1) = Int (n + 1)) as Hadd.
    { rewrite Hg, NumberFacts.parseInt10_safe by done.
      apply DoubleFacts.add_one_safe. split; [|done].
      apply NumberFacts.digits_value_nonneg, Hd. }
    split.
    + intros parsed. unfold step_longer. fold txt. by rewrite Hm, <- Hadd.
    + intros f Hf Hlen. apply InterpreterFacts.parse_ok in Hf as (-> & _ & _).
      apply WrittenFacts.length_not_written in Hlen.
      rewrite ComposeFacts.compose_min_length. fold txt.
      by rewrite Hlen, Hm, Hadd.
  - intros Hw.
    pose proof (WrittenFacts.first_written_digits _ _ _
                  (WrittenFacts.number_after_digits _) Hw) as Hd.
    apply WrittenFacts.shorter_first_written in Hw as (m & Hm & Hg).
    assert (Double.sub (parseInt10 (group m 1)) (Int 1) = Int (n - 1)) as Hsub.
    { rewrite Hg, NumberFacts.parseInt10_safe by done.
      apply DoubleFacts.sub_one_safe. split; [|done].
      apply NumberFacts.digits_value_nonneg, Hd. }
    split.
    + intros parsed. unfold step_shorter. fold txt. by rewrite Hm, <- Hsub.
    + intros f Hf Hlen. apply InterpreterFacts.parse_ok in Hf as (-> & _ & _).
      apply WrittenFacts.length_not_written in Hlen.
      rewrite ComposeFacts.compose_max_length. fold txt.
      by rewrite Hlen, Hm, Hsub.
  - intros Hw.
    pose proof (WrittenFacts.first_written_digits _ _ _
                  WrittenFacts.length_written_digits Hw) as Hd.
    apply WrittenFacts.length_first_written in Hw as (m & Hm & Hg).
    assert (parseInt10 (group m 2) = Int n) as Hp
      by (rewrite Hg; by apply NumberFacts.parseInt10_safe).
    split.
    + intros parsed. unfold step_length. fold txt. by rewrite Hm, Hp.
    + destruct (ComposeFacts.length_match_succeeds q m Hm) as (Hok & Hmin & Hmax).
      exists (compose (toLowerCase q)). by rewrite Hmin, Hmax, Hp.
Qed.

Lemma number_patterns_set_bounds_witness :
  Filters.min_length
    (step_longer (toLowerCase (str "strings longer than 10 characters"))
       Filters.empty)
  = Some (Int 11) /\
  Filters.max_length
    (step_shorter (toLowerCase (str "strings shorter than 5 characters"))
       Filters.empty)
  = Some (Int 4) /\
  exists f, parseNaturalLanguageQuery (str "strings of length 10") = inr f /\
    Filters.min_length f = Some (Int 10) /\ Filters.max_length f = Some (Int 10).
Proof.
  assert (first_written longer_written
            (toLowerCase (str "strings longer than 10 characters")) (str "10"))
    as Hlonger.
  { apply WrittenFacts.longer_first_written.
    eexists. split; vm_compute; reflexivity. }
  assert (first_written shorter_written
            (toLowerCase (str "strings shorter than 5 characters")) (str "5"))
    as Hshorter.
  { apply WrittenFacts.shorter_first_written.
    eexists. split; vm_compute; reflexivity. }
  assert (first_written length_written
            (toLowerCase (str "strings of length 10")) (str "10"))
    as Hlength.
  { apply WrittenFacts.length_first_written.
    eexists. split; vm_compute; reflexivity. }
  assert (digits_value (str "10") <= Double.MAX_SAFE_INTEGER)%Z as Hsafe10
    by (by vm_compute).
  assert (digits_value (str "5") <= Double.MAX_SAFE_INTEGER)%Z as Hsafe5
    by (by vm_compute).
  split; [|split].
  - exact (proj1 (proj1 (number_patterns_set_bounds
                           (str "strings longer than 10 characters") (str "10")
                           Hsafe10) Hlonger) Filters.empty).
  - exact (proj1 (proj1 (proj2 (number_patterns_set_bounds
                                  (str "strings shorter than 5 characters")
                                  (str "5") Hsafe5)) Hshorter) Filters.empty).
  - exact (proj2 (proj2 (proj2 (number_patterns_set_bounds
                                  (str "strings of length 10") (str "10")
                                  Hsafe10)) Hlength)).
Defined.

(** C3, as stated, fails beyond the safe integers, where a double cannot
    hold every natural number: in "longer than 9007199254740992" that number
    is written, and the assignment leaves [min_length] at 9007199254740992
    instead of one more, also in the result; in "length 9007199254740993"
    both bounds become 9007199254740992. *)
Lemma number_patterns_round_large_numbers :
  let longer := str "longer than 9007199254740992" in
  let length := str "length 9007199254740993" in
  (first_written longer_written (toLowerCase longer) (str "9007199254740992") /\
   digits_value (str "9007199254740992") = 9007199254740992%Z /\
   Filters.min_length (step_longer (toLowerCase longer) Filters.empty)
   = Some (Int 9007199254740992) /\
   parseNaturalLanguageQuery longer
   = inr (Filters.Make None (Some (Int 9007199254740992)) None None None) /\
   Int 9007199254740992 <> Int (9007199254740992 + 1)) /\
  (first_written length_written (toLowerCase length) (str "9007199254740993") /\
   digits_value (str "9007199254740993") = 9007199254740993%Z /\
   parseNaturalLanguageQuery length
   = inr (Filters.Make None (Some (Int 9007199254740992))
            (Some (Int 9007199254740992)) None None) /\
   Int 9007199254740992 <> Int 9007199254740993).
Proof.
  intros longer length. split.
  - split_and!; [|by vm_compute..|intros H; inversion H; lia].
    apply WrittenFacts.longer_first_written.
    eexists. split; vm_compute; reflexivity.
  - split_and!; [|by vm_compute..|intros H; inversion H; lia].
    apply WrittenFacts.length_first_written.
    eexists. split; vm_compute; reflexivity.
Qed.

(** C4: "length 10" is interpreted as exactly [min_length = 10] and
    [max_length = 10]; and for every phrase in which the first length pattern
    written reads 10 and the first "longer than" pattern written reads 20,
    in whichever order they stand, the "longer than" assignment writes 21 and
    the interpretation succeeds with [min_length = 10], the value written by
    the assignment applied last (not 21, not a value between the two, not an
    error).  In general [min_length] of a result is the value of the length
    pattern when it matches, else that of the "longer than" pattern. *)
Theorem length_pattern_has_the_last_word :
  parseNaturalLanguageQuery (str "length 10")
  = inr (Filters.Make None (Some (Int 10)) (Some (Int 10)) None None) /\
  (forall q : jsstring,
     first_written length_written (toLowerCase q) (str "10") ->
     first_written longer_written (toLowerCase q) (str "20") ->
     Filters.min_length (step_longer (toLowerCase q) Filters.empty)
     = Some (Int 21) /\
     exists f, parseNaturalLanguageQuery q = inr f /\
       Filters.min_length f = Some (Int 10) /\
       Filters.max_length f = Some (Int 10)) /\
  (forall (q : jsstring) (f : Filters.t),
     parseNaturalLanguageQuery q = inr f ->
     Filters.min_length f
     = match re_match re_length (toLowerCase q) with
       | Some lenMatch => Some (parseInt10 (group lenMatch 2))
       | None =>
           match re_match re_longer (toLowerCase q) with
           | Some longerMatch =>
               Some (Double.add (parseInt10 (group longerMatch 1)) (Int 1))
           | None => None
           end
       end) /\
  parseNaturalLanguageQuery (str "length 10 and longer than 20")
  = inr (Filters.Make None (Some (Int 10)) (Some (Int 10)) None None) /\
  parseNaturalLanguageQuery (str "longer than 20 and length 10")
  = inr (Filters.Make None (Some (Int 10)) (Some (Int 10)) None None).
Proof.
  split; [by vm_compute|]. split; [|split; [|split; by vm_compute]].
  - intros q Hlen Hlonger.
    apply WrittenFacts.length_first_written in Hlen as (lenMatch & Hlen & H10).
    apply WrittenFacts.longer_first_written in Hlonger
      as (longerMatch & Hlonger & H20).
    split.
    + unfold step_longer. by rewrite Hlonger, H20.
    + destruct (ComposeFacts.length_match_succeeds q lenMatch Hlen)
        as (Hok & Hmin & Hmax).
      exists (compose (toLowerCase q)). by rewrite Hmin, Hmax, H10.
  - intros q f Hf. apply InterpreterFacts.parse_ok in Hf as (-> & _ & _).
    apply ComposeFacts.compose_min_length.
Qed.

Lemma length_pattern_has_the_last_word_witness :
  Filters.min_length
    (step_longer (toLowerCase (str "length 10 and longer than 20")) Filters.empty)
  = Some (Int 21) /\
  exists f, parseNaturalLanguageQuery (str "length 10 and longer than 20") = inr f /\
    Filters.min_length f = Some (Int 10) /\
    Filters.max_length f = Some (Int 10).
Proof.
  apply (proj1 (proj2 length_pattern_has_the_last_word)
           (str "length 10 and longer than 20")).
  - apply WrittenFacts.length_first_written.
    eexists. split; vm_compute; reflexivity.
  - apply WrittenFacts.longer_first_written.
    eexists. split; vm_compute; reflexivity.
Defined.

(** * Further properties of the source *)

(** ** The frequency map *)

Module FrequencyFacts.

Lemma occurrences_cons (c x : ascii) (v : jsstring) :
  occurrences c (x :: v) = (if Ascii.eqb c x then 1 else 0) + occurrences c v.
Proof. unfold occurrences. cbn. by destruct (Ascii.eqb c x). Qed.

Lemma occurrences_snoc (c x : ascii) (v : jsstring) :
  occurrences c (v ++ [x]) = occurrences c v + (if Ascii.eqb c x then 1 else 0).
Proof.
  unfold occurrences. rewrite List.filter_app, length_app. cbn.
  by destruct (Ascii.eqb c x).
Qed.

Lemma occurrences_pos (c : ascii) (v : jsstring) :
  0 < occurrences c v <-> c ∈ v.
Proof.
  induction v as [|x v IH].
  - split; [cbn; lia|by intros ?%elem_of_nil].
  - rewrite occurrences_cons, elem_of_cons, <- IH.
    destruct (Ascii.eqb_spec c x) as [->|Hne]; [split; [by left|lia]|].
    split; [by right|]. by intros [|].
Qed.

Lemma charFrequencyMap_snoc (v : jsstring) (x : ascii) :
  charFrequencyMap (v ++ [x]) = count_step (charFrequencyMap v) x.
Proof. unfold charFrequencyMap. by rewrite foldl_app. Qed.

Lemma lookup_frequency (v : jsstring) (c : ascii) :
  charFrequencyMap v !! c
  = if occurrences c v is 0 then None else Some (occurrences c v).
Proof.
  induction v as [|x v IH] using rev_ind; [done|].
  rewrite charFrequencyMap_snoc, occurrences_snoc. unfold count_step.
  destruct (Ascii.eqb_spec c x) as [->|Hne].
  - rewrite lookup_insert_eq, IH. destruct (occurrences x v); cbn; [done|].
    rewrite Nat.add_1_r. done.
  - rewrite lookup_insert_ne by done. by rewrite IH, Nat.add_0_r.
Qed.

Lemma total_count_step (m : gmap ascii nat) (c : ascii) :
  total_count (count_step m c) = total_count m + 1.
Proof.
  unfold total_count, count_step.
  destruct (m !! c) as [n|] eqn:Hc; cbn.
  - rewrite <- (insert_delete_eq m c (n + 1)).
    rewrite <- (insert_delete_id m c n Hc) at 2.
    rewrite !map_fold_insert_L; try (by rewrite lookup_delete_eq);
      intros; lia.
  - rewrite map_fold_insert_L; [lia| |done]. intros; lia.
Qed.

Lemma total_count_frequency (v : jsstring) :
  total_count (charFrequencyMap v) = length v.
Proof.
  induction v as [|x v IH] using rev_ind; [done|].
  rewrite charFrequencyMap_snoc, total_count_step, IH, length_app. cbn. lia.
Qed.

Lemma dom_frequency (v : jsstring) :
  dom (charFrequencyMap v) = list_to_set v.
Proof.
  apply set_eq. intros c.
  rewrite elem_of_dom, elem_of_list_to_set, <- occurrences_pos, lookup_frequency.
  destruct (occurrences c v) as [|n].
  - split; [intros [x Hx]; discriminate Hx|lia].
  - split; [lia|by eexists].
Qed.

End FrequencyFacts.

(** Tallies over keys of any kind. *)
Module TallyFacts.
Section Tally.
Context `{Countable K}.

Lemma count_of_cons (x y : K) (l : list K) :
  count_of x (y :: l) = (if bool_decide (x = y) then 1 else 0) + count_of x l.
Proof. unfold count_of. cbn. by destruct (bool_decide (x = y)). Qed.

Lemma count_of_snoc (x y : K) (l : list K) :
  count_of x (l ++ [y]) = count_of x l + (if bool_decide (x = y) then 1 else 0).
Proof.
  unfold count_of. rewrite List.filter_app, length_app. cbn.
  by destruct (bool_decide (x = y)).
Qed.

Lemma count_of_pos (x : K) (l : list K) : 0 < count_of x l <-> x ∈ l.
Proof.
  induction l as [|y l IH].
  - split; [cbn; lia|by intros ?%elem_of_nil].
  - rewrite count_of_cons, elem_of_cons, <- IH.
    case_bool_decide as Hxy; [split; [by left|lia]|].
    split; [by right|]. by intros [|].
Qed.

Lemma count_of_le (x : K) (l : list K) : count_of x l <= length l.
Proof.
  induction l as [|y l IH]; [done|]. rewrite count_of_cons. cbn [length].
  case_bool_decide; lia.
Qed.

Lemma tally_snoc (l : list K) (x : K) :
  tally (l ++ [x]) = <[x := default 0 (tally l !! x) + 1]> (tally l).
Proof. unfold tally. by rewrite foldl_app. Qed.

Lemma lookup_tally (l : list K) (x : K) :
  tally l !! x = if count_of x l is 0 then None else Some (count_of x l).
Proof.
  induction l as [|y l IH] using rev_ind; [done|].
  rewrite tally_snoc, count_of_snoc.
  case_bool_decide as Hxy.
  - subst y. rewrite lookup_insert_eq, IH. destruct (count_of x l); cbn; [done|].
    by rewrite Nat.add_1_r.
  - rewrite lookup_insert_ne by done. by rewrite IH, Nat.add_0_r.
Qed.

Lemma sum_of_counts_step (m : gmap K nat) (x : K) :
  sum_of_counts (<[x := default 0 (m !! x) + 1]> m) = sum_of_counts m + 1.
Proof.
  unfold sum_of_counts.
  destruct (m !! x) as [n|] eqn:Hx; cbn.
  - rewrite <- (insert_delete_eq m x (n + 1)).
    rewrite <- (insert_delete_id m x n Hx) at 2.
    rewrite !map_fold_insert_L; try (by rewrite lookup_delete_eq);
      intros; lia.
  - rewrite map_fold_insert_L; [lia| |done]. intros; lia.
Qed.

Lemma sum_of_counts_tally (l : list K) : sum_of_counts (tally l) = length l.
Proof.
  induction l as [|x l IH] using rev_ind; [done|].
  rewrite tally_snoc, sum_of_counts_step, IH, length_app. cbn. lia.
Qed.

Lemma dom_tally (l : list K) : dom (tally l) = list_to_set l.
Proof.
  apply set_eq. intros x.
  rewrite elem_of_dom, elem_of_list_to_set, <- count_of_pos, lookup_tally.
  destruct (count_of x l) as [|n].
  - split; [intros [y Hy]; discriminate Hy|lia].
  - split; [lia|by eexists].
Qed.

Lemma size_tally_le (l : list K) : size (tally l) <= length l.
Proof.
  induction l as [|x l IH] using rev_ind; [done|].
  rewrite tally_snoc, length_app, map_size_insert. cbn [length].
  destruct (tally l !! x); unfold Datatypes.id; lia.
Qed.

Lemma size_tally_zero (l : list K) : size (tally l) = 0 <-> l = [].
Proof.
  rewrite map_size_empty_iff. split; [|by intros ->].
  intros Hm. destruct l as [|x l]; [done|].
  pose proof (dom_tally (x :: l)) as Hd.
  rewrite Hm, dom_empty_L in Hd. set_solver.
Qed.

End Tally.
End TallyFacts.

(** The string iterator. *)
Module CodePointFacts.
Import Wide.

(** Induction that follows [code_points]: one code unit or two at a time. *)
Lemma by_code_point (P : list N -> Prop) :
  P [] -> (forall u, P [u]) ->
  (forall u l rest, P rest -> P (l :: rest) -> P (u :: l :: rest)) ->
  forall value, P value.
Proof.
  intros Hnil Hone Hstep value.
  assert (P value /\ forall u, P (u :: value)) as [Hv _]; [|done].
  induction value as [|l rest [IH1 IH2]]; [done|].
  split; [apply IH2|]. intros u. by apply Hstep.
Qed.

Lemma code_points_step (u l : N) (rest : list N) :
  code_points (u :: l :: rest)
  = if is_high_surrogate u && is_low_surrogate l
    then [u; l] :: code_points rest
    else [u] :: code_points (l :: rest).
Proof. reflexivity. Qed.

(** The elements, written one after the other, are the string. *)
Lemma concat_code_points (value : list N) : concat (code_points value) = value.
Proof.
  induction value as [|u|u l rest IH1 IH2] using by_code_point; [done..|].
  rewrite code_points_step. destruct (_ && _); cbn [concat app].
  - by rewrite IH1.
  - by rewrite IH2.
Qed.

(** An element is one code unit or a surrogate pair. *)
Lemma code_point_shape (value : list N) (k : list N) :
  k ∈ code_points value ->
  (exists u, k = [u]) \/
  (exists h l, k = [h; l] /\ is_high_surrogate h = true /\
     is_low_surrogate l = true).
Proof.
  induction value as [|u|u l rest IH1 IH2] using by_code_point.
  - by intros ?%elem_of_nil.
  - intros ->%list_elem_of_singleton. left. by exists u.
  - rewrite code_points_step.
    destruct (is_high_surrogate u && is_low_surrogate l) eqn:Hp.
    + apply andb_true_iff in Hp as [Hh Hl].
      intros [->|Hk]%elem_of_cons; [right; by exists u, l|by apply IH1].
    + intros [->|Hk]%elem_of_cons; [left; by exists u|by apply IH2].
Qed.

(** Every surrogate pair kept together makes the iteration one shorter than
    the string. *)
Lemma length_code_points (value : list N) :
  length (code_points value) + surrogate_pairs value = length value.
Proof.
  unfold surrogate_pairs.
  induction value as [|u|u l rest IH1 IH2] using by_code_point; [done..|].
  rewrite code_points_step. destruct (_ && _); cbn [List.filter length Nat.eqb].
  - lia.
  - cbn [length] in IH2. lia.
Qed.

Lemma code_points_nil (value : list N) : code_points value = [] <-> value = [].
Proof.
  split; [|by intros ->]. intros Hn.
  by rewrite <- (concat_code_points value), Hn.
Qed.

Lemma pair_is_one_key (h l : N) :
  is_high_surrogate h = true -> is_low_surrogate l = true ->
  charFrequencyMap [h; l] = {[ [h; l] := 1 ]}.
Proof.
  intros Hh Hl. unfold charFrequencyMap. cbn [code_points].
  rewrite Hh, Hl. reflexivity.
Qed.

(** On a Latin-1 string every element is one code unit. *)
Lemma code_lt (c : ascii) : (code c < 256)%N.
Proof. apply N_ascii_bounded. Qed.

Lemma code_not_high (c : ascii) : is_high_surrogate (code c) = false.
Proof.
  pose proof (code_lt c). unfold is_high_surrogate.
  apply andb_false_iff. left. apply N.leb_gt. lia.
Qed.

Lemma code_inj (c d : ascii) : code c = code d -> c = d.
Proof.
  intros Hcd. rewrite <- (ascii_N_embedding c), <- (ascii_N_embedding d).
  unfold code in Hcd. by rewrite Hcd.
Qed.

Lemma code_points_units (s : jsstring) :
  code_points (units s) = (fun c => [code c]) <$> s.
Proof.
  induction s as [|c s IH]; [done|].
  destruct s as [|d s]; [done|].
  change (units (c :: d :: s)) with (code c :: code d :: units s).
  rewrite code_points_step, code_not_high. cbn [andb].
  change (code d :: units s) with (units (d :: s)). by rewrite IH.
Qed.

Lemma count_of_units (s : jsstring) (c : ascii) :
  count_of [code c] ((fun c => [code c]) <$> s) = occurrences c s.
Proof.
  induction s as [|x s IH]; [done|].
  cbn [fmap list_fmap]. rewrite TallyFacts.count_of_cons.
  rewrite FrequencyFacts.occurrences_cons.
  change (list_fmap ascii (list N) (fun c => [code c]) s)
    with ((fun c => [code c]) <$> s).
  rewrite IH. f_equal.
  destruct (Ascii.eqb_spec c x) as [->|Hne].
  - by rewrite bool_decide_eq_true_2.
  - rewrite bool_decide_eq_false_2; [done|]. intros [= Hc%code_inj]. done.
Qed.

End CodePointFacts.

Module Latin1Facts.

(** The map of the Latin-1 model is the map of the string iterator. *)
Lemma lookup_units (s : jsstring) (c : ascii) :
  Wide.charFrequencyMap (Wide.units s) !! [code c] = charFrequencyMap s !! c.
Proof.
  change (Wide.charFrequencyMap (Wide.units s))
    with (tally (Wide.code_points (Wide.units s))).
  rewrite TallyFacts.lookup_tally, CodePointFacts.code_points_units,
    CodePointFacts.count_of_units.
  by rewrite FrequencyFacts.lookup_frequency.
Qed.

End Latin1Facts.

(** X1: [charFrequencyMap] maps every element that the string iterator
    yields (a code point: one code unit, or a surrogate pair as one key of
    two code units) to the number of times it occurs among these elements,
    and holds no other key: a key is never mapped to 0.  On a string of
    Latin-1 code units the keys are its code units, and the map is the one of
    the Latin-1 model. *)
Theorem frequency_is_occurrence_count (value k : list N) :
  let occurs := count_of k (Wide.code_points value) in
  Wide.charFrequencyMap value !! k
  = (if occurs is 0 then None else Some occurs) /\
  (Wide.charFrequencyMap value !! k <> Some 0) /\
  (is_Some (Wide.charFrequencyMap value !! k) <-> k ∈ Wide.code_points value) /\
  (is_Some (Wide.charFrequencyMap value !! k) ->
   (exists u, k = [u]) \/
   (exists h l, k = [h; l] /\ Wide.is_high_surrogate h = true /\
      Wide.is_low_surrogate l = true)) /\
  (forall h l,
     Wide.is_high_surrogate h = true -> Wide.is_low_surrogate l = true ->
     Wide.charFrequencyMap [h; l] = {[ [h; l] := 1 ]}) /\
  (forall (s : jsstring) (c : ascii),
     Wide.charFrequencyMap (Wide.units s) !! [code c] = charFrequencyMap s !! c /\
     charFrequencyMap s !! c
     = (if occurrences c s is 0 then None else Some (occurrences c s)) /\
     (is_Some (charFrequencyMap s !! c) <-> c ∈ s)) /\
  (forall (s : jsstring) (key : list N),
     is_Some (Wide.charFrequencyMap (Wide.units s) !! key) ->
     exists c, key = [code c] /\ c ∈ s).
Proof.
  cbv zeta.
  assert (forall (l : list (list N)) (x : list N),
            is_Some (tally l !! x) <-> x ∈ l) as Hkey.
  { intros l x. rewrite <- TallyFacts.count_of_pos, TallyFacts.lookup_tally.
    destruct (count_of x l); split; try lia; try (by eexists).
    intros [y Hy]. discriminate Hy. }
  change (Wide.charFrequencyMap value) with (tally (Wide.code_points value)).
  split_and!.
  - apply TallyFacts.lookup_tally.
  - rewrite TallyFacts.lookup_tally. by destruct (count_of k _).
  - apply Hkey.
  - intros Hk%Hkey. by apply (CodePointFacts.code_point_shape value).
  - apply CodePointFacts.pair_is_one_key.
  - intros s c. split_and!.
    + apply Latin1Facts.lookup_units.
    + apply FrequencyFacts.lookup_frequency.
    + rewrite <- FrequencyFacts.occurrences_pos, FrequencyFacts.lookup_frequency.
      destruct (occurrences c s); split; try lia; try (by eexists).
      intros [x Hx]. discriminate Hx.
  - intros s key.
    change (Wide.charFrequencyMap (Wide.units s))
      with (tally (Wide.code_points (Wide.units s))).
    rewrite Hkey, CodePointFacts.code_points_units.
    intros (c & -> & Hc)%list_elem_of_fmap. by exists c.
Qed.

Lemma frequency_is_occurrence_count_witness :
  Wide.charFrequencyMap [55357%N; 56832%N] = {[ [55357%N; 56832%N] := 1 ]}.
Proof.
  by apply (frequency_is_occurrence_count [] []).
Defined.

(** X2: the counts of the frequency map add up to the number of elements
    the string iterator yields, which is the length of the string less the
    number of surrogate pairs: the counts add up to the [length] property
    exactly when the string holds no surrogate pair, as every string of
    Latin-1 code units does. *)
Theorem frequency_counts_add_up (value : list N) :
  sum_of_counts (Wide.charFrequencyMap value) = length (Wide.code_points value) /\
  concat (Wide.code_points value) = value /\
  sum_of_counts (Wide.charFrequencyMap value) + surrogate_pairs value
  = length value /\
  (forall (sha256 : jsstring -> jsstring) (s : jsstring),
     let props := analyzeString sha256 s in
     surrogate_pairs (Wide.units s) = 0 /\
     total_count (Properties.character_frequency_map props)
     = Properties.length props).
Proof.
  change (Wide.charFrequencyMap value) with (tally (Wide.code_points value)).
  rewrite TallyFacts.sum_of_counts_tally. split_and!.
  - done.
  - apply CodePointFacts.concat_code_points.
  - apply CodePointFacts.length_code_points.
  - intros sha256 s. cbv zeta. split.
    + pose proof (CodePointFacts.length_code_points (Wide.units s)) as Hl.
      rewrite CodePointFacts.code_points_units in Hl.
      unfold Wide.units in *. rewrite !length_fmap in Hl. lia.
    + apply FrequencyFacts.total_count_frequency.
Qed.

(** X3: [unique_characters] is the number of distinct elements the string
    iterator yields (distinct code points, a surrogate pair counting once);
    it is at most the number of elements and so at most the length, and it is
    0 only for the empty string.  On a string of Latin-1 code units it is the
    number of distinct code units. *)
Theorem unique_characters_counts_distinct (value : list N) :
  Wide.unique_characters value
  = size (list_to_set (Wide.code_points value) : gset (list N)) /\
  Wide.unique_characters value <= length (Wide.code_points value) /\
  Wide.unique_characters value <= length value /\
  (Wide.unique_characters value = 0 <-> value = []) /\
  (forall (sha256 : jsstring -> jsstring) (s : jsstring),
     let props := analyzeString sha256 s in
     Properties.unique_characters props = size (list_to_set s : gset ascii) /\
     Properties.unique_characters props <= Properties.length props /\
     (Properties.unique_characters props = 0 <-> s = [])).
Proof.
  unfold Wide.unique_characters.
  change (Wide.charFrequencyMap value) with (tally (Wide.code_points value)).
  pose proof (TallyFacts.size_tally_le (Wide.code_points value)) as Hle.
  pose proof (CodePointFacts.length_code_points value) as Hlen.
  split_and!.
  - by rewrite <- TallyFacts.dom_tally, size_dom.
  - done.
  - lia.
  - by rewrite TallyFacts.size_tally_zero, CodePointFacts.code_points_nil.
  - intros sha256 s.
    cbn [analyzeString Properties.unique_characters Properties.length].
    change (charFrequencyMap s) with (tally s). split_and!.
    + by rewrite <- TallyFacts.dom_tally, size_dom.
    + apply TallyFacts.size_tally_le.
    + apply TallyFacts.size_tally_zero.
Qed.

(** ** The palindrome test *)

Module PalindromeFacts.

Lemma isPalindrome_iff (v : jsstring) :
  isPalindrome v = true <-> toLowerCase v = rev (toLowerCase v).
Proof. unfold isPalindrome. cbv zeta. by rewrite bool_decide_eq_true. Qed.

Lemma toLowerCase_rev (v : jsstring) : toLowerCase (rev v) = rev (toLowerCase v).
Proof. unfold toLowerCase. by rewrite map_rev. Qed.

Lemma toLowerCase_app (u v : jsstring) :
  toLowerCase (u ++ v) = toLowerCase u ++ toLowerCase v.
Proof. unfold toLowerCase. by rewrite map_app. Qed.

Lemma toLowerCase_length (v : jsstring) : length (toLowerCase v) = length v.
Proof. unfold toLowerCase. by rewrite length_map. Qed.

Lemma toLowerCase_lookup (v : jsstring) (i : nat) :
  toLowerCase v !! i = lower_char <$> v !! i.
Proof.
  revert i. induction v as [|c v IH]; intros [|i]; try done. apply IH.
Qed.

Lemma rev_lookup (l : jsstring) (i : nat) :
  i < length l -> rev l !! i = l !! (length l - S i).
Proof. rewrite rev_alt. apply reverse_lookup. Qed.

Lemma same_test_same_answer (u v : jsstring) :
  (isPalindrome u = true <-> isPalindrome v = true) ->
  isPalindrome u = isPalindrome v.
Proof. destruct (isPalindrome u), (isPalindrome v); intuition congruence. Qed.

Lemma units_rev (s : jsstring) : Wide.units (rev s) = rev (Wide.units s).
Proof.
  unfold Wide.units. induction s as [|c s IH]; [done|].
  cbn. by rewrite fmap_app, IH.
Qed.

Lemma of_units (s : jsstring) : ascii_of_N <$> Wide.units s = s.
Proof.
  unfold Wide.units. induction s as [|c s IH]; [done|].
  cbn. unfold code at 1. by rewrite ascii_N_embedding, IH.
Qed.

Lemma units_inj (s t : jsstring) : Wide.units s = Wide.units t -> s = t.
Proof. intros Hst. by rewrite <- (of_units s), <- (of_units t), Hst. Qed.

(** On a string of Latin-1 code units the test is the one of the Latin-1
    model. *)
Lemma isPalindrome_units (lower : list N -> list N) (v : jsstring) :
  lowers_latin1 lower ->
  Wide.isPalindrome lower (Wide.units v) = isPalindrome v.
Proof.
  intros Hl. unfold Wide.isPalindrome, isPalindrome. cbv zeta.
  rewrite Hl, <- units_rev. apply bool_decide_ext.
  split; [apply units_inj|by intros <-].
Qed.

(** The table is such a lower-casing. *)
Lemma table_lowers_latin1 :
  lowers_latin1 (fun us => Wide.units (toLowerCase (ascii_of_N <$> us))).
Proof. intros s. by rewrite of_units. Qed.

Lemma mirror_symmetry {A} (l : list A) :
  l = rev l <->
  forall (i j : nat) (c d : A),
    i + j + 1 = length l -> l !! i = Some c -> l !! j = Some d -> c = d.
Proof.
  rewrite rev_alt. change (rev_append l []) with (reverse l). split.
  - intros Heq i j c d Hij Hc Hd.
    assert (l !! i = reverse l !! i) as Hi by (by rewrite <- Heq).
    rewrite reverse_lookup in Hi by lia.
    replace (length l - S i) with j in Hi by lia. congruence.
  - intros Hsym. apply list_eq. intros i.
    destruct (decide (i < length l)) as [Hlt|Hge].
    + rewrite reverse_lookup by done.
      destruct (lookup_lt_is_Some_2 l i Hlt) as [c Hc].
      destruct (lookup_lt_is_Some_2 l (length l - S i) ltac:(lia)) as [d Hd].
      rewrite Hc, Hd. f_equal. apply (Hsym i (length l - S i)); [lia|done..].
    + rewrite !lookup_ge_None_2; [done| |]; rewrite ?length_reverse; lia.
Qed.

End PalindromeFacts.

(** X4: on every string, [isPalindrome] holds exactly when the lower-cased
    string is its own mirror image code unit by code unit.  On a string of
    Latin-1 code units, which [toLowerCase] lower-cases code unit by code
    unit, that is: every code unit agrees, letter case apart, with the one at
    the mirrored position; nothing is skipped, neither whitespace nor
    punctuation. *)
Theorem palindrome_is_mirror_symmetry (lower : list N -> list N) (v : jsstring) :
  lowers_latin1 lower ->
  (forall value : list N,
     Wide.isPalindrome lower value = true <->
     forall (i j : nat) (c d : N),
       i + j + 1 = length (lower value) ->
       lower value !! i = Some c -> lower value !! j = Some d -> c = d) /\
  Wide.isPalindrome lower (Wide.units v) = isPalindrome v /\
  (isPalindrome v = true <->
   forall (i j : nat) (c d : ascii),
     i + j + 1 = length v -> v !! i = Some c -> v !! j = Some d ->
     lower_char c = lower_char d).
Proof.
  intros Hl. split_and!.
  - intros value. unfold Wide.isPalindrome. cbv zeta.
    rewrite bool_decide_eq_true. apply PalindromeFacts.mirror_symmetry.
  - by apply PalindromeFacts.isPalindrome_units.
  - rewrite PalindromeFacts.isPalindrome_iff, PalindromeFacts.mirror_symmetry.
    rewrite PalindromeFacts.toLowerCase_length. split.
    + intros Hsym i j c d Hij Hc Hd.
      apply (Hsym i j); [done|..];
        by rewrite PalindromeFacts.toLowerCase_lookup, ?Hc, ?Hd.
    + intros Hsym i j c d Hij.
      rewrite !PalindromeFacts.toLowerCase_lookup.
      destruct (v !! i) as [c'|] eqn:Hc; [|done].
      destruct (v !! j) as [d'|] eqn:Hd; [|done].
      intros [= <-] [= <-]. by apply (Hsym i j).
Qed.

Lemma palindrome_is_mirror_symmetry_witness :
  Wide.isPalindrome (fun us => Wide.units (toLowerCase (ascii_of_N <$> us)))
    (Wide.units (str "Racecar"))
  = isPalindrome (str "Racecar").
Proof.
  exact (proj1 (proj2 (palindrome_is_mirror_symmetry _ (str "Racecar")
                         PalindromeFacts.table_lowers_latin1))).
Defined.

(** X5: on strings of Latin-1 code units, which [toLowerCase] lower-cases
    code unit by code unit, the test does not tell a string from its reverse
    nor from its lower-cased form, and a string followed by at most one code
    unit and by its own reverse, in any letter case, passes it. *)
Theorem palindrome_invariances (lower : list N -> list N) :
  lowers_latin1 lower ->
  let test (s : jsstring) := Wide.isPalindrome lower (Wide.units s) in
  (forall v, test (rev v) = test v) /\
  (forall v, test (toLowerCase v) = test v) /\
  (forall u u' mid,
     toLowerCase u' = toLowerCase u -> length mid <= 1 ->
     test (u ++ mid ++ rev u') = true).
Proof.
  intros Hl test.
  assert (forall s, test s = isPalindrome s) as Htest.
  { intros s. by apply PalindromeFacts.isPalindrome_units. }
  split; [|split].
  - intros v. rewrite !Htest. apply PalindromeFacts.same_test_same_answer.
    rewrite !PalindromeFacts.isPalindrome_iff, PalindromeFacts.toLowerCase_rev,
      rev_involutive.
    split; intros H; by rewrite <- H at 1.
  - intros v. rewrite !Htest. unfold isPalindrome. cbv zeta.
    by rewrite CaseFacts.toLowerCase_idempotent.
  - intros u u' mid Hu Hmid. rewrite Htest.
    apply PalindromeFacts.isPalindrome_iff.
    rewrite !PalindromeFacts.toLowerCase_app, PalindromeFacts.toLowerCase_rev, Hu.
    rewrite !rev_app_distr, rev_involutive, <- app_assoc. do 2 f_equal.
    destruct mid as [|c [|d mid]]; [done|done|cbn in Hmid; lia].
Qed.

Lemma palindrome_invariances_witness :
  toLowerCase (str "RAC") = toLowerCase (str "Rac") /\
  length (str "e") <= 1 /\
  Wide.isPalindrome (fun us => Wide.units (toLowerCase (ascii_of_N <$> us)))
    (Wide.units (str "Rac" ++ str "e" ++ rev (str "RAC"))) = true.
Proof.
  assert (toLowerCase (str "RAC") = toLowerCase (str "Rac")) as Hu by reflexivity.
  assert (length (str "e") <= 1) as Hmid by (cbn; lia).
  split; [exact Hu|]. split; [exact Hmid|].
  exact (proj2 (proj2 (palindrome_invariances _
                         PalindromeFacts.table_lowers_latin1))
           (str "Rac") (str "RAC") (str "e") Hu Hmid).
Defined.

(** ** More on the word count *)

Module WordFacts.

Lemma count_words_is_runs (v : jsstring) :
  count_words v = runs_from true v.
Proof.
  rewrite SplitFacts.count_words_runs. apply SplitFacts.runs_trim.
Qed.

Lemma runs_zero_spaces (s : jsstring) :
  runs_from true s = 0 -> Forall (fun c => is_space c = true) s.
Proof.
  induction s as [|c s IH]; [done|]. cbn.
  destruct (is_space c) eqn:Hc; cbn; [|lia].
  intros H. constructor; [done|]. by apply IH.
Qed.

Lemma runs_bound (b : bool) (s : jsstring) :
  2 * runs_from b s <= length s + (if b then 1 else 0).
Proof.
  revert b. induction s as [|c s IH]; intros b; cbn; [lia|].
  specialize (IH (is_space c)). destruct b, (is_space c); cbn in *; lia.
Qed.

Lemma runs_app_gap (b : bool) (u gap v : jsstring) :
  gap <> [] -> Forall (fun c => is_space c = true) gap ->
  runs_from b (u ++ gap ++ v) = runs_from b u + runs_from true v.
Proof.
  intros Hne Hgap. revert b. induction u as [|c u IH]; intros b; cbn.
  - by rewrite SplitFacts.runs_skip_gap.
  - rewrite IH. lia.
Qed.

End WordFacts.

(** X6: the word count is 0 exactly for a string of whitespace only (the
    empty string included), and twice the word count is never more than the
    length plus one. *)
Theorem word_count_zero_iff_blank (sha256 : jsstring -> jsstring) (v : jsstring) :
  let props := analyzeString sha256 v in
  (Properties.word_count props = 0 <-> Forall (fun c => is_space c = true) v) /\
  2 * Properties.word_count props <= Properties.length props + 1.
Proof.
  cbn [analyzeString Properties.word_count Properties.length].
  rewrite WordFacts.count_words_is_runs. split.
  - split; [apply WordFacts.runs_zero_spaces|apply SplitFacts.runs_of_spaces].
  - apply (WordFacts.runs_bound true).
Qed.

(** X7: the word count of two strings written one after the other with
    whitespace between them is the sum of their word counts. *)
Theorem word_count_of_joined_strings (sha256 : jsstring -> jsstring)
    (u gap v : jsstring) :
  gap <> [] -> Forall (fun c => is_space c = true) gap ->
  Properties.word_count (analyzeString sha256 (u ++ gap ++ v))
  = Properties.word_count (analyzeString sha256 u)
    + Properties.word_count (analyzeString sha256 v).
Proof.
  intros Hne Hgap. cbn [analyzeString Properties.word_count].
  rewrite !WordFacts.count_words_is_runs. by apply WordFacts.runs_app_gap.
Qed.

Lemma word_count_of_joined_strings_witness :
  str " " <> [] /\ Forall (fun c => is_space c = true) (str " ") /\
  Properties.word_count
    (analyzeString (fun s => s) (str "hello big" ++ str " " ++ str "world"))
  = Properties.word_count (analyzeString (fun s => s) (str "hello big"))
    + Properties.word_count (analyzeString (fun s => s) (str "world")).
Proof.
  assert (str " " <> []) as Hne by discriminate.
  assert (Forall (fun c => is_space c = true) (str " ")) as Hgap
    by (repeat constructor).
  split; [exact Hne|]. split; [exact Hgap|].
  exact (word_count_of_joined_strings (fun s => s) (str "hello big") (str " ")
           (str "world") Hne Hgap).
Defined.

(** ** More on the filter and the list handlers *)

Module KeepFacts.
Import Double.
Local Open Scope Z_scope.

Lemma of_nat_exact (n : nat) : Z.of_nat n <= 2 ^ 53 -> of_nat n = Int (Z.of_nat n).
Proof. intros Hn. apply DoubleFacts.of_Z_small. lia. Qed.

Lemma includes_char (v : jsstring) (c : ascii) :
  includes v [c] = true <-> c ∈ v.
Proof.
  rewrite InterpreterFacts.includes_spec. split.
  - intros (pre & post & ->). set_solver.
  - intros (pre & post & ->)%list_elem_of_split. by exists pre, post.
Qed.

Lemma keeps_empty (rec : StringRecord) : keeps Filters.empty rec = true.
Proof. reflexivity. Qed.

Lemma filter_everything (f : Filters.t) (strings : list StringRecord) :
  (forall rec, keeps f rec = true) -> List.filter (keeps f) strings = strings.
Proof.
  intros H. induction strings as [|rec strings IH]; [done|].
  cbn. by rewrite H, IH.
Qed.

Lemma filter_sublist {A} (p : A -> bool) (l : list A) :
  sublist (List.filter p l) l.
Proof.
  induction l as [|x l IH]; [done|]. cbn.
  destruct (p x); [by apply sublist_skip|by apply sublist_cons].
Qed.

Lemma elem_of_filter {A} (p : A -> bool) (l : list A) (x : A) :
  x ∈ List.filter p l <-> x ∈ l /\ p x = true.
Proof. rewrite !list_elem_of_In. apply filter_In. Qed.

Lemma keeps_split (f : Filters.t) (rec : StringRecord) :
  keeps f rec = true <->
  undefined_or (Filters.is_palindrome f)
    (fun v => negb (Bool.eqb (Properties.is_palindrome (properties rec)) v)) = false /\
  undefined_or (Filters.min_length f)
    (fun v => lt (of_nat (Properties.length (properties rec))) v) = false /\
  undefined_or (Filters.max_length f)
    (fun v => gt (of_nat (Properties.length (properties rec))) v) = false /\
  undefined_or (Filters.word_count f)
    (fun v => negb (eq (of_nat (Properties.word_count (properties rec))) v)) = false /\
  undefined_or (Filters.contains_character f)
    (fun v => negb (includes (value rec) v)) = false.
Proof.
  unfold keeps. cbv zeta.
  repeat match goal with
         | |- context [if ?b then false else _] => destruct b
         end; intuition congruence.
Qed.

End KeepFacts.

(** X8: the filter is the conjunction of the criteria that are present,
    with both length bounds inclusive: a record is kept exactly when its
    palindrome flag equals the one asked for, its length is at least
    [min_length] and at most [max_length], its word count equals [word_count],
    and its raw value contains [contains_character]. *)
Theorem keeps_is_conjunction (p : option bool) (lo hi wc : option Z)
    (cc : option jsstring) (rec : StringRecord) :
  let len := Z.of_nat (Properties.length (properties rec)) in
  let words := Z.of_nat (Properties.word_count (properties rec)) in
  (len <= 2 ^ 53)%Z -> (words <= 2 ^ 53)%Z ->
  keeps (Filters.Make p (Int <$> lo) (Int <$> hi) (Int <$> wc) cc) rec = true <->
  (forall b, p = Some b -> Properties.is_palindrome (properties rec) = b) /\
  (forall z, lo = Some z -> (z <= len)%Z) /\
  (forall z, hi = Some z -> (len <= z)%Z) /\
  (forall z, wc = Some z -> words = z) /\
  (forall v, cc = Some v -> includes (value rec) v = true).
Proof.
  intros len words Hlen Hwords. rewrite KeepFacts.keeps_split.
  unfold undefined_or.
  cbn [Filters.is_palindrome Filters.min_length Filters.max_length
       Filters.word_count Filters.contains_character].
  rewrite !KeepFacts.of_nat_exact by done. fold len words.
  unfold Double.gt, Double.lt, Double.eq.
  destruct p as [b|], lo as [l|], hi as [h|], wc as [w|], cc as [v|]; cbn;
    rewrite ?negb_false_iff, ?Z.ltb_ge, ?Z.eqb_eq, ?eqb_true_iff;
    (split;
     [intros (? & ? & ? & ? & ?); split_and!; intros ? ?; by simplify_eq
     |intros (H1 & H2 & H3 & H4 & H5); split_and!; eauto]).
Qed.

Lemma keeps_is_conjunction_witness :
  let rec :=
    MkRecord (str "id") (str "racecar")
      (analyzeString (fun s => s) (str "racecar")) (str "now") in
  keeps (Filters.Make (Some true) (Some (Int 5)) (Some (Int 7)) (Some (Int 1))
           (Some (str "c"))) rec = true.
Proof.
  intros rec.
  apply (proj2 (keeps_is_conjunction (Some true) (Some 5%Z) (Some 7%Z) (Some 1%Z)
                  (Some (str "c")) rec ltac:(by vm_compute) ltac:(by vm_compute))).
  split_and!; intros ? [= <-]; by vm_compute.
Defined.

(** ** The checks of the structured list handler *)

Module QueryFacts.
Import Double.

Lemma drop_spaces_app (sp s : jsstring) :
  Forall (fun c => is_space c = true) sp ->
  drop_while is_space (sp ++ s) = drop_while is_space s.
Proof. induction 1 as [|c sp Hc _ IH]; [done|]. cbn. by rewrite Hc. Qed.

Lemma take_digits_nonempty (ds rest : jsstring) :
  all_digits ds -> take_while is_digit (ds ++ rest) <> [].
Proof.
  intros [Hne Hall]. destruct Hall as [|d ds Hd Hall]; [done|]. cbn. by rewrite Hd.
Qed.

Lemma of_Z_not_NaN (z : Z) : of_Z z <> NaN.
Proof. unfold of_Z. by destruct (_ <=? _)%Z. Qed.

Lemma parseInt10_minus (s : jsstring) :
  parseInt10 ("-"%char :: s)
  = match take_while is_digit s with
    | [] => NaN
    | ds => of_Z (- digits_value ds)
    end.
Proof. reflexivity. Qed.

Lemma parseInt10_plus (s : jsstring) :
  parseInt10 ("+"%char :: s)
  = match take_while is_digit s with
    | [] => NaN
    | ds => of_Z (digits_value ds)
    end.
Proof. reflexivity. Qed.

Lemma parseInt10_spaces (sp s : jsstring) :
  Forall (fun c => is_space c = true) sp -> parseInt10 (sp ++ s) = parseInt10 s.
Proof. intros Hsp. unfold parseInt10, trim_start. by rewrite drop_spaces_app. Qed.

(** [parseInt(v, 10)] is a number exactly when [v] starts with an integer. *)
Lemma parseInt10_number (v : jsstring) :
  parseInt10 v <> NaN <-> starts_with_integer v.
Proof.
  split.
  - unfold parseInt10.
    pose proof (SplitFacts.take_drop_while is_space v) as Hv.
    pose proof (SplitFacts.take_while_all is_space v) as Hsp.
    unfold trim_start. set (s1 := drop_while is_space v) in *.
    assert (forall sign s2,
              s1 = sign ++ s2 ->
              (sign = [] \/ sign = str "-" \/ sign = str "+") ->
              take_while is_digit s2 <> [] ->
              starts_with_integer v) as Hbuild.
    { intros sign s2 Hs1 Hsign Hnum.
      exists (take_while is_space v), sign, (take_while is_digit s2),
        (drop_while is_digit s2).
      split_and!; try done.
      - rewrite <- SplitFacts.take_drop_while, <- Hs1. exact Hv.
      - split; [done|apply SplitFacts.take_while_all]. }
    destruct s1 as [|c s'] eqn:Hs1.
    + cbn. intros Hnum. done.
    + destruct (Ascii.eqb_spec c "-") as [->|Hminus].
      * intros Hnum. apply (Hbuild (str "-") s'); [done|by right; left|].
        by destruct (take_while is_digit s').
      * destruct (Ascii.eqb_spec c "+") as [->|Hplus].
        -- intros Hnum. apply (Hbuild (str "+") s'); [done|by right; right|].
           by destruct (take_while is_digit s').
        -- intros Hnum. apply (Hbuild [] (c :: s')); [done|by left|].
           by destruct (take_while is_digit (c :: s')).
  - intros (sp & sign & ds & rest & -> & Hsp & Hsign & Hd).
    rewrite parseInt10_spaces by done.
    pose proof (take_digits_nonempty ds rest Hd) as Hne.
    destruct Hsign as [->|[->| ->]].
    + cbn [app]. destruct Hd as [Hne' Hall].
      destruct Hall as [|d ds Hdig Hall]; [done|].
      unfold parseInt10, trim_start. cbn [app drop_while].
      rewrite (NumberFacts.digit_not_space d Hdig).
      destruct (Ascii.eqb_spec d "-") as [->|_]; [by vm_compute in Hdig|].
      destruct (Ascii.eqb_spec d "+") as [->|_]; [by vm_compute in Hdig|].
      change (d :: ds ++ rest) with ((d :: ds) ++ rest) in *.
      destruct (take_while is_digit ((d :: ds) ++ rest)); [done|].
      apply of_Z_not_NaN.
    + change (str "-" ++ ds ++ rest) with ("-"%char :: ds ++ rest).
      rewrite parseInt10_minus.
      destruct (take_while is_digit (ds ++ rest)); [done|]. apply of_Z_not_NaN.
    + change (str "+" ++ ds ++ rest) with ("+"%char :: ds ++ rest).
      rewrite parseInt10_plus.
      destruct (take_while is_digit (ds ++ rest)); [done|]. apply of_Z_not_NaN.
Qed.

Lemma isNaN_false (x : Number) : isNaN x = false <-> x <> NaN.
Proof. by destruct x. Qed.

Lemma present_none {A} (P : A -> Prop) : present None P.
Proof. by intros v. Qed.

Lemma present_some {A} (P : A -> Prop) (v : A) : present (Some v) P <-> P v.
Proof. split; [intros H; by apply H|by intros H ? [= <-]]. Qed.

(** Each check lets its key through or answers 400 with its own
    complaint. *)
Lemma parse_is_palindrome_cases (v : option jsstring) (f : Filters.t) :
  (present v boolean_token /\ exists g, parse_is_palindrome v f = inr g) \/
  (~ present v boolean_token /\
   parse_is_palindrome v f
   = inl (Response 400 (ErrorBody "is_palindrome must be true or false"))).
Proof.
  destruct v as [v|]; [|left; split; [apply present_none|by eexists]].
  rewrite present_some. unfold parse_is_palindrome, boolean_token. cbv zeta.
  destruct (decide (toLowerCase v = str "true")) as [Ht|Ht];
    destruct (decide (toLowerCase v = str "false")) as [Hf|Hf];
    rewrite ?(bool_decide_eq_true_2 _ Ht), ?(bool_decide_eq_false_2 _ Ht),
      ?(bool_decide_eq_true_2 _ Hf), ?(bool_decide_eq_false_2 _ Hf); cbn;
    [left|left|left|right]; (split; [tauto|eauto]).
Qed.

Lemma parse_integer_cases (v : option jsstring) (complaint : string)
    (set : Number -> Filters.t -> Filters.t) (f : Filters.t) :
  (present v starts_with_integer /\
   exists g, parse_integer v complaint set f = inr g) \/
  (~ present v starts_with_integer /\
   parse_integer v complaint set f = inl (Response 400 (ErrorBody complaint))).
Proof.
  destruct v as [v|]; [|left; split; [apply present_none|by eexists]].
  rewrite present_some, <- parseInt10_number, <- isNaN_false.
  unfold parse_integer. cbv zeta.
  destruct (isNaN (parseInt10 v)); [right|left]; (split; [done|eauto]).
Qed.

Lemma parse_contains_character_cases (v : option jsstring) (f : Filters.t) :
  (present v character_token /\
   exists g, parse_contains_character v f = inr g) \/
  (~ present v character_token /\
   parse_contains_character v f
   = inl (Response 400
            (ErrorBody "contains_character must be a single character string"))).
Proof.
  destruct v as [v|]; [|left; split; [apply present_none|by eexists]].
  rewrite present_some. unfold parse_contains_character, character_token.
  destruct (Nat.eqb_spec (length v) 1); cbn; [left|right]; (split; [done|eauto]).
Qed.

Lemma parse_query_cases (query : Query.t) :
  (valid_query query /\ exists f, parse_query query = inr f) \/
  (~ valid_query query /\
   exists msg, parse_query query = inl (Response 400 (ErrorBody msg))).
Proof.
  unfold parse_query, and_then, valid_query.
  destruct (parse_is_palindrome_cases (Query.is_palindrome query) Filters.empty)
    as [[H1 [f1 ->]]|[H1 ->]]; [|right; split; [tauto|eauto]].
  destruct (parse_integer_cases (Query.min_length query)
              "min_length must be integer" Filters.set_min_length f1)
    as [[H2 [f2 ->]]|[H2 ->]]; [|right; split; [tauto|eauto]].
  destruct (parse_integer_cases (Query.max_length query)
              "max_length must be integer" Filters.set_max_length f2)
    as [[H3 [f3 ->]]|[H3 ->]]; [|right; split; [tauto|eauto]].
  destruct (parse_integer_cases (Query.word_count query)
              "word_count must be integer" Filters.set_word_count f3)
    as [[H4 [f4 ->]]|[H4 ->]]; [|right; split; [tauto|eauto]].
  destruct (parse_contains_character_cases (Query.contains_character query) f4)
    as [[H5 [f5 ->]]|[H5 ->]]; [|right; split; [tauto|eauto]].
  left. split; [tauto|eauto].
Qed.

End QueryFacts.

Module RawFacts.

Lemma raw_is_palindrome_cases (v : option query_value) (f : Filters.t) :
  (present v (a_string boolean_token) /\
   exists g, Raw.parse_is_palindrome v f = inr g) \/
  (~ present v (a_string boolean_token) /\
   exists msg, Raw.parse_is_palindrome v f = inl (Response 400 (ErrorBody msg))) \/
  (~ present v (a_string boolean_token) /\
   (exists converted, v = Some (QOther converted)) /\
   Raw.parse_is_palindrome v f = inl Raw.internal_error).
Proof.
  destruct v as [[s|converted]|].
  - cbn [Raw.parse_is_palindrome].
    destruct (QueryFacts.parse_is_palindrome_cases (Some s) f)
      as [[Hp [g ->]]|[Hp ->]]; [left|right; left].
    + split; [|by eexists]. intros v [= <-]. exists s. split; [done|].
      by apply Hp.
    + split; [|by eexists]. intros H. apply Hp. intros ? [= <-].
      by destruct (H _ eq_refl) as (s' & [= <-] & ?).
  - right; right. split_and!; [|by eexists|done].
    intros H. by destruct (H _ eq_refl) as (s' & ? & _).
  - left. split; [by intros ?|by eexists].
Qed.

Lemma raw_integer_cases (v : option query_value) (complaint : string)
    (set : Number -> Filters.t -> Filters.t) (f : Filters.t) :
  (present v (converts_to starts_with_integer) /\
   exists g, Raw.parse_integer v complaint set f = inr g) \/
  (~ present v (converts_to starts_with_integer) /\
   exists msg, Raw.parse_integer v complaint set f
               = inl (Response 400 (ErrorBody msg))) \/
  (~ present v (converts_to starts_with_integer) /\
   v = Some (QOther None) /\
   Raw.parse_integer v complaint set f = inl Raw.internal_error).
Proof.
  destruct v as [v|]; [|left; split; [by intros ?|by eexists]].
  cbn [Raw.parse_integer]. destruct (Raw.to_string v) as [s|] eqn:Hs.
  - destruct (QueryFacts.parse_integer_cases (Some s) complaint set f)
      as [[Hp [g ->]]|[Hp ->]]; [left|right; left].
    + split; [|by eexists]. intros ? [= <-]. exists s. split; [done|].
      by apply Hp.
    + split; [|by eexists]. intros H. apply Hp. intros ? [= <-].
      destruct (H _ eq_refl) as (s' & Hs' & ?). congruence.
  - right; right. destruct v as [s|[s|]]; try done. split_and!; try done.
    intros H. by destruct (H _ eq_refl) as (s' & ? & _).
Qed.

Lemma raw_contains_character_cases (v : option query_value) (f : Filters.t) :
  (present v (a_string character_token) /\
   exists g, Raw.parse_contains_character v f = inr g) \/
  (~ present v (a_string character_token) /\
   exists msg, Raw.parse_contains_character v f
               = inl (Response 400 (ErrorBody msg))).
Proof.
  destruct v as [[s|converted]|].
  - cbn [Raw.parse_contains_character].
    destruct (QueryFacts.parse_contains_character_cases (Some s) f)
      as [[Hp [g ->]]|[Hp ->]]; [left|right].
    + split; [|by eexists]. intros v [= <-]. exists s. split; [done|].
      by apply Hp.
    + split; [|by eexists]. intros H. apply Hp. intros ? [= <-].
      by destruct (H _ eq_refl) as (s' & [= <-] & ?).
  - right. split; [|by eexists].
    intros H. by destruct (H _ eq_refl) as (s' & ? & _).
  - left. split; [by intros ?|by eexists].
Qed.

Lemma raw_query_cases (query : RawQuery.t) :
  (valid_raw_query query /\ exists f, Raw.parse_query query = inr f) \/
  (~ valid_raw_query query /\
   exists msg, Raw.parse_query query = inl (Response 400 (ErrorBody msg))) \/
  (~ valid_raw_query query /\ throwing_entry query /\
   Raw.parse_query query = inl Raw.internal_error).
Proof.
  unfold Raw.parse_query, and_then, valid_raw_query, throwing_entry.
  destruct (raw_is_palindrome_cases (RawQuery.is_palindrome query) Filters.empty)
    as [[H1 [f1 ->]]|[[H1 [m ->]]|(H1 & Ht & ->)]];
    [|right; left; split; [tauto|eauto]|right; right; split_and!; [tauto|tauto|done]].
  destruct (raw_integer_cases (RawQuery.min_length query)
              "min_length must be integer" Filters.set_min_length f1)
    as [[H2 [f2 ->]]|[[H2 [m ->]]|(H2 & Ht & ->)]];
    [|right; left; split; [tauto|eauto]|right; right; split_and!; [tauto|tauto|done]].
  destruct (raw_integer_cases (RawQuery.max_length query)
              "max_length must be integer" Filters.set_max_length f2)
    as [[H3 [f3 ->]]|[[H3 [m ->]]|(H3 & Ht & ->)]];
    [|right; left; split; [tauto|eauto]|right; right; split_and!; [tauto|tauto|done]].
  destruct (raw_integer_cases (RawQuery.word_count query)
              "word_count must be integer" Filters.set_word_count f3)
    as [[H4 [f4 ->]]|[[H4 [m ->]]|(H4 & Ht & ->)]];
    [|right; left; split; [tauto|eauto]|right; right; split_and!; [tauto|tauto|done]].
  destruct (raw_contains_character_cases (RawQuery.contains_character query) f4)
    as [[H5 [f5 ->]]|[H5 [m ->]]]; [left|right; left]; (split; [tauto|eauto]).
Qed.

(** On a query of strings the handler is the one of the string model. *)
Lemma get_strings_of_strings (query : Query.t) (strings : list StringRecord) :
  Raw.get_strings (RawQuery.of_strings query) strings = get_strings query strings.
Proof. by destruct query as [[?|] [?|] [?|] [?|] [?|]]. Qed.

End RawFacts.

(** X9: the structured list handler answers 200 exactly when every key
    that is present passes its check: [is_palindrome] is a string that reads
    "true" or "false" in any letter case; each of the three numeric keys,
    converted to a string as [parseInt] does, starts (after optional
    whitespace and an optional sign) with a decimal digit; and
    [contains_character] is a string of one code unit.  Every other query is
    answered 400 or 500, whatever the store holds: 500 only when an entry
    makes the handler throw, which an [is_palindrome] that is an array or an
    object always does; a query whose entries are all strings is answered 200
    or 400. *)
Theorem structured_list_accepts_exactly_passing_queries
    (query : RawQuery.t) (strings : list StringRecord) :
  let answer := Raw.get_strings query strings in
  (status answer = 200%Z <-> valid_raw_query query) /\
  (status answer = 200%Z \/ status answer = 400%Z \/ status answer = 500%Z) /\
  (status answer = 500%Z -> throwing_entry query) /\
  (forall converted,
     RawQuery.is_palindrome query = Some (QOther converted) ->
     answer = Raw.internal_error) /\
  (forall q : Query.t,
     query = RawQuery.of_strings q ->
     answer = get_strings q strings /\
     (status answer = 200%Z <-> valid_query q) /\
     (status answer = 400%Z <-> ~ valid_query q)).
Proof.
  cbv zeta. split_and!.
  - unfold Raw.get_strings.
    destruct (RawFacts.raw_query_cases query)
      as [[Hv [f ->]]|[[Hv [msg ->]]|(Hv & Ht & ->)]]; cbn; by split.
  - unfold Raw.get_strings.
    destruct (RawFacts.raw_query_cases query)
      as [[Hv [f ->]]|[[Hv [msg ->]]|(Hv & Ht & ->)]]; cbn; tauto.
  - unfold Raw.get_strings.
    destruct (RawFacts.raw_query_cases query)
      as [[Hv [f ->]]|[[Hv [msg ->]]|(Hv & Ht & ->)]]; cbn; by try done.
  - intros converted Hp. unfold Raw.get_strings, Raw.parse_query. by rewrite Hp.
  - intros q ->. rewrite RawFacts.get_strings_of_strings. split; [done|].
    unfold get_strings.
    destruct (QueryFacts.parse_query_cases q)
      as [[Hv [f ->]]|[Hv [msg ->]]]; cbn; split; split; try done.
Qed.

Lemma structured_list_accepts_exactly_passing_queries_witness :
  Raw.get_strings
    (RawQuery.Make (Some (QOther (Some (str "true,false")))) None None None None) []
  = Raw.internal_error.
Proof.
  by apply (structured_list_accepts_exactly_passing_queries
              (RawQuery.Make (Some (QOther (Some (str "true,false")))) None None
                 None None) [] ) with (converted := Some (str "true,false")).
Defined.

(** X10: the complaint of the structured list handler names the first key,
    in the order [is_palindrome], [min_length], [max_length], [word_count],
    [contains_character], that fails its check; later keys are not looked
    at. *)
Theorem structured_list_names_first_failing_key
    (query : Query.t) (strings : list StringRecord) :
  let complains msg := get_strings query strings = Response 400 (ErrorBody msg) in
  let ok_palindrome := present (Query.is_palindrome query) boolean_token in
  let ok_min := present (Query.min_length query) starts_with_integer in
  let ok_max := present (Query.max_length query) starts_with_integer in
  let ok_words := present (Query.word_count query) starts_with_integer in
  let ok_character := present (Query.contains_character query) character_token in
  (~ ok_palindrome -> complains "is_palindrome must be true or false"%string) /\
  (ok_palindrome -> ~ ok_min -> complains "min_length must be integer"%string) /\
  (ok_palindrome -> ok_min -> ~ ok_max ->
   complains "max_length must be integer"%string) /\
  (ok_palindrome -> ok_min -> ok_max -> ~ ok_words ->
   complains "word_count must be integer"%string) /\
  (ok_palindrome -> ok_min -> ok_max -> ok_words -> ~ ok_character ->
   complains "contains_character must be a single character string"%string).
Proof.
  cbv zeta. unfold get_strings, parse_query, and_then.
  destruct (QueryFacts.parse_is_palindrome_cases (Query.is_palindrome query)
              Filters.empty)
    as [[H1 [f1 ->]]|[H1 ->]]; [|by split_and!].
  destruct (QueryFacts.parse_integer_cases (Query.min_length query)
              "min_length must be integer" Filters.set_min_length f1)
    as [[H2 [f2 ->]]|[H2 ->]]; [|by split_and!].
  destruct (QueryFacts.parse_integer_cases (Query.max_length query)
              "max_length must be integer" Filters.set_max_length f2)
    as [[H3 [f3 ->]]|[H3 ->]]; [|by split_and!].
  destruct (QueryFacts.parse_integer_cases (Query.word_count query)
              "word_count must be integer" Filters.set_word_count f3)
    as [[H4 [f4 ->]]|[H4 ->]]; [|by split_and!].
  destruct (QueryFacts.parse_contains_character_cases
              (Query.contains_character query) f4)
    as [[H5 [f5 ->]]|[H5 ->]]; by split_and!.
Qed.

Lemma structured_list_names_first_failing_key_witness :
  get_strings
    (Query.Make (Some (str "yes")) (Some (str "ten")) None None (Some (str "ab")))
    []
  = Response 400 (ErrorBody "is_palindrome must be true or false") /\
  get_strings
    (Query.Make (Some (str "TRUE")) (Some (str "ten")) None None (Some (str "ab")))
    []
  = Response 400 (ErrorBody "min_length must be integer") /\
  get_strings
    (Query.Make (Some (str "TRUE")) (Some (str " -10")) None None (Some (str "ab")))
    []
  = Response 400 (ErrorBody "contains_character must be a single character string").
Proof.
  split_and!.
  - apply (proj1 (structured_list_names_first_failing_key
                    (Query.Make (Some (str "yes")) (Some (str "ten")) None None
                       (Some (str "ab"))) [])).
    intros H. by destruct (H _ eq_refl).
  - apply (proj1 (proj2 (structured_list_names_first_failing_key
                    (Query.Make (Some (str "TRUE")) (Some (str "ten")) None None
                       (Some (str "ab"))) []))).
    + intros v Hv. cbn in Hv. injection Hv as <-. by left.
    + intros H. by apply (proj2 (QueryFacts.parseInt10_number _) (H _ eq_refl)).
  - apply (proj2 (proj2 (proj2 (proj2 (structured_list_names_first_failing_key
                    (Query.Make (Some (str "TRUE")) (Some (str " -10")) None None
                       (Some (str "ab"))) []))))).
    + intros v Hv. cbn in Hv. injection Hv as <-. by left.
    + intros v Hv. cbn in Hv. injection Hv as <-.
      by apply QueryFacts.parseInt10_number.
    + intros v Hv. cbn in Hv. discriminate Hv.
    + intros v Hv. cbn in Hv. discriminate Hv.
    + intros H. by pose proof (H _ eq_refl).
Defined.

(** X11: what the two list handlers send with status 200 is taken from the
    store: [data] holds exactly the stored records that the filter keeps, in
    stored order and no more often than stored, [count] is their number, and
    the criteria sent back are the ones the records were filtered with, read
    from the request alone; the natural-language handler sends back the
    parameter as it came. *)
Theorem list_handlers_select_from_the_store
    (decodeURIComponent : jsstring -> option jsstring)
    (query : Query.t) (q : option jsstring) (strings : list StringRecord) :
  (status (get_strings query strings) = 200%Z ->
   exists data f,
     json (get_strings query strings) = ListBody data (length data) f /\
     parse_query query = inr f /\
     sublist data strings /\
     forall rec, rec ∈ data <-> rec ∈ strings /\ keeps f rec = true) /\
  (status (filter_by_natural_language decodeURIComponent q strings) = 200%Z ->
   exists data original phrase f,
     json (filter_by_natural_language decodeURIComponent q strings)
     = InterpretedBody data (length data) original f /\
     q = Some original /\
     decodeURIComponent original = Some phrase /\
     parseNaturalLanguageQuery phrase = inr f /\
     sublist data strings /\
     forall rec, rec ∈ data <-> rec ∈ strings /\ keeps f rec = true).
Proof.
  split.
  - unfold get_strings.
    destruct (QueryFacts.parse_query_cases query)
      as [[Hv [f ->]]|[Hv [msg ->]]]; [|done].
    intros _. exists (List.filter (keeps f) strings), f. split_and!; try done.
    + apply KeepFacts.filter_sublist.
    + intros rec. apply KeepFacts.elem_of_filter.
  - unfold filter_by_natural_language.
    destruct q as [[|c q]|]; [done| |done].
    destruct (decodeURIComponent (c :: q)) as [phrase|] eqn:Hd; [|done].
    destruct (parseNaturalLanguageQuery phrase) as [err|f] eqn:Hp.
    { by case_bool_decide. }
    intros _. exists (List.filter (keeps f) strings), (c :: q), phrase, f.
    split_and!; try done.
    + apply KeepFacts.filter_sublist.
    + intros rec. apply KeepFacts.elem_of_filter.
Qed.

Lemma list_handlers_select_from_the_store_witness :
  let rec v := MkRecord v v (analyzeString (fun s => s) v) (str "now") in
  let strings := [rec (str "level"); rec (str "two words"); rec (str "noon")] in
  let answer :=
    get_strings (Query.Make (Some (str "true")) None None None None) strings in
  let interpreted :=
    filter_by_natural_language Some (Some (str "palindromic strings")) strings in
  (exists data f,
     json answer = ListBody data (length data) f /\
     parse_query (Query.Make (Some (str "true")) None None None None) = inr f /\
     sublist data strings /\
     forall r, r ∈ data <-> r ∈ strings /\ keeps f r = true) /\
  (exists data original phrase f,
     json interpreted = InterpretedBody data (length data) original f /\
     Some (str "palindromic strings") = Some original /\
     Some original = Some phrase /\
     parseNaturalLanguageQuery phrase = inr f /\
     sublist data strings /\
     forall r, r ∈ data <-> r ∈ strings /\ keeps f r = true).
Proof.
  intros rec strings answer interpreted.
  pose proof (list_handlers_select_from_the_store Some
                (Query.Make (Some (str "true")) None None None None)
                (Some (str "palindromic strings")) strings) as [H1 H2].
  split; [by apply H1|by apply H2].
Defined.

(** X12: for a record that carries the analysis of its value, filtering on
    one code unit [c] keeps the record exactly when [c] is a key of its
    [character_frequency_map]: the test on the raw value and the stored map
    agree. *)
Theorem contains_character_agrees_with_frequency_map
    (sha256 : jsstring -> jsstring) (c : ascii) (ident v created : jsstring) :
  let rec := MkRecord ident v (analyzeString sha256 v) created in
  keeps (Filters.set_contains_character [c] Filters.empty) rec = true <->
  is_Some (Properties.character_frequency_map (properties rec) !! c).
Proof.
  cbv zeta. unfold keeps. cbn.
  rewrite FrequencyFacts.lookup_frequency.
  pose proof (FrequencyFacts.occurrences_pos c v) as Hpos.
  pose proof (KeepFacts.includes_char v c) as Hin.
  destruct (includes v [c]), (occurrences c v) as [|n]; cbn; split; intros H;
    try done; try (by eexists); exfalso.
  - apply Hin, Hpos in H. lia.
  - assert (0 < S n) as Hn%Hpos%Hin by lia. done.
Qed.

(** ** More on the record store *)

Module DeleteFacts.

Lemma findIndex_none {A} (p : A -> bool) (l : list A) :
  findIndex p l = None <-> List.find p l = None.
Proof.
  induction l as [|x l IH]; [done|]. cbn. destruct (p x); [done|].
  rewrite <- IH. by destruct (findIndex p l).
Qed.

Lemma findIndex_some {A} (p : A -> bool) (l : list A) (i : nat) :
  findIndex p l = Some i ->
  exists x, l !! i = Some x /\ p x = true /\ List.find p l = Some x.
Proof.
  revert i. induction l as [|x l IH]; intros i; [done|]. cbn.
  destruct (p x) eqn:Hp.
  - intros [= <-]. by exists x.
  - destruct (findIndex p l) as [j|]; [|done]. intros [= <-].
    destruct (IH j eq_refl) as (y & ? & ? & ?). by exists y.
Qed.

Lemma findIndex_app_new {A} (p : A -> bool) (l : list A) (x : A) :
  List.find p l = None -> p x = true -> findIndex p (l ++ [x]) = Some (length l).
Proof.
  intros Hnone Hx. induction l as [|y l IH]; cbn in *; [by rewrite Hx|].
  destruct (p y); [done|]. by rewrite IH.
Qed.

Lemma delete_app_last {A} (l : list A) (x : A) : delete (length l) (l ++ [x]) = l.
Proof. induction l as [|y l IH]; [done|]. cbn. f_equal. exact IH. Qed.

Lemma find_by_id_none (ident : jsstring) (strings : list StringRecord) :
  find_by_id ident strings = None <-> ident ∉ id <$> strings.
Proof.
  unfold find_by_id. induction strings as [|s strings IH]; cbn.
  - split; [intros _ ?%elem_of_nil|]; done.
  - rewrite not_elem_of_cons. case_bool_decide as Hs.
    + split; [done|]. intros [Hne _]. by destruct Hne.
    + rewrite IH. split; [by split; [congruence|]|by intros [_ ?]].
Qed.

Lemma find_by_id_some (ident : jsstring) (strings : list StringRecord)
    (rec : StringRecord) :
  find_by_id ident strings = Some rec -> rec ∈ strings /\ id rec = ident.
Proof.
  unfold find_by_id. intros [Hin Hid]%find_some.
  split; [by apply list_elem_of_In|by apply bool_decide_eq_true in Hid].
Qed.

(** Without the record found first, the id is gone when ids are unique. *)
Lemma find_after_delete (ident : jsstring) (strings : list StringRecord)
    (i : nat) :
  NoDup (id <$> strings) ->
  findIndex (fun s => bool_decide (id s = ident)) strings = Some i ->
  find_by_id ident (delete i strings) = None.
Proof.
  revert i. induction strings as [|s strings IH]; intros i; [done|].
  cbn [fmap list_fmap]. intros [Hnew Hnd]%NoDup_cons. cbn.
  case_bool_decide as Hs.
  - intros [= <-]. cbn. apply find_by_id_none. by rewrite <- Hs.
  - destruct (findIndex _ strings) as [j|] eqn:Hj; [|done]. intros [= <-]. cbn.
    unfold find_by_id. cbn. rewrite bool_decide_eq_false_2 by done.
    by apply IH.
Qed.

(** Deleting the record of one id leaves the lookups of the others. *)
Lemma find_other_after_delete (ident other : jsstring)
    (strings : list StringRecord) (i : nat) :
  other <> ident ->
  findIndex (fun s => bool_decide (id s = ident)) strings = Some i ->
  find_by_id other (delete i strings) = find_by_id other strings.
Proof.
  intros Hne. revert i. induction strings as [|s strings IH]; intros i; [done|].
  cbn. case_bool_decide as Hs.
  - intros [= <-]. cbn. unfold find_by_id. cbn.
    rewrite bool_decide_eq_false_2; [done|congruence].
  - destruct (findIndex _ strings) as [j|] eqn:Hj; [|done]. intros [= <-]. cbn.
    unfold find_by_id in *. cbn. case_bool_decide; [done|]. by apply IH.
Qed.

Lemma find_other_after_push (other : jsstring) (strings : list StringRecord)
    (rec : StringRecord) :
  other <> id rec ->
  find_by_id other (strings ++ [rec]) = find_by_id other strings.
Proof.
  intros Hne. unfold find_by_id. induction strings as [|s strings IH]; cbn.
  - rewrite bool_decide_eq_false_2; [done|congruence].
  - by case_bool_decide.
Qed.

(** In a well-formed store a record is the one found under the hash of its
    value. *)
Lemma find_stored sha256 (strings : list StringRecord) (rec : StringRecord) :
  well_formed sha256 strings -> rec ∈ strings ->
  find_by_id (sha256 (value rec)) strings = Some rec.
Proof.
  intros [Hall Hnd] Hin. unfold find_by_id.
  induction strings as [|s strings IH]; [by apply elem_of_nil in Hin|].
  apply Forall_cons in Hall as [[Hid _] Hall].
  cbn [fmap list_fmap] in Hnd. apply NoDup_cons in Hnd as [Hnew Hnd].
  assert (forall r, r ∈ strings -> id r = sha256 (value r)) as Hids.
  { intros r Hr. by apply (proj1 (Forall_forall _ _) Hall r Hr). }
  cbn. apply elem_of_cons in Hin as [->|Hin].
  - by rewrite bool_decide_eq_true_2.
  - rewrite bool_decide_eq_false_2; [by apply IH|].
    intros Hs. apply Hnew. rewrite Hs, <- (Hids rec Hin).
    by apply list_elem_of_fmap_2.
Qed.

Lemma well_formed_nil sha256 : well_formed sha256 [].
Proof. split; [done|]. cbn. apply NoDup_nil_2. Qed.

Lemma well_formed_push sha256 (strings : list StringRecord) (v created : jsstring) :
  well_formed sha256 strings ->
  find_by_id (sha256 v) strings = None ->
  well_formed sha256
    (strings ++ [MkRecord (sha256 v) v (analyzeString sha256 v) created]).
Proof.
  intros [Hall Hnd] Hnone%find_by_id_none. split.
  - apply Forall_app. split; [done|]. by apply Forall_singleton.
  - rewrite fmap_app. apply NoDup_app. split_and!; [done| |apply NoDup_singleton].
    cbn. intros x Hx ->%list_elem_of_singleton. done.
Qed.

Lemma well_formed_delete sha256 (strings : list StringRecord) (i : nat) :
  well_formed sha256 strings -> well_formed sha256 (delete i strings).
Proof.
  intros [Hall Hnd]. split.
  - by apply Forall_delete.
  - rewrite list_fmap_delete. eapply sublist_NoDup; [done|apply sublist_delete].
Qed.

Section Handlers.
Variable sha256 : jsstring -> jsstring.
Variable decodeURIComponent : jsstring -> option jsstring.

Lemma post_strings_cases (now v : jsstring) (strings : list StringRecord) :
  (find_by_id (sha256 v) strings = None /\
   post_strings sha256 now v strings
   = (Response 201
        (RecordBody (MkRecord (sha256 v) v (analyzeString sha256 v) now)),
      strings ++ [MkRecord (sha256 v) v (analyzeString sha256 v) now])) \/
  (is_Some (find_by_id (sha256 v) strings) /\
   post_strings sha256 now v strings
   = (Response 409 (ErrorBody "String already exists in the system"), strings)).
Proof.
  unfold post_strings. cbn.
  destruct (find_by_id (sha256 v) strings) eqn:Hf; [right|left]; by eauto.
Qed.

Lemma delete_string_cases (param : jsstring) (strings : list StringRecord) :
  (decodeURIComponent param = None /\
   delete_string sha256 decodeURIComponent param strings
   = (Json (Response 500 (ErrorBody "Internal server error")), strings)) \/
  (exists v, decodeURIComponent param = Some v /\
     find_by_id (sha256 v) strings = None /\
     delete_string sha256 decodeURIComponent param strings
     = (Json (Response 404 (ErrorBody "String does not exist in the system")),
        strings)) \/
  (exists v i rec, decodeURIComponent param = Some v /\
     findIndex (fun s => bool_decide (id s = sha256 v)) strings = Some i /\
     strings !! i = Some rec /\
     find_by_id (sha256 v) strings = Some rec /\
     delete_string sha256 decodeURIComponent param strings
     = (NoContent 204, delete i strings)).
Proof.
  unfold delete_string.
  destruct (decodeURIComponent param) as [v|]; [right|by left].
  destruct (findIndex _ strings) as [i|] eqn:Hi.
  - right. apply findIndex_some in Hi as Hx. destruct Hx as (rec & ? & _ & ?).
    by exists v, i, rec.
  - left. exists v. by apply findIndex_none in Hi.
Qed.

(** One request keeps a well-formed store well-formed. *)
Lemma serve_well_formed (now : jsstring) (req : request) (file : data_file) :
  well_formed sha256 (stored file) ->
  well_formed sha256 (stored (snd (serve sha256 decodeURIComponent now req file))).
Proof.
  intros Hwf. destruct req as [v|param|param|query|q]; cbn.
  - assert (readDB file = (stored file, DataFile (stored file))) as ->
      by by destruct file.
    destruct (post_strings_cases now v (stored file)) as [[Hn ->]|[_ ->]]; cbn.
    + by apply well_formed_push.
    + done.
  - destruct (decodeURIComponent param); [|done]. by destruct file.
  - destruct (decodeURIComponent param) eqn:Hd; [|done].
    assert (readDB file = (stored file, DataFile (stored file))) as ->
      by by destruct file.
    destruct (delete_string_cases param (stored file))
      as [[? ->]|[(v & _ & _ & ->)|(v & i & rec & _ & _ & _ & _ & ->)]];
      cbn; try done.
    by apply well_formed_delete.
  - destruct (parse_query query); [done|]. by destruct file.
  - destruct (filter_by_natural_language decodeURIComponent q [])
      as [s b]. destruct s as [|s|s]; try done.
    repeat (destruct s as [s|s|]; try done). by destruct file.
Qed.

Lemma serve_all_well_formed (reqs : list (jsstring * request)) (file : data_file) :
  well_formed sha256 (stored file) ->
  well_formed sha256 (stored (snd (serve_all sha256 decodeURIComponent reqs file))).
Proof.
  revert file. induction reqs as [|[now req] reqs IH]; intros file Hwf; [done|].
  cbn. pose proof (serve_well_formed now req file Hwf) as H1.
  destruct (serve sha256 decodeURIComponent now req file) as [res file'].
  specialize (IH file' H1).
  by destruct (serve_all sha256 decodeURIComponent reqs file').
Qed.

End Handlers.
End DeleteFacts.

(** X13: whatever requests the server has answered since the data file was
    first created, the store it holds is well formed: every record carries
    the hash of its value as id and the analysis of its value as properties,
    and no two records share an id. *)
Theorem served_store_is_well_formed
    (sha256 : jsstring -> jsstring)
    (decodeURIComponent : jsstring -> option jsstring)
    (reqs : list (jsstring * request)) :
  well_formed sha256
    (stored (snd (serve_all sha256 decodeURIComponent reqs NoFile))).
Proof.
  apply DeleteFacts.serve_all_well_formed, DeleteFacts.well_formed_nil.
Qed.

(** X14: creating a record and then deleting it by the same raw value
    answers 204 and gives back the store as it was before the create. *)
Theorem create_then_delete_restores_the_store
    (sha256 : jsstring -> jsstring)
    (decodeURIComponent : jsstring -> option jsstring)
    (now v param : jsstring)
    (strings strings' : list StringRecord) (created : response) :
  decodeURIComponent param = Some v ->
  post_strings sha256 now v strings = (created, strings') ->
  status created = 201%Z ->
  delete_string sha256 decodeURIComponent param strings' = (NoContent 204, strings).
Proof.
  intros Hd Hpost Hst.
  destruct (DeleteFacts.post_strings_cases sha256 now v strings)
    as [[Hn Hp]|[_ Hp]]; rewrite Hp in Hpost; injection Hpost as <- <-; [|done].
  unfold delete_string. rewrite Hd. cbv zeta.
  rewrite DeleteFacts.findIndex_app_new.
  - by rewrite DeleteFacts.delete_app_last.
  - exact Hn.
  - by apply bool_decide_eq_true_2.
Qed.

Lemma create_then_delete_restores_the_store_witness :
  let sha256 := fun s : jsstring => str "sha256:" ++ s in
  let rec v := MkRecord (sha256 v) v (analyzeString sha256 v) (str "now") in
  delete_string sha256 Some (str "noon") [rec (str "level"); rec (str "noon")]
  = (NoContent 204, [rec (str "level")]).
Proof.
  intros sha256 rec.
  apply (create_then_delete_restores_the_store sha256 Some (str "now") (str "noon")
           (str "noon") [rec (str "level")] _
           (Response 201 (RecordBody (rec (str "noon"))))); reflexivity.
Defined.

(** X15: in a store without duplicate ids, after a delete answered 204 the
    record is gone: a lookup and a second delete of the same raw value both
    answer 404, the store is one record shorter, and the records of every
    other id are found as before. *)
Theorem delete_removes_the_record
    (sha256 : jsstring -> jsstring)
    (decodeURIComponent : jsstring -> option jsstring)
    (param : jsstring) (strings strings' : list StringRecord) :
  NoDup (id <$> strings) ->
  delete_string sha256 decodeURIComponent param strings = (NoContent 204, strings') ->
  get_string sha256 decodeURIComponent param strings'
  = Response 404 (ErrorBody "String does not exist in the system") /\
  delete_string sha256 decodeURIComponent param strings'
  = (Json (Response 404 (ErrorBody "String does not exist in the system")),
     strings') /\
  length strings = S (length strings') /\
  exists v, decodeURIComponent param = Some v /\
    forall other, other <> sha256 v ->
      find_by_id other strings' = find_by_id other strings.
Proof.
  intros Hnd Hdel.
  destruct (DeleteFacts.delete_string_cases sha256 decodeURIComponent param strings)
    as [[? Hr]|[(v & _ & _ & Hr)|(v & i & rec & Hd & Hi & Hrec & _ & Hr)]];
    rewrite Hr in Hdel; try done.
  injection Hdel as <-.
  pose proof (DeleteFacts.find_after_delete _ _ _ Hnd Hi) as Hgone.
  split_and!.
  - unfold get_string. by rewrite Hd, Hgone.
  - unfold delete_string. rewrite Hd. cbv zeta.
    by rewrite (proj2 (DeleteFacts.findIndex_none _ _) Hgone).
  - rewrite length_delete by done.
    apply lookup_lt_Some in Hrec. lia.
  - exists v. split; [done|]. intros other Hne.
    by apply DeleteFacts.find_other_after_delete with (ident := sha256 v).
Qed.

Lemma delete_removes_the_record_witness :
  let sha256 := fun s : jsstring => str "sha256:" ++ s in
  let rec v := MkRecord (sha256 v) v (analyzeString sha256 v) (str "now") in
  let strings := [rec (str "level"); rec (str "noon"); rec (str "two words")] in
  let strings' := [rec (str "level"); rec (str "two words")] in
  get_string sha256 Some (str "noon") strings'
  = Response 404 (ErrorBody "String does not exist in the system") /\
  delete_string sha256 Some (str "noon") strings'
  = (Json (Response 404 (ErrorBody "String does not exist in the system")),
     strings') /\
  length strings = S (length strings') /\
  exists v, Some (str "noon") = Some v /\
    forall other, other <> sha256 v ->
      find_by_id other strings' = find_by_id other strings.
Proof.
  intros sha256 rec strings strings'.
  apply (delete_removes_the_record sha256 Some (str "noon") strings strings').
  - by apply (bool_decide_unpack _).
  - reflexivity.
Defined.

(** X16: lookup and delete agree on what exists: for the same parameter
    and store, the delete answers 204 exactly when the lookup answers 200,
    404 exactly when the lookup answers 404, and 500 exactly when the lookup
    answers 500; a delete that does not answer 204 leaves the store as it
    is. *)
Theorem delete_agrees_with_lookup
    (sha256 : jsstring -> jsstring)
    (decodeURIComponent : jsstring -> option jsstring)
    (param : jsstring) (strings : list StringRecord) :
  let deleted := delete_string sha256 decodeURIComponent param strings in
  let found := get_string sha256 decodeURIComponent param strings in
  (fst deleted = NoContent 204 <-> status found = 200%Z) /\
  (fst deleted
   = Json (Response 404 (ErrorBody "String does not exist in the system"))
   <-> status found = 404%Z) /\
  (fst deleted = Json (Response 500 (ErrorBody "Internal server error"))
   <-> status found = 500%Z) /\
  (fst deleted <> NoContent 204 -> snd deleted = strings).
Proof.
  cbv zeta. unfold get_string.
  destruct (DeleteFacts.delete_string_cases sha256 decodeURIComponent param strings)
    as [[Hd ->]|[(v & Hd & Hf & ->)|(v & i & rec & Hd & _ & _ & Hf & ->)]];
    rewrite Hd, ?Hf; cbn; by split_and!.
Qed.

Lemma delete_agrees_with_lookup_witness :
  let sha256 := fun s : jsstring => str "sha256:" ++ s in
  let rec v := MkRecord (sha256 v) v (analyzeString sha256 v) (str "now") in
  snd (delete_string sha256 Some (str "noon") [rec (str "level")])
  = [rec (str "level")].
Proof.
  intros sha256 rec.
  by apply (delete_agrees_with_lookup sha256 Some (str "noon") [rec (str "level")]).
Defined.

(** X17: in a well-formed store every record can be fetched by its value:
    a lookup whose parameter decodes to the value of a stored record answers
    200 with that very record. *)
Theorem stored_records_are_found_by_value
    (sha256 : jsstring -> jsstring)
    (decodeURIComponent : jsstring -> option jsstring)
    (param : jsstring) (strings : list StringRecord) (rec : StringRecord) :
  well_formed sha256 strings ->
  rec ∈ strings ->
  decodeURIComponent param = Some (value rec) ->
  get_string sha256 decodeURIComponent param strings = Response 200 (RecordBody rec).
Proof.
  intros Hwf Hin Hd. unfold get_string.
  by rewrite Hd, (DeleteFacts.find_stored sha256 strings rec Hwf Hin).
Qed.

Lemma stored_records_are_found_by_value_witness :
  let sha256 := fun s : jsstring => str "sha256:" ++ s in
  let rec v := MkRecord (sha256 v) v (analyzeString sha256 v) (str "now") in
  get_string sha256 Some (str "noon") [rec (str "level"); rec (str "noon")]
  = Response 200 (RecordBody (rec (str "noon"))).
Proof.
  intros sha256 rec.
  apply (stored_records_are_found_by_value sha256 Some (str "noon")
           [rec (str "level"); rec (str "noon")] (rec (str "noon"))).
  - split.
    + by repeat constructor.
    + by apply (bool_decide_unpack _).
  - set_solver.
  - reflexivity.
Defined.

(** X18: a request changes the stored list only by a create answered 201,
    which appends the record it sends back, or by a delete answered 204,
    which removes one record; every other answer, of any handler, leaves the
    stored list as it was. *)
Theorem only_create_and_delete_change_the_store
    (sha256 : jsstring -> jsstring)
    (decodeURIComponent : jsstring -> option jsstring)
    (now : jsstring) (req : request) (file : data_file) :
  let answer := fst (serve sha256 decodeURIComponent now req file) in
  let after := stored (snd (serve sha256 decodeURIComponent now req file)) in
  (exists v rec, req = POST_strings v /\
     answer = Json (Response 201 (RecordBody rec)) /\
     value rec = v /\ created_at rec = now /\
     after = stored file ++ [rec]) \/
  (exists param i, req = DELETE_string param /\
     answer = NoContent 204 /\
     i < length (stored file) /\
     after = delete i (stored file)) \/
  (after = stored file /\
   answer <> NoContent 204 /\
   forall body, answer <> Json (Response 201 body)).
Proof.
  cbv zeta. destruct req as [v|param|param|query|q]; unfold serve.
  - cbn. assert (readDB file = (stored file, DataFile (stored file))) as ->
      by by destruct file.
    destruct (DeleteFacts.post_strings_cases sha256 now v (stored file))
      as [[Hn ->]|[_ ->]]; cbn.
    + left. by eexists _, _.
    + right; right. by split_and!.
  - cbn. right; right.
    destruct (decodeURIComponent param) eqn:Hd.
    + assert (readDB file = (stored file, DataFile (stored file))) as ->
        by by destruct file.
      cbn. split_and!; try done. intros body. unfold get_string. rewrite Hd.
      by destruct (find_by_id _ _).
    + cbn. split_and!; try done. intros body. unfold get_string. by rewrite Hd.
  - cbn. destruct (decodeURIComponent param) eqn:Hd.
    + assert (readDB file = (stored file, DataFile (stored file))) as ->
        by by destruct file.
      destruct (DeleteFacts.delete_string_cases sha256 decodeURIComponent param
                  (stored file))
        as [[? ->]|[(v & _ & _ & ->)|(v & i & rec & _ & _ & Hrec & _ & ->)]]; cbn.
      * right; right. by split_and!.
      * right; right. by split_and!.
      * right; left. exists param, i. split_and!; try done.
        by apply lookup_lt_Some in Hrec.
    + right; right. unfold delete_string. rewrite Hd. cbn. by split_and!.
  - right; right.
    destruct (QueryFacts.parse_query_cases query)
      as [[_ [f Hf]]|[_ [msg Hf]]]; rewrite Hf.
    + assert (readDB file = (stored file, DataFile (stored file))) as ->
        by by destruct file.
      unfold get_strings. rewrite Hf. by split_and!.
    + by split_and!.
  - cbn. right; right.
    assert (forall strings body,
              filter_by_natural_language decodeURIComponent q strings
              <> Response 201 body) as Hnot.
    { intros strings body. unfold filter_by_natural_language.
      destruct q as [[|c q]|]; try done.
      destruct (decodeURIComponent (c :: q)) as [phrase|]; [|done].
      destruct (parseNaturalLanguageQuery phrase); [by case_bool_decide|done]. }
    destruct (filter_by_natural_language decodeURIComponent q []) as [s b] eqn:Hq.
    assert (forall file' : data_file,
              stored file' = stored file ->
              stored (snd (Json (Response s b), file')) = stored file /\
              Json (Response s b) <> NoContent 204 /\
              forall body, Json (Response s b) <> Json (Response 201 body))
      as Hearly.
    { intros file' Hf. split_and!; try done. intros body [= -> ->].
      by apply (Hnot [] body). }
    destruct s as [|s|s]; try by apply Hearly.
    repeat (destruct s as [s|s|]; try by apply Hearly).
    assert (readDB file = (stored file, DataFile (stored file))) as ->
      by by destruct file.
    cbn. split_and!; try done. intros body [= H]. by apply (Hnot _ _ H).
Qed.

(** X19: a parameter that [decodeURIComponent] rejects is answered 500 by
    the lookup and by the delete, but 400 with the parse complaint by the
    natural-language handler; none of the three touches the store. *)
Theorem malformed_parameter_answers
    (sha256 : jsstring -> jsstring)
    (decodeURIComponent : jsstring -> option jsstring)
    (param : jsstring) (strings : list StringRecord) :
  decodeURIComponent param = None ->
  param <> [] ->
  get_string sha256 decodeURIComponent param strings
  = Response 500 (ErrorBody "Internal server error") /\
  delete_string sha256 decodeURIComponent param strings
  = (Json (Response 500 (ErrorBody "Internal server error")), strings) /\
  filter_by_natural_language decodeURIComponent (Some param) strings
  = Response 400 (ErrorBody "Unable to parse natural language query").
Proof.
  intros Hd Hne. unfold get_string, delete_string, filter_by_natural_language.
  rewrite Hd. by destruct param.
Qed.

Lemma malformed_parameter_answers_witness :
  let decode (s : jsstring) :=
    if bool_decide (s = str "%") then None else Some s in
  get_string (fun s => s) decode (str "%") []
  = Response 500 (ErrorBody "Internal server error") /\
  delete_string (fun s => s) decode (str "%") []
  = (Json (Response 500 (ErrorBody "Internal server error")), []) /\
  filter_by_natural_language decode (Some (str "%")) []
  = Response 400 (ErrorBody "Unable to parse natural language query").
Proof.
  intros decode.
  by apply (malformed_parameter_answers (fun s => s) decode (str "%") []).
Defined.

(** ** More on the interpreter *)

Module ResultFacts.
Import Double.
Local Open Scope Z_scope.

Lemma round_nat_nonneg (a : Z) : 0 <= a -> 0 <= round_nat a.
Proof.
  intros Ha. unfold round_nat.
  pose proof (DoubleFacts.round_half_even_lower a (ulp_exp a)) as Hlow.
  assert (0 <= ulp_exp a) as He by (unfold ulp_exp; lia).
  assert (0 < 2 ^ ulp_exp a) as Hp by (apply Z.pow_pos_nonneg; lia).
  assert (0 <= a / 2 ^ ulp_exp a) by (by apply Z.div_pos).
  apply Z.mul_nonneg_nonneg; lia.
Qed.

(** The number value of an integer from [k] on is an infinity or an
    integer from [k] on, for [k] up to [2^52]. *)
Lemma of_Z_lower (k z : Z) :
  0 <= k <= 2 ^ 52 -> k <= z ->
  of_Z z = Infinity false \/ exists z', of_Z z = Int z' /\ k <= z'.
Proof.
  intros Hk Hz.
  assert (2 ^ 52 < 2 ^ 53) as Hpow by reflexivity.
  destruct (Z.le_gt_cases z (2 ^ 53)) as [Hs|Hl].
  - right. exists z. split; [|done]. apply DoubleFacts.of_Z_small. lia.
  - unfold of_Z. cbv zeta. rewrite Z.abs_eq by lia.
    pose proof (DoubleFacts.round_nat_large z ltac:(lia)) as Hr.
    replace (z <? 0) with false by (symmetry; apply Z.ltb_ge; lia).
    rewrite Z.sgn_pos by lia.
    destruct (2 ^ 1024 <=? round_nat z); [by left|right].
    eexists. split; [done|]. lia.
Qed.

Lemma parsed_digits (ds : jsstring) :
  all_digits ds ->
  parseInt10 ds = Infinity false \/ exists z, parseInt10 ds = Int z /\ 0 <= z.
Proof.
  intros Hd. rewrite (NumberFacts.parseInt10_digits ds Hd).
  apply of_Z_lower; [by vm_compute|].
  apply NumberFacts.digits_value_nonneg, Hd.
Qed.

Lemma lower_bound_shape (ds : jsstring) :
  all_digits ds ->
  add (parseInt10 ds) (Int 1) = Infinity false \/
  exists z, add (parseInt10 ds) (Int 1) = Int z /\ 0 <= z.
Proof.
  intros [->|(z & -> & Hz)]%parsed_digits; [by left|].
  cbn. apply of_Z_lower; [by vm_compute|lia].
Qed.

Lemma upper_bound_shape (ds : jsstring) :
  all_digits ds ->
  sub (parseInt10 ds) (Int 1) = Infinity false \/
  exists z, sub (parseInt10 ds) (Int 1) = Int z /\ -1 <= z.
Proof.
  intros [->|(z & -> & Hz)]%parsed_digits; [by left|].
  change (sub (Int z) (Int 1)) with (of_Z (z + -1)).
  destruct (Z.eq_dec z 0) as [->|Hnz].
  - right. by exists (-1).
  - destruct (of_Z_lower 0 (z + -1)) as [->|(z' & -> & Hz')];
      [by vm_compute|lia|by left|].
    right. exists z'. split; [done|lia].
Qed.

Lemma longer_reads_digits (txt : jsstring) (m : match_result) :
  re_match re_longer txt = Some m -> all_digits (group m 1).
Proof.
  intros Hm.
  apply (WrittenFacts.first_written_digits longer_written txt).
  - apply WrittenFacts.number_after_digits.
  - apply WrittenFacts.longer_first_written. by exists m.
Qed.

Lemma shorter_reads_digits (txt : jsstring) (m : match_result) :
  re_match re_shorter txt = Some m -> all_digits (group m 1).
Proof.
  intros Hm.
  apply (WrittenFacts.first_written_digits shorter_written txt).
  - apply WrittenFacts.number_after_digits.
  - apply WrittenFacts.shorter_first_written. by exists m.
Qed.

Lemma length_reads_digits (txt : jsstring) (m : match_result) :
  re_match re_length txt = Some m -> all_digits (group m 2).
Proof.
  intros Hm.
  apply (WrittenFacts.first_written_digits length_written txt).
  - apply WrittenFacts.length_written_digits.
  - apply WrittenFacts.length_first_written. by exists m.
Qed.

Lemma compose_is_palindrome (txt : jsstring) :
  Filters.is_palindrome (compose txt)
  = if includes txt (str "palindrom") || includes txt (str "palindromic")
    then Some true else None.
Proof.
  unfold compose, step_first_vowel, step_contains, step_length, step_shorter,
    step_longer, step_word_count, step_palindrome.
  by destruct (includes txt (str "first vowel")), (re_match re_contains txt),
    (re_match re_length txt), (re_match re_shorter txt), (re_match re_longer txt),
    (re_test re_single_word txt || re_test re_1_word txt
     || re_test re_word_count_1 txt),
    (includes txt (str "palindrom") || includes txt (str "palindromic")).
Qed.

Lemma compose_word_count (txt : jsstring) :
  Filters.word_count (compose txt)
  = if re_test re_single_word txt || re_test re_1_word txt
       || re_test re_word_count_1 txt
    then Some (Int 1) else None.
Proof.
  unfold compose, step_first_vowel, step_contains, step_length, step_shorter,
    step_longer, step_word_count, step_palindrome.
  by destruct (includes txt (str "first vowel")), (re_match re_contains txt),
    (re_match re_length txt), (re_match re_shorter txt), (re_match re_longer txt),
    (re_test re_single_word txt || re_test re_1_word txt
     || re_test re_word_count_1 txt),
    (includes txt (str "palindrom") || includes txt (str "palindromic")).
Qed.

(** The interpreter reports the conflict exactly when the composed bounds
    cross. *)
Lemma conflict_iff_conflicting (q : jsstring) :
  fails_with ConflictingFilters (parseNaturalLanguageQuery q) <->
  conflicting (compose (toLowerCase q)) = true.
Proof.
  destruct q as [|c q].
  { split; [|by vm_compute]. by intros (e & [= <-] & He). }
  rewrite InterpreterFacts.parse_nonempty. cbv zeta.
  destruct (Nat.eqb_spec (Filters.key_count (compose (toLowerCase (c :: q)))) 0)
    as [E|E].
  - split; [by intros (e & [= <-] & He)|]. intros Hc. exfalso.
    unfold conflicting in Hc. unfold Filters.key_count in E.
    destruct (Filters.min_length (compose _)); [|done]. cbn in E. lia.
  - destruct (conflicting _); split; try done.
    + intros _. by eexists.
    + by intros (e & [= <-] & He).
Qed.

(** The composed bounds cross only without the length pattern, with both
    other patterns read. *)
Lemma conflicting_compose (txt : jsstring) :
  conflicting (compose txt) = true <->
  re_match re_length txt = None /\
  exists m1 m2,
    re_match re_longer txt = Some m1 /\ re_match re_shorter txt = Some m2 /\
    gt (add (parseInt10 (group m1 1)) (Int 1))
       (sub (parseInt10 (group m2 1)) (Int 1)) = true.
Proof.
  unfold conflicting.
  rewrite ComposeFacts.compose_min_length, ComposeFacts.compose_max_length.
  destruct (re_match re_length txt) as [m|].
  - rewrite ComposeFacts.gt_irrefl. split; [done|]. by intros [? _].
  - destruct (re_match re_longer txt) as [m1|], (re_match re_shorter txt) as [m2|];
      split; try done; try (by intros (_ & ? & ? & ? & ? & _)).
    + intros H. split; [done|]. by exists m1, m2.
    + by intros (_ & ? & ? & [= <-] & [= <-] & H).
Qed.

Lemma crossing_safe (n m : jsstring) :
  all_digits n -> all_digits m ->
  digits_value n <= MAX_SAFE_INTEGER -> digits_value m <= MAX_SAFE_INTEGER ->
  gt (add (parseInt10 n) (Int 1)) (sub (parseInt10 m) (Int 1)) = true <->
  digits_value m < digits_value n + 2.
Proof.
  intros Hn Hm Hsn Hsm.
  rewrite (NumberFacts.parseInt10_safe n Hn Hsn),
    (NumberFacts.parseInt10_safe m Hm Hsm).
  pose proof (NumberFacts.digits_value_nonneg n (proj2 Hn)).
  pose proof (NumberFacts.digits_value_nonneg m (proj2 Hm)).
  rewrite DoubleFacts.add_one_safe, DoubleFacts.sub_one_safe by lia.
  unfold gt, lt. rewrite Z.ltb_lt. lia.
Qed.

(** A literal that starts and ends with a word character, between two
    [\b]: it matches exactly where it stands as a whole word. *)
Lemma bounded_literal (w txt : jsstring) :
  head_is_word w = true -> head_is_word (rev w) = true ->
  occurs (Seq WordBoundary (Seq (Lit w) WordBoundary)) txt <->
  stands_as_word txt w.
Proof.
  intros Hfirst Hlast.
  assert (forall s, head_is_word (w ++ s) = true) as Hhead.
  { intros s. destruct w; [done|]. done. }
  assert (forall s, head_is_word (rev w ++ s) = true) as Htail.
  { intros s. destruct (rev w); [done|]. done. }
  split.
  - intros (pre & post & st' & -> & Hm).
    apply RegexFacts.matches_seq_inv in Hm as (st1 & Hb1 & Hm).
    apply RegexFacts.matches_boundary_inv in Hb1 as [-> Hb1].
    apply RegexFacts.matches_seq_inv in Hm as (st2 & Hl & Hb2).
    apply RegexFacts.matches_boundary_inv in Hb2 as [-> Hb2].
    apply RegexFacts.matches_lit_inv in Hl as (Hr & Hs & _). cbn in Hr, Hs.
    unfold at_word_boundary in Hb1, Hb2. cbn in Hb1.
    rewrite Hr, Hhead in Hb1. rewrite Hs, Htail in Hb2.
    exists pre, (rest st2). split_and!.
    + by rewrite Hr.
    + by destruct (head_is_word (rev pre)).
    + by destruct (head_is_word (rest st2)).
  - intros (before & after & -> & Hb & Ha).
    exists before, (w ++ after), (MState (rev w ++ rev before) after ∅).
    split; [done|].
    eapply M_Seq; [|eapply M_Seq].
    + apply M_Boundary. unfold at_word_boundary. cbn. by rewrite Hb, Hhead.
    + apply M_Lit.
    + apply M_Boundary. unfold at_word_boundary. cbn. by rewrite Htail, Ha.
Qed.

Lemma re_test_true (r : regex) (txt : jsstring) :
  re_test r txt = true <-> occurs r txt.
Proof. apply RegexFacts.re_test_spec. Qed.

(** The three errors the interpreter throws. *)
Lemma parse_error_cases (phrase : jsstring) (e : Error) :
  parseNaturalLanguageQuery phrase = inl e ->
  e = MkError "empty query" None \/
  e = MkError "Unable to parse natural language query" None \/
  e = MkError "Query parsed but resulted in conflicting filters" (Some 422%Z).
Proof.
  destruct phrase as [|c phrase]; [intros [= <-]; by left|].
  rewrite InterpreterFacts.parse_nonempty. cbv zeta.
  destruct (Filters.key_count _ =? 0)%nat; [intros [= <-]; by right; left|].
  destruct (conflicting _); [intros [= <-]; by right; right|done].
Qed.

(** How the natural-language handler answers the interpreter's result. *)
Lemma handler_cases (decodeURIComponent : jsstring -> option jsstring)
    (q : option jsstring) (strings : list StringRecord) :
  let answer := filter_by_natural_language decodeURIComponent q strings in
  ((q = None \/ q = Some []) /\
   answer = Response 400 (ErrorBody "query parameter is required")) \/
  (exists original, q = Some original /\ original <> [] /\
     (decodeURIComponent original = None \/
      exists phrase, decodeURIComponent original = Some phrase /\
        exists e, parseNaturalLanguageQuery phrase = inl e /\
          classify e = Unparseable) /\
     answer = Response 400 (ErrorBody "Unable to parse natural language query")) \/
  (exists original phrase, q = Some original /\ original <> [] /\
     decodeURIComponent original = Some phrase /\
     fails_with ConflictingFilters (parseNaturalLanguageQuery phrase) /\
     answer
     = Response 422 (ErrorBody "Query parsed but resulted in conflicting filters")) \/
  (exists original phrase f, q = Some original /\ original <> [] /\
     decodeURIComponent original = Some phrase /\
     parseNaturalLanguageQuery phrase = inr f /\
     answer
     = Response 200
         (InterpretedBody (List.filter (keeps f) strings)
            (length (List.filter (keeps f) strings)) original f)).
Proof.
  cbv zeta. unfold filter_by_natural_language.
  destruct q as [[|c q]|]; [left; split; [by right|done]| |left; split; [by left|done]].
  right.
  destruct (decodeURIComponent (c :: q)) as [phrase|] eqn:Hd.
  - destruct (parseNaturalLanguageQuery phrase) as [e|f] eqn:Hp.
    + destruct (parse_error_cases phrase e Hp) as [->|[->| ->]].
      * left. exists (c :: q). split_and!; try done.
        right. exists phrase. split; [done|]. by eexists.
      * left. exists (c :: q). split_and!; try done.
        right. exists phrase. split; [done|]. by eexists.
      * right; left. exists (c :: q), phrase. split_and!; try done. by eexists.
    + right; right. by exists (c :: q), phrase, f.
  - left. exists (c :: q). split_and!; try done. by left.
Qed.

End ResultFacts.

(** X20: the criteria of a successful interpretation are sound: at least
    one key is set; [is_palindrome] is never false and [word_count] never
    anything but 1; neither bound is NaN, the lower bound is never negative
    and the upper bound never below -1; and when both bounds are set, the
    lower one is not above the upper one. *)
Theorem interpreted_criteria_are_sound (q : jsstring) (f : Filters.t) :
  parseNaturalLanguageQuery q = inr f ->
  (0 < Filters.key_count f) /\
  Filters.is_palindrome f <> Some false /\
  (forall x, Filters.word_count f = Some x -> x = Int 1) /\
  (forall x, Filters.min_length f = Some x ->
     x = Infinity false \/ exists z, x = Int z /\ (0 <= z)%Z) /\
  (forall x, Filters.max_length f = Some x ->
     x = Infinity false \/ exists z, x = Int z /\ (-1 <= z)%Z) /\
  (forall lo hi, Filters.min_length f = Some lo -> Filters.max_length f = Some hi ->
     Double.gt lo hi = false).
Proof.
  intros (-> & Hc & Hk)%InterpreterFacts.parse_ok.
  set (txt := toLowerCase q) in *. split_and!.
  - lia.
  - rewrite ResultFacts.compose_is_palindrome. by destruct (_ || _).
  - intros x. rewrite ResultFacts.compose_word_count.
    destruct (_ || _); [by intros [= <-]|done].
  - intros x. rewrite ComposeFacts.compose_min_length.
    destruct (re_match re_length txt) as [m|] eqn:Hm.
    + intros [= <-].
      by apply ResultFacts.parsed_digits, (ResultFacts.length_reads_digits txt).
    + destruct (re_match re_longer txt) as [m|] eqn:Hl; [|done]. intros [= <-].
      by apply ResultFacts.lower_bound_shape, (ResultFacts.longer_reads_digits txt).
  - intros x. rewrite ComposeFacts.compose_max_length.
    destruct (re_match re_length txt) as [m|] eqn:Hm.
    + intros [= <-].
      destruct (ResultFacts.parsed_digits (group m 2)) as [->|(z & -> & Hz)];
        [by apply (ResultFacts.length_reads_digits txt)|by left|].
      right. exists z. split; [done|lia].
    + destruct (re_match re_shorter txt) as [m|] eqn:Hs; [|done]. intros [= <-].
      by apply ResultFacts.upper_bound_shape, (ResultFacts.shorter_reads_digits txt).
  - intros lo hi Hlo Hhi. unfold conflicting in Hc. by rewrite Hlo, Hhi in Hc.
Qed.

Lemma interpreted_criteria_are_sound_witness :
  let f := Filters.Make None None (Some (Int (-1))) None None in
  parseNaturalLanguageQuery (str "shorter than 0") = inr f /\
  Filters.is_palindrome f <> Some false.
Proof.
  intros f. split; [reflexivity|].
  apply (interpreted_criteria_are_sound (str "shorter than 0")
           (Filters.Make None None (Some (Int (-1))) None None)).
  reflexivity.
Defined.

(** X21: the interpreter reports conflicting filters exactly when the
    phrase writes no "length N" or "long N", writes both a "longer than N"
    and a "shorter than M", and N + 1 is above M - 1 as numbers; for N and M
    up to the largest safe integer that is M < N + 2. *)
Theorem conflict_is_longer_against_shorter (q : jsstring) :
  let txt := toLowerCase q in
  (fails_with ConflictingFilters (parseNaturalLanguageQuery q) <->
   (forall ds, ~ first_written length_written txt ds) /\
   exists n m,
     first_written longer_written txt n /\
     first_written shorter_written txt m /\
     Double.gt (Double.add (parseInt10 n) (Int 1))
               (Double.sub (parseInt10 m) (Int 1)) = true) /\
  (forall n m,
     first_written longer_written txt n ->
     first_written shorter_written txt m ->
     (digits_value n <= Double.MAX_SAFE_INTEGER)%Z ->
     (digits_value m <= Double.MAX_SAFE_INTEGER)%Z ->
     (fails_with ConflictingFilters (parseNaturalLanguageQuery q) <->
      (forall ds, ~ first_written length_written txt ds) /\
      (digits_value m < digits_value n + 2)%Z)).
Proof.
  intros txt.
  assert (fails_with ConflictingFilters (parseNaturalLanguageQuery q) <->
          (forall ds, ~ first_written length_written txt ds) /\
          exists n m,
            first_written longer_written txt n /\
            first_written shorter_written txt m /\
            Double.gt (Double.add (parseInt10 n) (Int 1))
                      (Double.sub (parseInt10 m) (Int 1)) = true) as Hmain.
  { rewrite ResultFacts.conflict_iff_conflicting, ResultFacts.conflicting_compose.
    fold txt. rewrite WrittenFacts.length_not_written. split.
    - intros (Hn & m1 & m2 & H1 & H2 & Hgt). split; [done|].
      exists (group m1 1), (group m2 1). split_and!; [..|done].
      + apply WrittenFacts.longer_first_written. by exists m1.
      + apply WrittenFacts.shorter_first_written. by exists m2.
    - intros (Hn & n & m & (m1 & H1 & <-)%WrittenFacts.longer_first_written
                & (m2 & H2 & <-)%WrittenFacts.shorter_first_written & Hgt).
      split; [done|]. by exists m1, m2. }
  split; [exact Hmain|].
  intros n m Hn Hm Hsn Hsm. rewrite Hmain.
  assert (all_digits n) as Hdn.
  { apply (WrittenFacts.first_written_digits longer_written txt); [|done].
    apply WrittenFacts.number_after_digits. }
  assert (all_digits m) as Hdm.
  { apply (WrittenFacts.first_written_digits shorter_written txt); [|done].
    apply WrittenFacts.number_after_digits. }
  split.
  - intros (Hlen & n' & m' & Hn' & Hm' & Hgt). split; [done|].
    apply WrittenFacts.longer_first_written in Hn as (m1 & H1 & <-).
    apply WrittenFacts.longer_first_written in Hn' as (m1' & H1' & <-).
    apply WrittenFacts.shorter_first_written in Hm as (m2 & H2 & <-).
    apply WrittenFacts.shorter_first_written in Hm' as (m2' & H2' & <-).
    rewrite H1 in H1'. injection H1' as <-. rewrite H2 in H2'. injection H2' as <-.
    by apply ResultFacts.crossing_safe.
  - intros [Hlen Hlt]. split; [done|]. exists n, m. split_and!; try done.
    by apply ResultFacts.crossing_safe.
Qed.

Lemma conflict_is_longer_against_shorter_witness :
  fails_with ConflictingFilters
    (parseNaturalLanguageQuery (str "Longer than 5 but shorter than 6")).
Proof.
  pose proof (conflict_is_longer_against_shorter
                (str "Longer than 5 but shorter than 6")) as [_ H].
  apply (H (str "5") (str "6")).
  - apply WrittenFacts.longer_first_written. by eexists.
  - apply WrittenFacts.shorter_first_written. by eexists.
  - by vm_compute.
  - by vm_compute.
  - split; [|by vm_compute].
    by apply WrittenFacts.length_not_written.
Defined.

(** X22: the natural-language handler answers 200, 400 or 422: 422 exactly
    when the decoded phrase is interpreted with conflicting filters, 200
    exactly when it is interpreted successfully, and 400, with one of two
    complaints, for a missing or empty parameter, a parameter that cannot be
    decoded, and a phrase that cannot be parsed. *)
Theorem natural_language_statuses
    (decodeURIComponent : jsstring -> option jsstring)
    (q : option jsstring) (strings : list StringRecord) :
  let answer := filter_by_natural_language decodeURIComponent q strings in
  (status answer = 200%Z \/ status answer = 400%Z \/ status answer = 422%Z) /\
  (status answer = 422%Z <->
   exists original phrase,
     q = Some original /\ original <> [] /\
     decodeURIComponent original = Some phrase /\
     fails_with ConflictingFilters (parseNaturalLanguageQuery phrase)) /\
  (status answer = 200%Z <->
   exists original phrase f,
     q = Some original /\ original <> [] /\
     decodeURIComponent original = Some phrase /\
     parseNaturalLanguageQuery phrase = inr f) /\
  (status answer = 400%Z ->
   json answer = ErrorBody "query parameter is required" \/
   json answer = ErrorBody "Unable to parse natural language query").
Proof.
  cbv zeta.
  destruct (ResultFacts.handler_cases decodeURIComponent q strings)
    as [[Hq ->]|[(o & -> & Ho & Hwhy & ->)|[(o & phrase & -> & Ho & Hd & Hf & ->)
       |(o & phrase & f & -> & Ho & Hd & Hp & ->)]]]; cbn; split_and!.
  - right. by left.
  - split; [done|]. intros (o & phrase & -> & Ho & _). by destruct Hq as [?|[= ->]].
  - split; [done|]. intros (o & phrase & f & -> & Ho & _). by destruct Hq as [?|[= ->]].
  - by left.
  - right. by left.
  - split; [done|].
    intros (o' & phrase & [= <-] & _ & Hd & (e & He & Hc)).
    destruct Hwhy as [Hn|(phrase' & Hd' & e' & He' & Hc')]; [congruence|].
    rewrite Hd in Hd'. injection Hd' as <-. rewrite He in He'.
    injection He' as <-. congruence.
  - split; [done|].
    intros (o' & phrase & f & [= <-] & _ & Hd & Hp).
    destruct Hwhy as [Hn|(phrase' & Hd' & e' & He' & Hc')]; [congruence|].
    rewrite Hd in Hd'. injection Hd' as <-. congruence.
  - by right.
  - right. by right.
  - split; [|done]. intros _. by exists o, phrase.
  - split; [done|].
    intros (o' & phrase' & f & [= <-] & _ & Hd' & Hp).
    rewrite Hd in Hd'. injection Hd' as <-.
    destruct Hf as (e & He & _). congruence.
  - done.
  - by left.
  - split; [done|].
    intros (o' & phrase' & [= <-] & _ & Hd' & (e & He & _)).
    rewrite Hd in Hd'. injection Hd' as <-. congruence.
  - split; [|done]. intros _. by exists o, phrase, f.
  - done.
Qed.

Lemma natural_language_statuses_witness :
  json (filter_by_natural_language Some (Some (str "hello")) [])
  = ErrorBody "query parameter is required" \/
  json (filter_by_natural_language Some (Some (str "hello")) [])
  = ErrorBody "Unable to parse natural language query".
Proof.
  by apply (natural_language_statuses Some (Some (str "hello")) []).
Defined.

(** X23: a successful interpretation sets [word_count], and then to 1,
    exactly when the lower-cased phrase has "single word", "1 word" or
    "word_count=1" standing as a whole word, with no letter, digit or
    underscore right before or right after it. *)
Theorem word_count_needs_whole_words (q : jsstring) (f : Filters.t) :
  parseNaturalLanguageQuery q = inr f ->
  let txt := toLowerCase q in
  (Filters.word_count f = Some (Int 1) <->
   stands_as_word txt (str "single word") \/
   stands_as_word txt (str "1 word") \/
   stands_as_word txt (str "word_count=1")) /\
  (Filters.word_count f = None <->
   ~ (stands_as_word txt (str "single word") \/
      stands_as_word txt (str "1 word") \/
      stands_as_word txt (str "word_count=1"))).
Proof.
  intros (-> & _ & _)%InterpreterFacts.parse_ok txt. fold txt.
  rewrite ResultFacts.compose_word_count.
  rewrite <- !ResultFacts.bounded_literal by done.
  fold re_single_word re_1_word re_word_count_1.
  rewrite <- !ResultFacts.re_test_true.
  destruct (re_test re_single_word txt), (re_test re_1_word txt),
    (re_test re_word_count_1 txt); cbn; split; split; try done;
    intuition congruence.
Qed.

Lemma word_count_needs_whole_words_witness :
  Filters.word_count (Filters.Make (Some true) None None None None) = None <->
  ~ (stands_as_word (str "palindromes of 1 words") (str "single word") \/
     stands_as_word (str "palindromes of 1 words") (str "1 word") \/
     stands_as_word (str "palindromes of 1 words") (str "word_count=1")).
Proof.
  apply (word_count_needs_whole_words (str "Palindromes of 1 words")
           (Filters.Make (Some true) None None None None)).
  reflexivity.
Defined.

(** ** Negative numbers, the keys of the interpreter, and the first request *)

Module EdgeFacts.
Import Double.
Local Open Scope Z_scope.

Lemma of_Z_negative (z : Z) :
  z < 0 -> of_Z z = Infinity true \/ exists z', of_Z z = Int z' /\ z' < 0.
Proof.
  intros Hz.
  assert (2 ^ 52 < 2 ^ 53) as Hpow by reflexivity.
  destruct (Z.le_gt_cases (- 2 ^ 53) z) as [Hs|Hl].
  - right. exists z. split; [|done]. apply DoubleFacts.of_Z_small. lia.
  - unfold of_Z. cbv zeta. rewrite Z.abs_neq by lia.
    pose proof (DoubleFacts.round_nat_large (- z) ltac:(lia)) as Hr.
    replace (z <? 0) with true by (symmetry; apply Z.ltb_lt; lia).
    rewrite Z.sgn_neg by lia.
    destruct (2 ^ 1024 <=? round_nat (- z)); [by left|right].
    eexists. split; [done|]. lia.
Qed.

Lemma of_nat_nonneg (n : nat) :
  of_nat n = Infinity false \/ exists z, of_nat n = Int z /\ 0 <= z.
Proof. apply ResultFacts.of_Z_lower; [by vm_compute|lia]. Qed.

Lemma parseInt10_negative (ds : jsstring) :
  all_digits ds -> 0 < digits_value ds ->
  parseInt10 ("-"%char :: ds) = Infinity true \/
  exists z, parseInt10 ("-"%char :: ds) = Int z /\ z < 0.
Proof.
  intros [Hne Hall] Hpos. rewrite QueryFacts.parseInt10_minus.
  rewrite (NumberFacts.take_while_id _ _ Hall).
  destruct ds as [|d ds]; [done|]. apply of_Z_negative. lia.
Qed.

(** What a negative number does in each of the three numeric criteria. *)
Lemma keeps_negative (x : Number) (rec : StringRecord) :
  x = Infinity true \/ (exists z, x = Int z /\ z < 0) ->
  keeps (Filters.Make None (Some x) None None None) rec = true /\
  keeps (Filters.Make None None (Some x) None None) rec = false /\
  keeps (Filters.Make None None None (Some x) None) rec = false.
Proof.
  intros Hx. unfold keeps, undefined_or. cbn.
  destruct (of_nat_nonneg (Properties.length (properties rec)))
    as [->|(l & -> & Hl)];
    destruct (of_nat_nonneg (Properties.word_count (properties rec)))
    as [->|(w & -> & Hw)];
    destruct Hx as [->|(z & -> & Hz)]; cbn;
    rewrite ?(proj2 (Z.ltb_ge _ _)), ?(proj2 (Z.ltb_lt _ _)),
      ?(proj2 (Z.eqb_neq _ _)) by lia; done.
Qed.

Lemma includes_true (txt needle : jsstring) :
  includes txt needle = true <-> contains_text txt needle.
Proof. apply InterpreterFacts.includes_spec. Qed.

Lemma re_match_occurs (r : regex) (txt : jsstring) :
  is_Some (re_match r txt) <-> occurs r txt.
Proof.
  rewrite <- ResultFacts.re_test_true. unfold re_test.
  destruct (re_match r txt); split; try done; try (by eexists); by intros [? ?].
Qed.

End EdgeFacts.

(** X24: the structured list handler accepts a negative number in each of
    its numeric keys: as [min_length] it constrains nothing and the whole
    store is listed; as [max_length] or [word_count] it excludes every
    record. *)
Theorem negative_numbers_are_accepted
    (ds : jsstring) (strings : list StringRecord) :
  all_digits ds -> (0 < digits_value ds)%Z ->
  let token := "-"%char :: ds in
  let x := parseInt10 token in
  (x = Infinity true \/ exists z, x = Int z /\ (z < 0)%Z) /\
  get_strings (Query.Make None (Some token) None None None) strings
  = Response 200
      (ListBody strings (length strings)
         (Filters.Make None (Some x) None None None)) /\
  get_strings (Query.Make None None (Some token) None None) strings
  = Response 200 (ListBody [] 0 (Filters.Make None None (Some x) None None)) /\
  get_strings (Query.Make None None None (Some token) None) strings
  = Response 200 (ListBody [] 0 (Filters.Make None None None (Some x) None)).
Proof.
  intros Hd Hpos token x.
  pose proof (EdgeFacts.parseInt10_negative ds Hd Hpos) as Hx. fold token x in Hx.
  assert (parseInt10 token <> NaN) as Hn.
  { fold x. by destruct Hx as [->|(z & -> & _)]. }
  split; [done|].
  unfold get_strings, parse_query, and_then, parse_integer.
  cbn [Query.is_palindrome Query.min_length Query.max_length Query.word_count
       Query.contains_character parse_is_palindrome parse_contains_character].
  cbv zeta. rewrite (proj2 (QueryFacts.isNaN_false _) Hn). fold x. split_and!.
  - rewrite KeepFacts.filter_everything; [done|].
    intros rec. by apply (EdgeFacts.keeps_negative x rec).
  - rewrite FilterFacts.filter_nothing; [done|].
    intros rec. by apply (EdgeFacts.keeps_negative x rec).
  - rewrite FilterFacts.filter_nothing; [done|].
    intros rec. by apply (EdgeFacts.keeps_negative x rec).
Qed.

Lemma negative_numbers_are_accepted_witness :
  let rec v := MkRecord v v (analyzeString (fun s => s) v) (str "now") in
  let strings := [rec (str "level"); rec (str "")] in
  get_strings (Query.Make None None (Some (str "-1")) None None) strings
  = Response 200
      (ListBody [] 0 (Filters.Make None None (Some (parseInt10 (str "-1"))) None None)).
Proof.
  intros rec strings.
  apply (negative_numbers_are_accepted (str "1") strings).
  - by split; [|repeat constructor].
  - by vm_compute.
Defined.

(** X25: in a successful interpretation every key follows its own
    patterns, whatever else the phrase says: [is_palindrome] is set exactly
    when the lower-cased phrase contains "palindrom"; [min_length] exactly
    when it writes a "longer than N" or a "length N" / "long N";
    [max_length] exactly when it writes a "shorter than N" or a "length N" /
    "long N"; [contains_character] exactly when the contain pattern occurs
    or the phrase contains "first vowel". *)
Theorem keys_follow_their_patterns (q : jsstring) (f : Filters.t) :
  parseNaturalLanguageQuery q = inr f ->
  let txt := toLowerCase q in
  (is_Some (Filters.is_palindrome f) <-> contains_text txt (str "palindrom")) /\
  (is_Some (Filters.min_length f) <->
   (exists ds, first_written longer_written txt ds) \/
   (exists ds, first_written length_written txt ds)) /\
  (is_Some (Filters.max_length f) <->
   (exists ds, first_written shorter_written txt ds) \/
   (exists ds, first_written length_written txt ds)) /\
  (is_Some (Filters.contains_character f) <->
   occurs re_contains txt \/ contains_text txt (str "first vowel")).
Proof.
  intros (-> & _ & _)%InterpreterFacts.parse_ok txt. fold txt.
  assert (forall r g written,
            (forall ds, first_written written txt ds <->
                        exists m, re_match r txt = Some m /\ group m g = ds) ->
            ((exists ds, first_written written txt ds) <-> is_Some (re_match r txt)))
    as Hread.
  { intros r g written Hw. split.
    - intros (ds & (m & Hm & _)%Hw). by exists m.
    - intros [m Hm]. exists (group m g). apply Hw. by exists m. }
  rewrite (Hread _ _ _ (WrittenFacts.longer_first_written txt)),
    (Hread _ _ _ (WrittenFacts.shorter_first_written txt)),
    (Hread _ _ _ (WrittenFacts.length_first_written txt)).
  rewrite <- EdgeFacts.re_match_occurs, <- !EdgeFacts.includes_true.
  rewrite ResultFacts.compose_is_palindrome, ComposeFacts.compose_min_length,
    ComposeFacts.compose_max_length, ComposeFacts.compose_contains_character.
  pose proof (InterpreterFacts.includes_palindromic txt) as Hpal.
  destruct (includes txt (str "palindrom")), (includes txt (str "palindromic")),
    (re_match re_length txt), (re_match re_longer txt), (re_match re_shorter txt),
    (re_match re_contains txt), (includes txt (str "first vowel")); cbn;
    try (by discriminate Hpal); clear Hpal;
    (split_and!; split;
     first [done | by eexists | by intros [? ?]
           | by left; eexists | by right; eexists
           | by intros [[? ?]|[? ?]] | by left | by right
           | by intros [[? ?]|?] | by intros [?|?]]).
Qed.

Lemma keys_follow_their_patterns_witness :
  let txt := str "palindromes longer than 3 shorter than 9" in
  is_Some (Some (Int 8)) <->
  (exists ds, first_written shorter_written txt ds) \/
  (exists ds, first_written length_written txt ds).
Proof.
  intros txt.
  apply (keys_follow_their_patterns (str "Palindromes longer than 3 shorter than 9")
           (Filters.Make (Some true) (Some (Int 4)) (Some (Int 8)) None None)).
  reflexivity.
Defined.

(** X26: a missing data file is an empty store: the first request is
    answered as it would be on a file holding no record and leaves the same
    records stored; the file stays missing only when the request is answered
    before the store is read, with status 400, 422 or 500. *)
Theorem missing_file_is_an_empty_store
    (sha256 : jsstring -> jsstring)
    (decodeURIComponent : jsstring -> option jsstring)
    (now : jsstring) (req : request) :
  let fresh := serve sha256 decodeURIComponent now req NoFile in
  let empty := serve sha256 decodeURIComponent now req (DataFile []) in
  fst fresh = fst empty /\
  stored (snd fresh) = stored (snd empty) /\
  (snd fresh = NoFile ->
   exists body, fst fresh = Json (Response 400 body) \/
                fst fresh = Json (Response 422 body) \/
                fst fresh = Json (Response 500 body)).
Proof.
  cbv zeta. destruct req as [v|param|param|query|q]; unfold serve.
  - cbn. by split_and!.
  - destruct (decodeURIComponent param) eqn:Hd; cbn; split_and!; try done.
    intros _. unfold get_string. rewrite Hd. by eexists; right; right.
  - destruct (decodeURIComponent param) eqn:Hd.
    + cbn. unfold delete_string. rewrite Hd. cbn. by split_and!.
    + unfold delete_string. rewrite Hd. cbn. split_and!; try done.
      intros _. by eexists; right; right.
  - destruct (QueryFacts.parse_query_cases query)
      as [[_ [f Hf]]|[_ [msg Hf]]]; rewrite Hf; cbn; split_and!; try done.
    intros _. by eexists; left.
  - destruct (ResultFacts.handler_cases decodeURIComponent q [])
      as [[Hq Ha]|[(o & -> & Ho & Hwhy & Ha)|[(o & phrase & -> & Ho & Hd & Hf & Ha)
         |(o & phrase & f & -> & Ho & Hd & Hp & Ha)]]]; cbv zeta in Ha;
      rewrite Ha; cbn; split_and!; try done; intros _; eexists;
      [by left|by left|right; by left].
Qed.

Lemma missing_file_is_an_empty_store_witness :
  exists body,
    fst (serve (fun s => s) Some (str "now") (GET_natural_language None) NoFile)
    = Json (Response 400 body) \/
    fst (serve (fun s => s) Some (str "now") (GET_natural_language None) NoFile)
    = Json (Response 422 body) \/
    fst (serve (fun s => s) Some (str "now") (GET_natural_language None) NoFile)
    = Json (Response 500 body).
Proof.
  by apply (missing_file_is_an_empty_store (fun s => s) Some (str "now")
              (GET_natural_language None)).
Defined.
